(** * vue-property-decorator 7.3.0: the decorators over a small object heap

    The source (src/vue-property-decorator.ts) is a set of decorators that
    mutate the options object of a class component ([Inject], [Provide],
    [Model], [Prop], [Watch]) and one that replaces a method by an
    event-emitting wrapper ([Emit]).  Everything the decorators do is reading
    and writing properties of shared objects, so the embedding is a store of
    objects addressed by location, with prototype links, arrays, function
    objects (closures as code plus captured variables), promises and a job
    queue.  The decorators are written in a state-and-exception monad over
    that store and follow the source statement by statement.

    Scope of the object model:
    - strings are sequences of ASCII characters;
    - numbers are integers;
    - heap objects carry data properties only, all enumerable; the one
      accessor modelled is [__proto__] of [Object.prototype];
    - the standard prototypes are the unmodified built-in ones and live
      outside the store; their members are not interpreted, apart from
      [Array.prototype.push] and [Promise.prototype.then];
    - whatever falls outside (a member of a primitive's wrapper, an object
      used as a property key, an array hole, ...) makes the model stop with
      [Abort Unmodelled] rather than guess. *)

From Stdlib Require Import ZArith Ascii Bool Lia.
From stdpp Require Import base list strings.

Open Scope string_scope.
Open Scope list_scope.

(** ** Strings: [hyphenate] *)

Definition is_upper (c : ascii) : bool :=
  let n := nat_of_ascii c in (65 <=? n)%nat && (n <=? 90)%nat.

Definition is_lower (c : ascii) : bool :=
  let n := nat_of_ascii c in (97 <=? n)%nat && (n <=? 122)%nat.

Definition is_digit (c : ascii) : bool :=
  let n := nat_of_ascii c in (48 <=? n)%nat && (n <=? 57)%nat.

(** The class [\w] of the regular expression: letters, digits, underscore. *)
Definition is_word (c : ascii) : bool :=
  is_upper c || is_lower c || is_digit c || (nat_of_ascii c =? 95)%nat.

Definition is_word_at (c : option ascii) : bool :=
  match c with Some c => is_word c | None => false end.

(** [\B]: not a word boundary.  Both neighbours are word characters or
    neither is; outside the string counts as not a word character. *)
Definition non_boundary (prev next : option ascii) : bool :=
  Bool.eqb (is_word_at prev) (is_word_at next).

Definition lower (c : ascii) : ascii :=
  if is_upper c then ascii_of_nat (nat_of_ascii c + 32) else c.

(** [str.replace(/\B([A-Z])/g, '-$1')]: the scan keeps the character before
    the current position, which is what the zero-width [\B] looks at. *)
Fixpoint replace_hyphenateRE (prev : option ascii) (str : string) : string :=
  match str with
  | EmptyString => EmptyString
  | String c rest =>
      let tail := String c (replace_hyphenateRE (Some c) rest) in
      if non_boundary prev (Some c) && is_upper c then String "-" tail else tail
  end.

(** [toLowerCase] on strings of ASCII characters, where the letters [A]
    to [Z] are the only ones it changes.  What it does to other cased
    letters is not modelled: a statement that depends on it is made for
    ASCII strings only. *)
Fixpoint toLowerCase (str : string) : string :=
  match str with
  | EmptyString => EmptyString
  | String c rest => String (lower c) (toLowerCase rest)
  end.

(** [const hyphenate = (str) => str.replace(hyphenateRE, '-$1').toLowerCase()] *)
Definition hyphenate (str : string) : string :=
  toLowerCase (replace_hyphenateRE None str).

(** ** Values and objects *)

Abbreviation loc := nat.

(** The built-in prototype objects the program can reach. *)
Inductive bproto := ObjectProto | FunctionProto | ArrayProto | PromiseProto.

(** Built-in objects: the prototypes and their methods. *)
Inductive builtin :=
| BProto (p : bproto)
| BArrayPush
| BPromiseThen
| BStd (p : bproto) (name : string).

Inductive value :=
| VUndefined
| VNull
| VBool (b : bool)
| VNumber (n : Z)
| VString (s : string)
| VSymbol (n : nat)
| VRef (l : loc)
| VBuiltin (b : builtin)
| VTypeError.

(** Property keys are strings or symbols. *)
Inductive pkey := PStr (s : string) | PSym (n : nat).

Coercion PStr : string >-> pkey.

Definition pkey_eqb (a b : pkey) : bool :=
  match a, b with
  | PStr s, PStr t => String.eqb s t
  | PSym n, PSym m => Nat.eqb n m
  | _, _ => false
  end.

Inductive reaction :=
| Reaction (onFulfilled onRejected : value) (derived : loc).

Inductive pstate :=
| Pending (reactions : list reaction)
| Fulfilled (v : value)
| Rejected (r : value).

(** Function objects: the code and the variables it closes over. *)
Inductive code :=
| CHost (id : nat)
| CProvide (original : value)
| CEmitter (event : value) (key : string) (original : value)
| CEmitThen (event : value) (key : string) (this : value) (args : value)
| CVueEmit
| CResolve (p flag : loc)
| CReject (p flag : loc).

Inductive kind :=
| KObject
| KArray (elems : list value)
| KFunction (c : code)
| KPromise (st : pstate)
| KFlag (b : bool).

Record obj := Obj {
  o_kind : kind;
  o_proto : value;
  o_props : list (pkey * value)
}.

Abbreviation heap := (list obj).

Inductive job :=
| JReaction (handler : value) (derived : loc) (fulfilled : bool) (arg : value)
| JThenable (p : loc) (thenable thenf : value).

(** One call of the instance's [$emit]. *)
Record emission := Emission {
  e_target : value;
  e_name : value;
  e_args : list value
}.

Record world := World {
  w_heap : heap;
  w_jobs : list job;
  w_emitted : list emission
}.

(** ** The monad: state, exceptions, and the ways the model can stop *)

Inductive abort := OutOfFuel | Dangling | Unmodelled.

Inductive result (A : Type) :=
| Ok (a : A)
| Throw (e : value)
| Abort (r : abort).

Arguments Ok {A} a.
Arguments Throw {A} e.
Arguments Abort {A} r.

Definition M (A : Type) : Type := world -> result A * world.

Definition ret {A} (a : A) : M A := fun w => (Ok a, w).

Definition bind {A B} (m : M A) (f : A -> M B) : M B := fun w =>
  match m w with
  | (Ok a, w') => f a w'
  | (Throw e, w') => (Throw e, w')
  | (Abort r, w') => (Abort r, w')
  end.

Definition throw {A} (e : value) : M A := fun w => (Throw e, w).
Definition stop {A} (r : abort) : M A := fun w => (Abort r, w).

Notation "x <- m ;; k" := (bind m (fun x => k))
  (at level 100, m at next level, right associativity).
Notation "m ;;; k" := (bind m (fun _ => k))
  (at level 100, right associativity).

Definition lift {A} (f : heap -> result A) : M A := fun w => (f (w_heap w), w).

Definition set_heap (h : heap) : M unit := fun w =>
  (Ok tt, World h (w_jobs w) (w_emitted w)).

Definition read (l : loc) : M obj := lift (fun h =>
  match h !! l with Some o => Ok o | None => Abort Dangling end).

Definition write (l : loc) (o : obj) : M unit := fun w =>
  set_heap (<[l := o]> (w_heap w)) w.

Definition alloc (o : obj) : M value := fun w =>
  (Ok (VRef (length (w_heap w))), World (w_heap w ++ [o]) (w_jobs w) (w_emitted w)).

(** ** Primitive operations of the language *)

Inductive jstype :=
| TUndefined | TObject | TBoolean | TNumber | TString | TSymbol | TFunction.

Definition typeof_in (h : heap) (v : value) : jstype :=
  match v with
  | VUndefined => TUndefined
  | VNull => TObject
  | VBool _ => TBoolean
  | VNumber _ => TNumber
  | VString _ => TString
  | VSymbol _ => TSymbol
  | VRef l =>
      match h !! l with
      | Some (Obj (KFunction _) _ _) => TFunction
      | _ => TObject
      end
  | VBuiltin (BProto FunctionProto) => TFunction
  | VBuiltin (BProto _) => TObject
  | VBuiltin _ => TFunction
  | VTypeError => TObject
  end.

Definition jstype_eqb (a b : jstype) : bool :=
  match a, b with
  | TUndefined, TUndefined | TObject, TObject | TBoolean, TBoolean
  | TNumber, TNumber | TString, TString | TSymbol, TSymbol
  | TFunction, TFunction => true
  | _, _ => false
  end.

Definition typeof (v : value) : M jstype := lift (fun h => Ok (typeof_in h v)).

Definition truthy (v : value) : bool :=
  match v with
  | VUndefined | VNull => false
  | VBool b => b
  | VNumber n => negb (n =? 0)%Z
  | VString s => negb (String.eqb s "")
  | _ => true
  end.

(** [a || b] on values that are already evaluated. *)
Definition or_else (a b : value) : value := if truthy a then a else b.

(** [Array.isArray] *)
Definition is_array_in (h : heap) (v : value) : bool :=
  match v with
  | VRef l => match h !! l with Some (Obj (KArray _) _ _) => true | _ => false end
  | VBuiltin (BProto ArrayProto) => true
  | _ => false
  end.

Definition isArray (v : value) : M bool := lift (fun h => Ok (is_array_in h v)).

(** A value used as a property key.  Strings and symbols are keys as they
    are; the other primitives are converted to strings. *)
Definition to_key (v : value) : M pkey :=
  match v with
  | VString s => ret (PStr s)
  | VSymbol n => ret (PSym n)
  | VUndefined => ret (PStr "undefined")
  | VNull => ret (PStr "null")
  | VBool true => ret (PStr "true")
  | VBool false => ret (PStr "false")
  | _ => stop Unmodelled
  end.

(** *** Own properties *)

Definition prop_lookup (k : pkey) (ps : list (pkey * value)) : option value :=
  match List.find (fun p => pkey_eqb k (fst p)) ps with
  | Some p => Some (snd p)
  | None => None
  end.

(** In place when the key is there (the position is kept), at the end
    otherwise: property order is insertion order. *)
Fixpoint prop_update (k : pkey) (v : value) (ps : list (pkey * value))
  : list (pkey * value) :=
  match ps with
  | [] => [(k, v)]
  | (k', v') :: rest =>
      if pkey_eqb k k' then (k, v) :: rest else (k', v') :: prop_update k v rest
  end.

Fixpoint digits_value (acc : N) (s : string) : option N :=
  match s with
  | EmptyString => Some acc
  | String c rest =>
      if is_digit c
      then digits_value (acc * 10 + (N_of_ascii c - 48))%N rest
      else None
  end.

(** The canonical array indices: decimal, no leading zero, below 2^32 - 1. *)
Definition index_of_string (s : string) : option nat :=
  match s with
  | EmptyString => None
  | String "0" EmptyString => Some 0%nat
  | String "0" _ => None
  | _ =>
      match digits_value 0 s with
      | Some n => if (n <? 4294967295)%N then Some (N.to_nat n) else None
      | None => None
      end
  end.

Definition index_of_key (k : pkey) : option nat :=
  match k with PStr s => index_of_string s | PSym _ => None end.

(** Own properties a function object has natively and the model does not
    store. *)
Definition function_own_names : list string :=
  ["length"; "name"; "prototype"; "caller"; "arguments"].

Definition key_in (k : pkey) (names : list string) : bool :=
  match k with
  | PStr s => existsb (String.eqb s) names
  | PSym _ => false
  end.

Definition own_get (o : obj) (k : pkey) : result (option value) :=
  match prop_lookup k (o_props o) with
  | Some v => Ok (Some v)
  | None =>
      match o_kind o with
      | KArray elems =>
          if pkey_eqb k "length" then Ok (Some (VNumber (Z.of_nat (length elems))))
          else match index_of_key k with
               | Some i => Ok (elems !! i)
               | None => Ok None
               end
      | KFunction _ =>
          if key_in k function_own_names then Abort Unmodelled else Ok None
      | _ => Ok None
      end
  end.

(** *** The built-in prototypes *)

Definition object_proto_members : list string :=
  ["constructor"; "hasOwnProperty"; "isPrototypeOf"; "propertyIsEnumerable";
   "toLocaleString"; "toString"; "valueOf"; "__defineGetter__";
   "__defineSetter__"; "__lookupGetter__"; "__lookupSetter__"].

Definition function_proto_members : list string :=
  ["apply"; "bind"; "call"; "constructor"; "toString"].

Definition array_proto_members : list string :=
  ["concat"; "constructor"; "copyWithin"; "entries"; "every"; "fill";
   "filter"; "find"; "findIndex"; "flat"; "flatMap"; "forEach"; "includes";
   "indexOf"; "join"; "keys"; "lastIndexOf"; "map"; "pop"; "push"; "reduce";
   "reduceRight"; "reverse"; "shift"; "slice"; "some"; "sort"; "splice";
   "toLocaleString"; "toString"; "unshift"; "values"].

Definition promise_proto_members : list string :=
  ["catch"; "constructor"; "finally"; "then"].

Definition members_of (p : bproto) : list string :=
  match p with
  | ObjectProto => object_proto_members
  | FunctionProto => function_proto_members
  | ArrayProto => array_proto_members
  | PromiseProto => promise_proto_members
  end.

Definition std_member (p : bproto) (name : string) : value :=
  match p with
  | ArrayProto => if String.eqb name "push" then VBuiltin BArrayPush
                  else VBuiltin (BStd p name)
  | PromiseProto => if String.eqb name "then" then VBuiltin BPromiseThen
                    else VBuiltin (BStd p name)
  | _ => VBuiltin (BStd p name)
  end.

Definition builtin_own (b : builtin) (k : pkey) : result (option value) :=
  match b with
  | BProto p =>
      match k with
      | PStr s =>
          if existsb (String.eqb s) (members_of p) then Ok (Some (std_member p s))
          else match p with
               | ObjectProto | PromiseProto => Ok None
               | _ => if key_in k function_own_names then Abort Unmodelled
                      else Ok None
               end
      | PSym _ => Ok None
      end
  | _ => if key_in k function_own_names then Abort Unmodelled else Ok None
  end.

Definition builtin_proto (b : builtin) : value :=
  match b with
  | BProto ObjectProto => VNull
  | BProto _ => VBuiltin (BProto ObjectProto)
  | _ => VBuiltin (BProto FunctionProto)
  end.

(** What a lookup along a prototype chain ends in. *)
Inductive slot :=
| Data (v : value)
| ProtoAccessor
| Missing.

Definition object_proto_slot (k : pkey) : result slot :=
  match builtin_own (BProto ObjectProto) k with
  | Ok (Some v) => Ok (Data v)
  | Ok None => if pkey_eqb k "__proto__" then Ok ProtoAccessor else Ok Missing
  | Throw e => Throw e
  | Abort r => Abort r
  end.

Definition builtin_slot (b : builtin) (k : pkey) : result slot :=
  let via (p : bproto) (next : result slot) : result slot :=
    match builtin_own (BProto p) k with
    | Ok (Some v) => Ok (Data v)
    | Ok None => next
    | Throw e => Throw e
    | Abort r => Abort r
    end in
  match b with
  | BProto ObjectProto => object_proto_slot k
  | BProto p => via p (object_proto_slot k)
  | _ =>
      match builtin_own b k with
      | Ok (Some v) => Ok (Data v)
      | Ok None => via FunctionProto (object_proto_slot k)
      | Throw e => Throw e
      | Abort r => Abort r
      end
  end.

(** Lookup of [k] from object [o] upwards. *)
Fixpoint find_slot (fuel : nat) (h : heap) (o : value) (k : pkey) : result slot :=
  match o with
  | VRef l =>
      match h !! l with
      | None => Abort Dangling
      | Some ob =>
          match own_get ob k with
          | Ok (Some v) => Ok (Data v)
          | Ok None =>
              match fuel with
              | O => Abort OutOfFuel
              | S n => find_slot n h (o_proto ob) k
              end
          | Throw e => Throw e
          | Abort r => Abort r
          end
      end
  | VBuiltin b => builtin_slot b k
  | _ => Ok Missing
  end.

Definition proto_of (h : heap) (o : value) : value :=
  match o with
  | VRef l => match h !! l with Some ob => o_proto ob | None => VNull end
  | VBuiltin b => builtin_proto b
  | _ => VNull
  end.

(** Members no primitive wrapper and no error object has. *)
Definition absent_on_primitives : list string := ["then"; "push"; "managed"].

(** [o[k]] as an expression. *)
Definition get_in (h : heap) (o : value) (k : pkey) : result value :=
  match o with
  | VUndefined | VNull => Throw VTypeError
  | VRef _ | VBuiltin _ =>
      match find_slot (length h) h o k with
      | Ok (Data v) => Ok v
      | Ok ProtoAccessor => Ok (proto_of h o)
      | Ok Missing => Ok VUndefined
      | Throw e => Throw e
      | Abort r => Abort r
      end
  | _ => if key_in k absent_on_primitives then Ok VUndefined else Abort Unmodelled
  end.

Definition get_member (o : value) (k : pkey) : M value := lift (fun h => get_in h o k).

(** Does the chain that starts at [v] pass through location [l]? *)
Fixpoint chain_has (fuel : nat) (h : heap) (v : value) (l : loc) : result bool :=
  match v with
  | VRef l' =>
      if Nat.eqb l' l then Ok true
      else match h !! l' with
           | None => Abort Dangling
           | Some ob =>
               match fuel with
               | O => Abort OutOfFuel
               | S n => chain_has n h (o_proto ob) l
               end
           end
  | _ => Ok false
  end.

(** The setter of [__proto__]: objects and null replace the prototype (a
    cycle is refused), anything else is ignored. *)
Definition set_prototype (l : loc) (ob : obj) (v : value) : M unit :=
  match v with
  | VRef _ | VNull | VBuiltin _ =>
      cyc <- lift (fun h => chain_has (length h) h v l) ;;
      if cyc then throw VTypeError
      else write l (Obj (o_kind ob) v (o_props ob))
  | VTypeError => stop Unmodelled
  | _ => ret tt
  end.

Definition own_set (l : loc) (ob : obj) (k : pkey) (v : value) : M unit :=
  let plain := write l (Obj (o_kind ob) (o_proto ob) (prop_update k v (o_props ob))) in
  match o_kind ob with
  | KArray elems =>
      if pkey_eqb k "length" then stop Unmodelled
      else match index_of_key k with
           | Some i =>
               if (i <? length elems)%nat
               then write l (Obj (KArray (<[i := v]> elems)) (o_proto ob) (o_props ob))
               else if (i =? length elems)%nat
               then write l (Obj (KArray (elems ++ [v])) (o_proto ob) (o_props ob))
               else stop Unmodelled
           | None => plain
           end
  | KFunction _ => if key_in k function_own_names then stop Unmodelled else plain
  | KFlag _ => stop Unmodelled
  | _ => plain
  end.

(** [o[k] = v] in strict mode.  On a boolean, a number, a string or a
    symbol no property can be created, and the write throws; the one key
    that is found with a setter is [__proto__], and the setter of
    [Object.prototype] returns without doing anything when the receiver is
    no object. *)
Definition set_member (o : value) (k : pkey) (v : value) : M unit :=
  match o with
  | VUndefined | VNull => throw VTypeError
  | VRef l =>
      ob <- read l ;;
      s <- lift (fun h => find_slot (length h) h o k) ;;
      match s with
      | ProtoAccessor => set_prototype l ob v
      | _ => own_set l ob k v
      end
  | VBuiltin _ | VTypeError => stop Unmodelled
  | _ => if pkey_eqb k "__proto__" then ret tt else throw VTypeError
  end.

(** *** Allocation *)

(** [{}] *)
Definition new_object : M value :=
  alloc (Obj KObject (VBuiltin (BProto ObjectProto)) []).

(** [{ k1: v1, ... }] *)
Definition object_literal (ps : list (pkey * value)) : M value :=
  alloc (Obj KObject (VBuiltin (BProto ObjectProto)) ps).

(** [[v1, ...]] *)
Definition new_array (elems : list value) : M value :=
  alloc (Obj (KArray elems) (VBuiltin (BProto ArrayProto)) []).

Definition new_function (c : code) : M value :=
  alloc (Obj (KFunction c) (VBuiltin (BProto FunctionProto)) []).

(** [Object.create(proto)] *)
Definition Object_create (proto : value) : M value :=
  match proto with
  | VRef _ | VNull | VBuiltin _ => alloc (Obj KObject proto [])
  | VTypeError => stop Unmodelled
  | _ => throw VTypeError
  end.

(** *** Enumeration: [for (let i in o)] *)

Definition string_keys (ps : list (pkey * value)) : list string :=
  omap (fun p => match fst p with PStr s => Some s | PSym _ => None end) ps.

Fixpoint insert_index (i : nat) (s : string) (l : list (nat * string))
  : list (nat * string) :=
  match l with
  | [] => [(i, s)]
  | (j, t) :: rest =>
      if (i <=? j)%nat then (i, s) :: l else (j, t) :: insert_index i s rest
  end.

(** Integer keys first, ascending, then the other string keys in insertion
    order; symbols are not enumerated. *)
Definition enum_order (names : list string) : list string :=
  let indexed := omap (fun s => match index_of_string s with
                                | Some i => Some (i, s)
                                | None => None
                                end) names in
  let others := List.filter (fun s => match index_of_string s with
                                      | Some _ => false
                                      | None => true
                                      end) names in
  map snd (fold_right (fun p acc => insert_index (fst p) (snd p) acc) [] indexed)
  ++ others.

Definition own_enum_keys (o : obj) : result (list string) :=
  match o_kind o with
  | KArray _ => Abort Unmodelled
  | _ => Ok (enum_order (string_keys (o_props o)))
  end.

Definition unseen (seen : list string) (s : string) : bool :=
  negb (existsb (String.eqb s) seen).

Fixpoint for_in_from (fuel : nat) (h : heap) (o : value) (seen : list string)
  : result (list string) :=
  match o with
  | VRef l =>
      match h !! l with
      | None => Abort Dangling
      | Some ob =>
          match own_enum_keys ob with
          | Ok ks =>
              match fuel with
              | O => Abort OutOfFuel
              | S n =>
                  match for_in_from n h (o_proto ob) (seen ++ ks) with
                  | Ok rest => Ok (List.filter (unseen seen) ks ++ rest)
                  | Throw e => Throw e
                  | Abort r => Abort r
                  end
              end
          | Throw e => Throw e
          | Abort r => Abort r
          end
      end
  | _ => Ok []
  end.

Definition for_in_keys (o : value) : M (list string) := lift (fun h =>
  match o with
  | VUndefined | VNull => Ok []
  | VRef _ | VBuiltin _ => for_in_from (length h) h o []
  | _ => Abort Unmodelled
  end).

Fixpoint for_each {A} (l : list A) (body : A -> M unit) : M unit :=
  match l with
  | [] => ret tt
  | x :: rest => body x ;;; for_each rest body
  end.

(** *** Arrays *)

Definition array_elements (a : value) : M (list value) :=
  match a with
  | VRef l =>
      ob <- read l ;;
      match o_kind ob with
      | KArray elems => ret elems
      | _ => stop Unmodelled
      end
  | _ => stop Unmodelled
  end.

(** [Array.prototype.push] on an array. *)
Definition array_push (a : value) (vs : list value) : M value :=
  match a with
  | VRef l =>
      ob <- read l ;;
      match o_kind ob with
      | KArray elems =>
          write l (Obj (KArray (elems ++ vs)) (o_proto ob) (o_props ob)) ;;;
          ret (VNumber (Z.of_nat (length (elems ++ vs))))
      | _ => stop Unmodelled
      end
  | VUndefined | VNull => throw VTypeError
  | _ => stop Unmodelled
  end.

(** [args.unshift(v)] on the array of a rest parameter. *)
Definition array_unshift (a : value) (v : value) : M unit :=
  match a with
  | VRef l =>
      ob <- read l ;;
      match o_kind ob with
      | KArray elems => write l (Obj (KArray (v :: elems)) (o_proto ob) (o_props ob))
      | _ => stop Unmodelled
      end
  | _ => stop Unmodelled
  end.

(** [obj instanceof Promise]: is [Promise.prototype] on the prototype chain? *)
Fixpoint chain_has_promise_proto (fuel : nat) (h : heap) (v : value) : result bool :=
  match v with
  | VBuiltin (BProto PromiseProto) => Ok true
  | VRef l =>
      match h !! l with
      | None => Abort Dangling
      | Some ob =>
          match fuel with
          | O => Abort OutOfFuel
          | S n => chain_has_promise_proto n h (o_proto ob)
          end
      end
  | _ => Ok false
  end.

Definition instanceof_Promise (obj : value) : M bool := lift (fun h =>
  match obj with
  | VRef _ | VBuiltin _ => chain_has_promise_proto (length h) h (proto_of h obj)
  | _ => Ok false
  end).

(** *** Promises and the job queue *)

Definition enqueue (js : list job) : M unit := fun w =>
  (Ok tt, World (w_heap w) (w_jobs w ++ js) (w_emitted w)).

Definition reaction_job (fulfilled : bool) (arg : value) (r : reaction) : job :=
  match r with
  | Reaction f g d => JReaction (if fulfilled then f else g) d fulfilled arg
  end.

(** Settling a pending promise queues one job per registered reaction. *)
Definition settle (p : loc) (fulfilled : bool) (v : value) : M unit :=
  ob <- read p ;;
  match o_kind ob with
  | KPromise (Pending rs) =>
      write p (Obj (KPromise (if fulfilled then Fulfilled v else Rejected v))
                   (o_proto ob) (o_props ob)) ;;;
      enqueue (map (reaction_job fulfilled v) rs)
  | KPromise _ => ret tt
  | _ => stop Unmodelled
  end.

Definition fulfill_promise (p : loc) (v : value) : M unit := settle p true v.
Definition reject_promise (p : loc) (r : value) : M unit := settle p false r.

Definition is_function (v : value) : M bool :=
  t <- typeof v ;; ret (jstype_eqb t TFunction).

(** Resolving with a thenable defers to its [then]. *)
Definition resolve_promise (p : loc) (x : value) : M unit :=
  match x with
  | VRef _ | VBuiltin _ =>
      if (match x with VRef l => Nat.eqb l p | _ => false end)
      then reject_promise p VTypeError
      else
        thenf <- get_member x "then" ;;
        callable <- is_function thenf ;;
        if callable then enqueue [JThenable p x thenf] else fulfill_promise p x
  | _ => fulfill_promise p x
  end.

(** [Promise.prototype.then] *)
Definition promise_then (this : value) (args : list value) : M value :=
  match this with
  | VRef p =>
      ob <- read p ;;
      match o_kind ob with
      | KPromise st =>
          let onFulfilled := nth 0 args VUndefined in
          let onRejected := nth 1 args VUndefined in
          fun w =>
            let d := length (w_heap w) in
            let r := Reaction onFulfilled onRejected d in
            (alloc (Obj (KPromise (Pending [])) (VBuiltin (BProto PromiseProto)) []) ;;;
             match st with
             | Pending rs =>
                 write p (Obj (KPromise (Pending (rs ++ [r]))) (o_proto ob) (o_props ob))
             | Fulfilled v => enqueue [reaction_job true v r]
             | Rejected e => enqueue [reaction_job false e r]
             end ;;;
             ret (VRef d)) w
      | _ => throw VTypeError
      end
  | _ => throw VTypeError
  end.

(** ** The host: vue-class-component and Vue *)

(** A call [f.call(this, ...args)]. *)
Definition callT : Type := value -> value -> list value -> M value.

(** What [createDecorator] of vue-class-component hands back: the callback,
    to be run by the component factory with the options object of the class
    and the name of the decorated member. *)
Definition decorator : Type := value -> value -> M unit.

Definition createDecorator (factory : value -> value -> M unit) : decorator :=
  factory.

(** [vm.$emit(name, ...args)] of Vue, reduced to its trace; it returns the
    instance. *)
Definition vue_emit (this : value) (args : list value) : M value := fun w =>
  (Ok this,
   World (w_heap w) (w_jobs w)
         (w_emitted w ++ [Emission this (nth 0 args VUndefined) (tl args)])).

Definition set_member_at (o : value) (key : value) (v : value) : M unit :=
  k <- to_key key ;; set_member o k v.

(** ** The decorators of src/vue-property-decorator.ts *)

(** [Inject(options)], lines 24-37. *)
Definition Inject (options : value) : decorator :=
  createDecorator (fun componentOptions key =>
    inject <- get_member componentOptions "inject" ;;
    t <- typeof inject ;;
    (if jstype_eqb t TUndefined
     then (o <- new_object ;; set_member componentOptions "inject" o)
     else ret tt) ;;;
    inject <- get_member componentOptions "inject" ;;
    arr <- isArray inject ;;
    if negb arr
    then (inject <- get_member componentOptions "inject" ;;
          set_member_at inject key (or_else options key))
    else ret tt).

(** [Provide(key)], lines 45-63.  The function it installs is [CProvide
    original]; its body is [provide_function] below. *)
Definition Provide (key : value) : decorator :=
  createDecorator (fun componentOptions k =>
    provide <- get_member componentOptions "provide" ;;
    fn <- is_function provide ;;
    managed <- (if fn then get_member provide "managed" else ret VUndefined) ;;
    provide <- (if negb fn || negb (truthy managed)
                then
                  original <- get_member componentOptions "provide" ;;
                  f <- new_function (CProvide original) ;;
                  set_member componentOptions "provide" f ;;;
                  m <- new_object ;;
                  set_member f "managed" m ;;;
                  ret f
                else ret provide) ;;
    managed <- get_member provide "managed" ;;
    set_member_at managed k (or_else key k)).

(** The body of the function installed by [Provide], lines 53-57;
    [provide] is the function object itself, which the body reads
    [managed] from. *)
Definition provide_function (call : callT) (provide original this : value)
  : M value :=
  fn <- is_function original ;;
  base <- (if fn then call original this [] else ret original) ;;
  rv <- Object_create (or_else base VNull) ;;
  managed <- get_member provide "managed" ;;
  keys <- for_in_keys managed ;;
  for_each keys (fun i =>
    managed <- get_member provide "managed" ;;
    target <- get_member managed (PStr i) ;;
    v <- get_member this (PStr i) ;;
    set_member_at rv target v) ;;;
  ret rv.

(** [componentOptions.props || (componentOptions.props = {})] *)
Definition props_of (componentOptions : value) : M value :=
  props <- get_member componentOptions "props" ;;
  if truthy props then ret props
  else (o <- new_object ;; set_member componentOptions "props" o ;;; ret o).

(** A parameter with the default [= {}]. *)
Definition default_object (v : value) : M value :=
  match v with VUndefined => new_object | _ => ret v end.

(** [Model(event, options = {})], lines 73-81. *)
Definition Model (event : value) (options : value) : M decorator :=
  options <- default_object options ;;
  ret (createDecorator (fun componentOptions k =>
    props <- props_of componentOptions ;;
    set_member_at props k options ;;;
    m <- object_literal [(PStr "prop", k); (PStr "event", or_else event k)] ;;
    set_member componentOptions "model" m)).

(** [Prop(options = {})], lines 89-95 ([Prop] itself is a reserved word
    here). *)
Definition Prop_ (options : value) : M decorator :=
  options <- default_object options ;;
  ret (createDecorator (fun componentOptions k =>
    props <- props_of componentOptions ;;
    set_member_at props k options)).

(** A destructured member with the default [= false]. *)
Definition default_false (v : value) : value :=
  match v with VUndefined => VBool false | _ => v end.

(** The callback [Watch] hands to [createDecorator], lines 107-122, with
    the [deep] and [immediate] it closes over.  It receives the name of the
    decorated method as [handler]. *)
Definition Watch_callback (call : callT) (path : string) (deep immediate : value)
  : decorator :=
  createDecorator (fun componentOptions handler =>
    w0 <- get_member componentOptions "watch" ;;
    t <- typeof w0 ;;
    (if negb (jstype_eqb t TObject)
     then (o <- Object_create VNull ;; set_member componentOptions "watch" o)
     else ret tt) ;;;
    watch <- get_member componentOptions "watch" ;;
    entry <- get_member watch (PStr path) ;;
    te <- typeof entry ;;
    arr <- isArray entry ;;
    (if jstype_eqb te TObject && negb arr
     then (entry <- get_member watch (PStr path) ;;
           a <- new_array [entry] ;;
           set_member watch (PStr path) a)
     else if jstype_eqb te TUndefined
     then (a <- new_array [] ;; set_member watch (PStr path) a)
     else ret tt) ;;;
    entry <- get_member watch (PStr path) ;;
    push <- get_member entry "push" ;;
    d <- object_literal [(PStr "handler", handler); (PStr "deep", deep);
                         (PStr "immediate", immediate)] ;;
    call push entry [d] ;;;
    ret tt).

(** [Watch(path, options = {})], lines 104-123. *)
Definition Watch (call : callT) (path : string) (options : value) : M decorator :=
  options <- default_object options ;;
  deep <- get_member options "deep" ;;
  immediate <- get_member options "immediate" ;;
  ret (Watch_callback call path (default_false deep) (default_false immediate)).

(** [isPromise(obj)], lines 165-167, with the value it returns: [||] and
    [&&] hand back one of their operands, so an operand that is falsy (and
    no promise) is returned itself. *)
Definition isPromise_value (obj : value) : M value :=
  inst <- instanceof_Promise obj ;;
  if inst then ret (VBool true)
  else if truthy obj
  then (thenf <- get_member obj "then" ;;
        fn <- is_function thenf ;;
        ret (VBool fn))
  else ret obj.

(** [isPromise(obj)], lines 165-167, as the condition of an [if]. *)
Definition isPromise (obj : value) : M bool :=
  inst <- instanceof_Promise obj ;;
  if inst then ret true
  else if truthy obj
  then (thenf <- get_member obj "then" ;; is_function thenf)
  else ret false.

(** The arrow function [emit] of lines 142-146; [args] is the array of the
    rest parameter of [emitter], which the closure shares. *)
Definition emit (call : callT) (event : value) (key : string)
    (this args returnValue : value) : M unit :=
  (match returnValue with
   | VUndefined => ret tt
   | _ => array_unshift args returnValue
   end) ;;;
  f <- get_member this "$emit" ;;
  argv <- array_elements args ;;
  call f this (or_else event (VString key) :: argv) ;;;
  ret tt.

(** [function emitter(...args)], lines 141-160.  It has no [return]. *)
Definition emitter (call : callT) (event : value) (key : string)
    (original this : value) (arguments : list value) : M value :=
  args <- new_array arguments ;;
  argv <- array_elements args ;;
  returnValue <- call original this argv ;;
  promise <- isPromise returnValue ;;
  (if promise
   then
     thenf <- get_member returnValue "then" ;;
     cb <- new_function (CEmitThen event key this args) ;;
     call thenf returnValue [cb] ;;;
     ret tt
   else emit call event key this args returnValue) ;;;
  ret VUndefined.

(** [Emit(event)], lines 136-162: a method decorator, applied to the
    property descriptor of the method. *)
Definition Emit (event : value) (_target : value) (key : string)
    (descriptor : value) : M unit :=
  let key := hyphenate key in
  original <- get_member descriptor "value" ;;
  f <- new_function (CEmitter event key original) ;;
  set_member descriptor "value" f.

(** ** Calls *)

Section Interpreter.

(** The functions of the application and of the framework ([CHost id]):
    any state transformer, which may call back. *)
Variable host : nat -> callT -> value -> list value -> M value.

Definition resolving_function (fulfilled : bool) (p flag : loc) (x : value)
  : M value :=
  f <- read flag ;;
  match o_kind f with
  | KFlag true => ret VUndefined
  | KFlag false =>
      write flag (Obj (KFlag true) VNull []) ;;;
      (if fulfilled then resolve_promise p x else reject_promise p x) ;;;
      ret VUndefined
  | _ => stop Unmodelled
  end.

Definition run_code (call : callT) (self : loc) (c : code)
    (this : value) (args : list value) : M value :=
  match c with
  | CHost id => host id call this args
  | CProvide original => provide_function call (VRef self) original this
  | CEmitter event key original => emitter call event key original this args
  | CEmitThen event key this' args' =>
      emit call event key this' args' (nth 0 args VUndefined) ;;;
      ret VUndefined
  | CVueEmit => vue_emit this args
  | CResolve p flag => resolving_function true p flag (nth 0 args VUndefined)
  | CReject p flag => resolving_function false p flag (nth 0 args VUndefined)
  end.

Definition run_builtin (b : builtin) (this : value) (args : list value)
  : M value :=
  match b with
  | BArrayPush => array_push this args
  | BPromiseThen => promise_then this args
  | BStd _ _ => stop Unmodelled
  | BProto FunctionProto => ret VUndefined
  | BProto _ => throw VTypeError
  end.

Fixpoint call (fuel : nat) (f this : value) (args : list value) : M value :=
  match fuel with
  | O => stop OutOfFuel
  | S n =>
      match f with
      | VRef l =>
          ob <- read l ;;
          match o_kind ob with
          | KFunction c => run_code (call n) l c this args
          | _ => throw VTypeError
          end
      | VBuiltin b =>
          if jstype_eqb (typeof_in [] f) TFunction
          then run_builtin b this args
          else throw VTypeError
      | _ => throw VTypeError
      end
  end.

(** One job of the queue. *)
Definition run_job (call : callT) (j : job) : M unit :=
  match j with
  | JReaction handler d fulfilled arg =>
      callable <- is_function handler ;;
      if callable
      then fun w =>
             match call handler VUndefined [arg] w with
             | (Ok r, w') => resolve_promise d r w'
             | (Throw e, w') => reject_promise d e w'
             | (Abort a, w') => (Abort a, w')
             end
      else if fulfilled then resolve_promise d arg else reject_promise d arg
  | JThenable p x thenf =>
      fun w =>
        let flag := length (w_heap w) in
        (alloc (Obj (KFlag false) VNull []) ;;;
         res <- new_function (CResolve p flag) ;;
         rej <- new_function (CReject p flag) ;;
         fun w1 =>
           match call thenf x [res; rej] w1 with
           | (Ok _, w') => (Ok tt, w')
           | (Throw e, w') =>
               (resolving_function false p flag e ;;; ret tt) w'
           | (Abort a, w') => (Abort a, w')
           end) w
  end.

(** The queue is drained first in, first out. *)
Fixpoint run_jobs (fuel : nat) : M unit := fun w =>
  match w_jobs w with
  | [] => (Ok tt, w)
  | j :: rest =>
      match fuel with
      | O => (Abort OutOfFuel, w)
      | S n =>
          (run_job (call n) j ;;; run_jobs n)
            (World (w_heap w) rest (w_emitted w))
      end
  end.

End Interpreter.

(** ** Vocabulary of the statements *)

(** The prototypes of the objects the decorators are given: an object
    literal has [Object.prototype], [Object.create(null)] has none. *)
Definition plain (proto : value) : Prop :=
  proto = VNull \/ proto = VBuiltin (BProto ObjectProto).

(** Keys that reach no accessor from an object with prototype [proto]. *)
Definition ordinary (proto : value) (k : pkey) : Prop :=
  proto = VNull \/ k <> PStr "__proto__".

(** The names a class member can have: every key but [__proto__], which on
    an object literal is the accessor of [Object.prototype] and not a
    property of its own. *)
Definition member_key (k : pkey) : Prop := k <> PStr "__proto__".

(** The value that names a key. *)
Definition key_value (k : pkey) : value :=
  match k with PStr s => VString s | PSym n => VSymbol n end.

(** The lookup of [k] in a plain object with properties [ps]. *)
Definition plain_slot (proto : value) (ps : list (pkey * value)) (k : pkey)
  : result slot :=
  match prop_lookup k ps with
  | Some v => Ok (Data v)
  | None =>
      match proto with
      | VBuiltin b => builtin_slot b k
      | _ => Ok Missing
      end
  end.

Definition with_heap (w : world) (h : heap) : world :=
  World h (w_jobs w) (w_emitted w).

Definition empty_object : obj := Obj KObject (VBuiltin (BProto ObjectProto)) [].

(** An object literal with the given properties. *)
Definition record (ps : list (pkey * value)) : obj :=
  Obj KObject (VBuiltin (BProto ObjectProto)) ps.

(** An array with the given elements. *)
Definition array (elems : list value) : obj :=
  Obj (KArray elems) (VBuiltin (BProto ArrayProto)) [].

(** A function object just created. *)
Definition function (c : code) : obj :=
  Obj (KFunction c) (VBuiltin (BProto FunctionProto)) [].

(** The prototype chain that starts at [v] ends (in [null] or in a
    built-in prototype) within [fuel] steps, through allocated objects. *)
Fixpoint chain_ends (fuel : nat) (h : heap) (v : value) : bool :=
  match v with
  | VRef l =>
      match h !! l with
      | None => false
      | Some ob =>
          match fuel with
          | O => false
          | S n => chain_ends n h (o_proto ob)
          end
      end
  | _ => true
  end.

(** [h'] has every object of [h], with the same prototype, the same kind
    of callability and the same own property [k]. *)
Definition similar (k : pkey) (h h' : heap) : Prop :=
  forall l ob, h !! l = Some ob ->
    exists ob', h' !! l = Some ob'
      /\ own_get ob' k = own_get ob k
      /\ o_proto ob' = o_proto ob.

(** The conversion the specification describes for default event names:
    the leading character is kept, every later upper-case letter becomes a
    hyphen and its lower-case form. *)
Fixpoint hyphen_each_upper (s : string) : string :=
  match s with
  | EmptyString => EmptyString
  | String c rest =>
      if is_upper c then String "-" (String (lower c) (hyphen_each_upper rest))
      else String c (hyphen_each_upper rest)
  end.

Definition camel_to_hyphen (name : string) : string :=
  match name with
  | EmptyString => EmptyString
  | String c rest => String c (hyphen_each_upper rest)
  end.

(** What the code does instead, in the words of the amended statement: the
    leading character is lower-cased and gets no hyphen; every later
    character is lower-cased, after a hyphen when it is an upper-case
    letter that follows a word character. *)
Fixpoint hyphen_after_word (prev : ascii) (s : string) : string :=
  match s with
  | EmptyString => EmptyString
  | String c rest =>
      if is_word prev && is_upper c
      then String "-" (String (lower c) (hyphen_after_word c rest))
      else String (lower c) (hyphen_after_word c rest)
  end.

Definition lower_hyphen_case (name : string) : string :=
  match name with
  | EmptyString => EmptyString
  | String c rest => String (lower c) (hyphen_after_word c rest)
  end.

Fixpoint all_chars (p : ascii -> bool) (s : string) : bool :=
  match s with
  | EmptyString => true
  | String c rest => p c && all_chars p rest
  end.

(** The event name [emit] passes to [$emit]: [event || key], with [key]
    the hyphenated method name. *)
Definition event_name (event : value) (method : string) : value :=
  or_else event (VString (hyphenate method)).

(** The [provide] value of a class is not yet the function installed by
    the [Provide] decorator: it is not a function, or carries no
    [managed]. *)
Definition unmanaged (h : heap) (orig : value) : Prop :=
  typeof_in h orig <> TFunction
  \/ exists m, get_in h orig "managed" = Ok m /\ truthy m = false.

(** What [Object.create] accepts as a prototype. *)
Definition object_or_null (v : value) : Prop :=
  match v with
  | VRef _ | VNull | VBuiltin _ => True
  | _ => False
  end.

(** The arguments [emit] passes after the event name: the return value,
    unless it is [undefined], then the arguments of the call. *)
Definition emitted_args (returnValue : value) (arguments : list value)
  : list value :=
  match returnValue with
  | VUndefined => arguments
  | _ => returnValue :: arguments
  end.

(** A native promise in state [st]. *)
Definition promise (st : pstate) : obj :=
  Obj (KPromise st) (VBuiltin (BProto PromiseProto)) [].

(** ** Worlds the statements speak of *)

(** The options object of a class that declares no props, after a first
    [Prop] on member [k]. *)
Definition after_first_prop (w : world) (lc : loc) (proto : value)
    (ps : list (pkey * value)) (k : pkey) (o : value) : world :=
  let lp := length (w_heap w) in
  with_heap w
    (<[lp := record [(k, o)]]>
       (<[lc := Obj KObject proto (ps ++ [(PStr "props", VRef lp)])]>
          (w_heap w ++ [empty_object]))).

(** A class with no options yet and two option records. *)
Definition demo_class : world :=
  World [empty_object;
         record [(PStr "type", VString "String")];
         record [(PStr "required", VBool true)]] [] [].

(** A class whose options already carry an [inject] mapping, and the
    record [{from: 'bar', default: 0}]. *)
Definition demo_inject_mapping : world :=
  World [record [(PStr "inject", VRef 1)];
         record [(PStr "foo", VString "foo")];
         record [(PStr "from", VString "bar"); (PStr "default", VNumber 0)]] [] [].

(** A class whose [inject] was merged into an array. *)
Definition demo_inject_array : world :=
  World [record [(PStr "inject", VRef 1)]; array [VString "foo"]] [] [].

(** The descriptor [{ handler, deep, immediate }]. *)
Definition descriptor (handler deep immediate : value) : obj :=
  record [(PStr "handler", handler); (PStr "deep", deep);
          (PStr "immediate", immediate)].

(** The store after the first [Watch] of a class that has no [watch]
    yet: the prototype-less mapping, the array and the descriptor are
    new. *)
Definition after_first_watch (w : world) (lc : loc) (proto : value)
    (ps : list (pkey * value)) (path : string) (handler deep immediate : value)
  : world :=
  let lw := length (w_heap w) in
  with_heap w
    (<[S lw := array [VRef (S (S lw))]]>
       (<[lw := Obj KObject VNull [(PStr path, VRef (S lw))]]>
          (<[lc := Obj KObject proto (ps ++ [(PStr "watch", VRef lw)])]>
             (w_heap w ++ [Obj KObject VNull []])
           ++ [array []])
        ++ [descriptor handler deep immediate])).

(** The store after a [Watch] on a path whose entry in an existing
    mapping is absent ([init] empty) or a single object ([init] holds
    it): the array and the descriptor are new. *)
Definition after_watch_entry (w : world) (lw : loc) (proto : value)
    (pw : list (pkey * value)) (path : string) (init : list value)
    (handler deep immediate : value) : world :=
  let la := length (w_heap w) in
  with_heap w
    (<[la := array (init ++ [VRef (S la)])]>
       (<[lw := Obj KObject proto (prop_update (PStr path) (VRef la) pw)]>
          (w_heap w ++ [array init])
        ++ [descriptor handler deep immediate])).

(** What [Watch] is given as options: nothing, or an object literal. *)
Definition watch_options_given (h : heap) (options : value) : Prop :=
  options = VUndefined
  \/ exists lo po, options = VRef lo /\ h !! lo = Some (record po).

(** The member [k] of those options as the descriptor gets it: the value
    the options hold, [false] when they hold none or [undefined], and
    [false] when there are no options. *)
Definition watch_option (h : heap) (options : value) (k : string) : value :=
  match options with
  | VRef lo =>
      match h !! lo with
      | Some ob =>
          match prop_lookup (PStr k) (o_props ob) with
          | Some VUndefined | None => VBool false
          | Some v => v
          end
      | None => VBool false
      end
  | _ => VBool false
  end.

(** What a first [Watch] on the path leaves: the mapping at [lw], under
    the path the array at [la], which holds [init] and then the new
    descriptor at [r1]; the objects of the store other than the options
    object of the class and the mapping are as they were. *)
Definition first_watch_left (w w1 : world) (lc lw la r1 : loc)
    (path : string) (init : list value) (d : obj) : Prop :=
  (exists obc, w_heap w1 !! lc = Some obc
               /\ prop_lookup "watch" (o_props obc) = Some (VRef lw))
  /\ (exists obw, w_heap w1 !! lw = Some obw /\ o_kind obw = KObject
                  /\ prop_lookup (PStr path) (o_props obw) = Some (VRef la))
  /\ w_heap w1 !! la = Some (array (init ++ [VRef r1]))
  /\ w_heap w1 !! r1 = Some d
  /\ r1 <> la
  /\ (forall l ob, l <> lc -> l <> lw -> w_heap w !! l = Some ob ->
        w_heap w1 !! l = Some ob).

(** An application whose own functions do nothing. *)
Definition idle_host : nat -> callT -> value -> list value -> M value :=
  fun _ _ _ _ => ret VUndefined.

(** A class whose options carry [watch: { value: { handler: 'log' } }]
    and, at location 3, a function. *)
Definition demo_watch : world :=
  World [record [(PStr "watch", VRef 1)];
         record [(PStr "value", VRef 2); (PStr "size", VRef 3)];
         record [(PStr "handler", VString "log")];
         function (CHost 0)] [] [].

(** A class with no options yet, and the options [{ deep: true }] of a
    [Watch]. *)
Definition demo_watch_deep : world :=
  World [empty_object; record [(PStr "deep", VBool true)]] [] [].

(** The store after the first [Provide] of a class, on member [k] with
    key [key]: the function and its [managed] mapping are new. *)
Definition after_first_provide (w : world) (lc : loc) (proto : value)
    (ps : list (pkey * value)) (orig : value) (k : pkey) (key : value) : world :=
  let lf := length (w_heap w) in
  with_heap w
    (<[S lf := record [(k, or_else key (key_value k))]]>
       (<[lf := Obj (KFunction (CProvide orig)) (VBuiltin (BProto FunctionProto))
                    [(PStr "managed", VRef (S lf))]]>
          (<[lc := Obj KObject proto (prop_update "provide" (VRef lf) ps)]>
             (w_heap w ++ [function (CProvide orig)])
           ++ [empty_object]))).

(** A class whose options carry the static [provide: { theme: 'dark' }],
    and an instance with [a = 1] and [b = 2]. *)
Definition demo_provide : world :=
  World [record [(PStr "provide", VRef 1)];
         record [(PStr "theme", VString "dark")];
         record [(PStr "a", VNumber 1); (PStr "b", VNumber 2)]] [] [].

(** The same class after [Provide('x')] on [a] and [Provide()] on [b]. *)
Definition demo_provided : world :=
  Eval vm_compute in
    snd ((Provide (VString "x") (VRef 0) (VString "a") ;;;
          Provide VUndefined (VRef 0) (VString "b")) demo_provide).

(** The store after [Emit(event)] on the method [key]: the descriptor
    holds the new function, which closes over the old one. *)
Definition after_Emit (w : world) (ld : loc) (proto : value)
    (pd : list (pkey * value)) (event : value) (key : string) (original : value)
  : world :=
  with_heap w
    (<[ld := Obj KObject proto (prop_update "value" (VRef (length (w_heap w))) pd)]>
       (w_heap w ++ [function (CEmitter event (hyphenate key) original)])).

(** The world the wrapper leaves when the method returned the pending
    promise [p] that nobody else waits for, in a world without queued
    jobs: the callback at [lcb], the derived promise after it, and the one
    reaction on [p]. *)
Definition awaiting (w2 : world) (p : loc) (event : value) (key : string)
    (this : value) (la : loc) : world :=
  let lcb := length (w_heap w2) in
  World (<[p := promise (Pending [Reaction (VRef lcb) VUndefined (S lcb)])]>
           ((w_heap w2 ++ [function (CEmitThen event key this (VRef la))])
            ++ [promise (Pending [])]))
        [] (w_emitted w2).

(** An application whose method returns [5]. *)
Definition five_host : nat -> callT -> value -> list value -> M value :=
  fun _ _ _ _ => ret (VNumber 5).

(** The descriptor of a method (the function at 1), and an instance
    whose [$emit] is Vue's. *)
Definition demo_method : world :=
  World [record [(PStr "value", VRef 1)];
         function (CHost 0);
         record [(PStr "$emit", VRef 3)];
         function CVueEmit] [] [].

(** The world in which the method of [demo_method], decorated, runs when
    the wrapper is called with [(1, 2)]: the wrapper is at 4, the rest
    array at 5. *)
Definition demo_method_called : world :=
  Eval vm_compute in
    let w := after_Emit demo_method 0 (VBuiltin (BProto ObjectProto))
               [(PStr "value", VRef 1)] VUndefined "doThing" (VRef 1) in
    with_heap w (w_heap w ++ [array [VNumber 1; VNumber 2]]).

(** An application whose method returns the promise at location 4. *)
Definition promise_host : nat -> callT -> value -> list value -> M value :=
  fun _ _ _ _ => ret (VRef 4).

(** The world in which that method runs when the wrapper (at 5) is called
    with [(1, 2)]: the instance is at 2, the pending promise at 4, the
    rest array at 6. *)
Definition demo_async_called : world :=
  World [record [(PStr "value", VRef 5)];
         function (CHost 0);
         record [(PStr "$emit", VRef 3)];
         function CVueEmit;
         promise (Pending []);
         function (CEmitter VUndefined "do-thing" (VRef 1));
         array [VNumber 1; VNumber 2]] [] [].

Definition demo_async : world :=
  World (take 6 (w_heap demo_async_called)) [] [].


(** An application whose [provide] function (at 1) returns the object
    at 2. *)
Definition theme_host : nat -> callT -> value -> list value -> M value :=
  fun _ _ _ _ => ret (VRef 2).

Definition demo_provide_function : world :=
  World [record [(PStr "provide", VRef 1)];
         function (CHost 0);
         record [(PStr "theme", VString "dark")];
         record [(PStr "a", VNumber 1); (PStr "b", VNumber 2)]] [] [].

(** An application whose method (function 0) returns the object at 4,
    which is no promise but has a [then] (function 1) that calls its
    first argument at once, with ['now']. *)
Definition eager_host : nat -> callT -> value -> list value -> M value :=
  fun id call _ args =>
    match id with
    | 1%nat => call (nth 0 args VUndefined) VUndefined [VString "now"]
    | _ => ret (VRef 4)
    end.

Definition demo_thenable : world :=
  World [record [(PStr "value", VRef 1)];
         function (CHost 0);
         record [(PStr "$emit", VRef 3)];
         function CVueEmit;
         record [(PStr "then", VRef 5)];
         function (CHost 1)] [] [].

(** An application whose method (function 0) returns the object at 4,
    which is no promise but has a [then] (function 1) that keeps its first
    argument under [callback] and calls nothing. *)
Definition lazy_host : nat -> callT -> value -> list value -> M value :=
  fun id _ this args =>
    match id with
    | 1%nat => set_member this "callback" (nth 0 args VUndefined) ;;; ret VUndefined
    | _ => ret (VRef 4)
    end.

(** The world in which the method of [demo_thenable] runs when the
    wrapper is called with [(1, 2)]: the rest array is at 6. *)
Definition demo_thenable_called : world :=
  with_heap demo_thenable (w_heap demo_thenable ++ [array [VNumber 1; VNumber 2]]).

(** The world the wrapper leaves with [lazy_host]: the callback, at 7,
    is kept by the object at 4. *)
Definition demo_thenable_waiting : world :=
  Eval vm_compute in
    snd (emitter (call lazy_host 1) VUndefined "do-thing" (VRef 1) (VRef 2)
           [VNumber 1; VNumber 2] demo_thenable).

(** ** Vocabulary of the further properties *)

(** Strings of ASCII characters. *)
Definition is_ascii (c : ascii) : bool := (nat_of_ascii c <? 128)%nat.

Definition ascii_only (s : string) : bool := all_chars is_ascii s.

(** No upper-case letter in the string. *)
Definition lower_case (s : string) : bool :=
  all_chars (fun c => negb (is_upper c)) s.

(** The string without its hyphens. *)
Fixpoint without_hyphens (s : string) : string :=
  match s with
  | EmptyString => EmptyString
  | String c rest =>
      if Ascii.eqb c "-" then without_hyphens rest
      else String c (without_hyphens rest)
  end.

(** The values that are no objects: [undefined], [null], booleans,
    numbers, strings and symbols. *)
Definition primitive (v : value) : Prop :=
  match v with
  | VRef _ | VBuiltin _ | VTypeError => False
  | _ => True
  end.

(** ** Worlds of the further properties *)

(** An application whose method returns [null]. *)
Definition null_host : nat -> callT -> value -> list value -> M value :=
  fun _ _ _ _ => ret VNull.

(** An application whose method throws the string ['bad']. *)
Definition failing_host : nat -> callT -> value -> list value -> M value :=
  fun _ _ _ _ => throw (VString "bad").

(** The method of [demo_method] decorated with [Emit('done')]: the
    wrapper is at 4. *)
Definition demo_method_done : world :=
  after_Emit demo_method 0 (VBuiltin (BProto ObjectProto))
    [(PStr "value", VRef 1)] (VString "done") "doThing" (VRef 1).

(** The method of [demo_method] decorated twice, [Emit('inner')] first
    and [Emit()] over it: the wrappers are at 4 and 5. *)
Definition demo_method_twice : world :=
  Eval vm_compute in
    snd ((Emit (VString "inner") VUndefined "doThing" (VRef 0) ;;;
          Emit VUndefined VUndefined "doThing" (VRef 0)) demo_method).

(** As [demo_async_called] and [demo_async], with the promise at 4
    fulfilled with ['ok'] already. *)
Definition demo_settled_called : world :=
  World [record [(PStr "value", VRef 5)];
         function (CHost 0);
         record [(PStr "$emit", VRef 3)];
         function CVueEmit;
         promise (Fulfilled (VString "ok"));
         function (CEmitter VUndefined "do-thing" (VRef 1));
         array [VNumber 1; VNumber 2]] [] [].

Definition demo_settled : world :=
  World (take 6 (w_heap demo_settled_called)) [] [].

(** A class whose options carry [props] in its array form,
    [['title', 'size']], a class whose [props] is [null], and an option
    record. *)
Definition demo_props_array : world :=
  World [record [(PStr "props", VRef 1)];
         array [VString "title"; VString "size"];
         record [(PStr "type", VString "String")]] [] [].

Definition demo_props_null : world :=
  World [record [(PStr "name", VString "demo"); (PStr "props", VNull);
                 (PStr "data", VNull)];
         record [(PStr "type", VString "String")]] [] [].

(** A class whose options carry [props: { size: {...} }]. *)
Definition demo_props_mapping : world :=
  World [record [(PStr "props", VRef 1)];
         record [(PStr "size", VRef 2)];
         record [(PStr "type", VString "Number")];
         record [(PStr "type", VString "String")]] [] [].

(** A class whose [props] is the string ['title']. *)
Definition demo_props_string : world :=
  World [record [(PStr "props", VString "title")];
         record [(PStr "type", VString "String")]] [] [].

(** A class whose [inject] is [null]. *)
Definition demo_inject_null : world :=
  World [record [(PStr "inject", VNull)]] [] [].

(** A class whose [watch] is [null], one whose [watch] is a string, and
    one with the entries [value: null] and [size: 'onSize'] (a method
    name, as the framework accepts it) and [items: [d]]. *)
Definition demo_watch_null : world :=
  World [record [(PStr "watch", VNull)]] [] [].

Definition demo_watch_string : world :=
  World [record [(PStr "name", VString "demo"); (PStr "watch", VString "value")]] [] [].

Definition demo_watch_entries : world :=
  World [record [(PStr "watch", VRef 1)];
         record [(PStr "value", VNull); (PStr "size", VString "onSize");
                 (PStr "items", VRef 2)];
         array [VRef 3];
         descriptor (VString "onItems") (VBool false) (VBool false)] [] [].

(** The options [{ deep: true }] of a [Watch]. *)
Definition demo_watch_options : world :=
  World [record [(PStr "deep", VBool true)]] [] [].

(** What the function of [Provide] does with one enumerated name of its
    [managed] mapping: the field of the instance it reads, the key it
    provides it under, and the value the field has. *)
Definition managed_entry : Type := string * pkey * value.

Definition entry_field (e : managed_entry) : string := fst (fst e).
Definition entry_key (e : managed_entry) : pkey := snd (fst e).
Definition entry_value (e : managed_entry) : value := snd e.

(** The chain that starts at [v] holds ordinary objects only and ends,
    within [fuel] steps, in [null] or in [Object.prototype]. *)
Fixpoint object_chain (fuel : nat) (h : heap) (v : value) : bool :=
  match v with
  | VNull | VBuiltin (BProto ObjectProto) => true
  | VRef l =>
      match h !! l with
      | Some (Obj KObject proto _) =>
          match fuel with
          | O => false
          | S n => object_chain n h proto
          end
      | _ => false
      end
  | _ => false
  end.

(** The entry agrees with the mapping [pm] and with the instance, and its
    key can be written on an object whose prototype is [base].  The key is
    not [__proto__], which names the prototype itself.  The names that are
    native properties of function objects ([length], [name], [prototype],
    [caller], [arguments]) are keys like any other when the chain of the
    base holds ordinary objects only. *)
Definition managed_as (h : heap) (this : value) (pm : list (pkey * value))
    (base : value) (e : managed_entry) : Prop :=
  prop_lookup (PStr (entry_field e)) pm = Some (key_value (entry_key e))
  /\ get_in h this (PStr (entry_field e)) = Ok (entry_value e)
  /\ entry_key e <> PStr "__proto__"
  /\ (key_in (entry_key e) function_own_names = false
      \/ object_chain (length h) h base = true).

(** The properties the writes of the entries leave, in their order. *)
Definition provided_props (entries : list managed_entry)
    (acc : list (pkey * value)) : list (pkey * value) :=
  fold_left (fun acc e => prop_update (entry_key e) (entry_value e) acc) entries acc.

(** A class decorated with [Provide] over the static [provide: 'dark']:
    the function is at 1, its [managed] mapping at 2, an instance at 3. *)
Definition demo_provide_string : world :=
  World [record [(PStr "provide", VRef 1)];
         Obj (KFunction (CProvide (VString "dark"))) (VBuiltin (BProto FunctionProto))
             [(PStr "managed", VRef 2)];
         record [(PStr "a", VString "a")];
         record [(PStr "a", VNumber 1)]] [] [].

(** A class decorated with [Provide] on the members [a] (under ['x'])
    and [name], over the static [provide: { theme: 'dark' }]: the function
    is at 3, its [managed] mapping at 4, an instance at 2. *)
Definition demo_provided_name : world :=
  World [record [(PStr "provide", VRef 3)];
         record [(PStr "theme", VString "dark")];
         record [(PStr "a", VNumber 1); (PStr "name", VString "n")];
         Obj (KFunction (CProvide (VRef 1))) (VBuiltin (BProto FunctionProto))
             [(PStr "managed", VRef 4)];
         record [(PStr "a", VString "x"); (PStr "name", VString "name")]] [] [].
(** ** Reasoning about the store *)

Lemma pkey_eqb_eq (a b : pkey) : pkey_eqb a b = true <-> a = b.
Proof.
  destruct a as [s|n], b as [t|m]; simpl; split; intros H;
    try discriminate; try (inversion H; subst).
  - apply String.eqb_eq in H. now subst.
  - apply String.eqb_refl.
  - apply Nat.eqb_eq in H. now subst.
  - apply Nat.eqb_refl.
Qed.

Lemma pkey_eqb_refl (k : pkey) : pkey_eqb k k = true.
Proof. now apply pkey_eqb_eq. Qed.

Lemma pkey_eqb_neq (a b : pkey) : a <> b -> pkey_eqb a b = false.
Proof.
  intros H. destruct (pkey_eqb a b) eqn:E; [|reflexivity].
  apply pkey_eqb_eq in E. contradiction.
Qed.

Lemma prop_update_same k v ps : prop_lookup k (prop_update k v ps) = Some v.
Proof.
  unfold prop_lookup. induction ps as [|[k' v'] ps IH]; simpl.
  - now rewrite pkey_eqb_refl.
  - destruct (pkey_eqb k k') eqn:E; simpl.
    + now rewrite pkey_eqb_refl.
    + now rewrite E.
Qed.

Lemma prop_update_other k k' v ps :
  k <> k' -> prop_lookup k' (prop_update k v ps) = prop_lookup k' ps.
Proof.
  intros Hne. unfold prop_lookup. induction ps as [|[k0 v0] ps IH]; simpl.
  - rewrite pkey_eqb_neq by congruence. reflexivity.
  - destruct (pkey_eqb k k0) eqn:E; simpl.
    + apply pkey_eqb_eq in E. subst k0.
      now rewrite !(pkey_eqb_neq k' k) by congruence.
    + destruct (pkey_eqb k' k0); [reflexivity | exact IH].
Qed.

(** A property that is not there yet goes to the end. *)
Lemma prop_update_fresh k v ps :
  prop_lookup k ps = None -> prop_update k v ps = ps ++ [(k, v)].
Proof.
  unfold prop_lookup. induction ps as [|[k' v'] ps IH]; simpl; [reflexivity|].
  destruct (pkey_eqb k k') eqn:E; [discriminate|].
  intros H. now rewrite IH.
Qed.

Lemma heap_nonempty (h : heap) l ob : h !! l = Some ob -> exists n, length h = S n.
Proof.
  intros H. apply lookup_lt_Some in H. destruct (length h); [lia | eauto].
Qed.

Lemma object_proto_own_ok k : exists r, builtin_own (BProto ObjectProto) k = Ok r.
Proof.
  destruct k as [s|n]; cbn [builtin_own members_of]; [|eauto].
  destruct (existsb (String.eqb s) object_proto_members); eauto.
Qed.

Lemma find_slot_plain h l proto ps k :
  h !! l = Some (Obj KObject proto ps) -> plain proto ->
  find_slot (length h) h (VRef l) k = plain_slot proto ps k.
Proof.
  intros Hl Hp. destruct (heap_nonempty _ _ _ Hl) as [n ->].
  unfold plain_slot. cbn [find_slot]. rewrite Hl. unfold own_get.
  cbn [o_props o_kind o_proto].
  destruct (prop_lookup k ps); [reflexivity|].
  destruct Hp as [-> | ->]; destruct n; reflexivity.
Qed.

Lemma plain_slot_ordinary proto ps k :
  plain proto -> ordinary proto k -> plain_slot proto ps k <> Ok ProtoAccessor.
Proof.
  intros Hp Ho. unfold plain_slot.
  destruct (prop_lookup k ps); [discriminate|].
  destruct Hp as [-> | ->]; [discriminate|].
  destruct Ho as [? | Ho]; [discriminate|].
  simpl. unfold object_proto_slot.
  destruct (object_proto_own_ok k) as [[v|] ->]; [discriminate|].
  rewrite pkey_eqb_neq by exact Ho. discriminate.
Qed.

Lemma plain_slot_defined proto ps k :
  plain proto -> exists s, plain_slot proto ps k = Ok s.
Proof.
  intros Hp. unfold plain_slot.
  destruct (prop_lookup k ps); [eauto|].
  destruct Hp as [-> | ->]; [eauto|].
  simpl. unfold object_proto_slot.
  destruct (object_proto_own_ok k) as [[v|] ->]; [eauto|].
  destruct (pkey_eqb k "__proto__"); eauto.
Qed.

(** Reading an own property. *)
Lemma get_in_own h l ob k v :
  h !! l = Some ob -> prop_lookup k (o_props ob) = Some v ->
  get_in h (VRef l) k = Ok v.
Proof.
  intros Hl Ha. unfold get_in.
  destruct (length h); cbn [find_slot]; rewrite Hl; unfold own_get; now rewrite Ha.
Qed.

(** Reading a property a prototype-less object does not have. *)
Lemma get_in_null_absent h l ps k :
  h !! l = Some (Obj KObject VNull ps) -> prop_lookup k ps = None ->
  get_in h (VRef l) k = Ok VUndefined.
Proof.
  intros Hl Ha. unfold get_in.
  rewrite (find_slot_plain _ _ _ _ _ Hl) by (now left).
  unfold plain_slot. now rewrite Ha.
Qed.

(** Writing an ordinary key of a plain object: the property is replaced in
    place or appended. *)
Lemma set_member_plain w l proto ps k v :
  w_heap w !! l = Some (Obj KObject proto ps) -> plain proto -> ordinary proto k ->
  set_member (VRef l) k v w =
    (Ok tt, World (<[l := Obj KObject proto (prop_update k v ps)]> (w_heap w))
                  (w_jobs w) (w_emitted w)).
Proof.
  intros Hl Hp Ho. unfold set_member, bind, read, lift. rewrite Hl.
  rewrite (find_slot_plain _ _ _ _ _ Hl Hp).
  pose proof (plain_slot_ordinary proto ps k Hp Ho) as Hno.
  destruct (plain_slot_defined proto ps k Hp) as [s Hs]. rewrite Hs in *.
  destruct s; try congruence; reflexivity.
Qed.

Lemma lookup_alloc_old (h : heap) l ob o : h !! l = Some ob -> (h ++ [o]) !! l = Some ob.
Proof. intros H. rewrite lookup_app_l; [exact H | eapply lookup_lt_Some, H]. Qed.

Lemma lookup_alloc_new (h : heap) o : (h ++ [o]) !! length h = Some o.
Proof. apply list_lookup_middle. reflexivity. Qed.

Lemma lookup_write_same (h : heap) l ob o : h !! l = Some ob -> <[l := o]> h !! l = Some o.
Proof. intros H. apply list_lookup_insert_eq. eapply lookup_lt_Some, H. Qed.

Lemma lookup_write_other (h : heap) l l' o : l <> l' -> <[l := o]> h !! l' = h !! l'.
Proof. intros H. now apply list_lookup_insert_ne. Qed.

Lemma to_key_value k : to_key (key_value k) = ret k.
Proof. now destruct k. Qed.

Lemma default_object_given o : o <> VUndefined -> default_object o = ret o.
Proof. now destruct o. Qed.

Lemma get_in_plain h l proto ps k :
  h !! l = Some (Obj KObject proto ps) -> plain proto ->
  get_in h (VRef l) k =
    match plain_slot proto ps k with
    | Ok (Data v) => Ok v
    | Ok ProtoAccessor => Ok proto
    | Ok Missing => Ok VUndefined
    | Throw e => Throw e
    | Abort r => Abort r
    end.
Proof.
  intros Hl Hp. unfold get_in. rewrite (find_slot_plain _ _ _ _ _ Hl Hp).
  unfold proto_of. now rewrite Hl.
Qed.

(** A key that neither the object nor [Object.prototype] has reads as
    [undefined]. *)
Lemma get_in_absent h l proto ps k :
  h !! l = Some (Obj KObject proto ps) -> plain proto ->
  prop_lookup k ps = None ->
  plain_slot (VBuiltin (BProto ObjectProto)) [] k = Ok Missing ->
  get_in h (VRef l) k = Ok VUndefined.
Proof.
  intros Hl Hp Ha Hn. rewrite (get_in_plain _ _ _ _ _ Hl Hp).
  unfold plain_slot in *. rewrite Ha. destruct Hp as [-> | ->]; [reflexivity|].
  cbn [prop_lookup List.find] in Hn. now rewrite Hn.
Qed.

Lemma prop_lookup_app_new k v ps :
  prop_lookup k (ps ++ [(k, v)]) =
    match prop_lookup k ps with Some v' => Some v' | None => Some v end.
Proof.
  unfold prop_lookup. induction ps as [|[k' v'] ps IH]; cbn [List.find app fst snd].
  - now rewrite pkey_eqb_refl.
  - destruct (pkey_eqb k k'); [reflexivity | exact IH].
Qed.

Lemma prop_lookup_head k v ps : prop_lookup k ((k, v) :: ps) = Some v.
Proof. unfold prop_lookup. cbn [List.find fst snd]. now rewrite pkey_eqb_refl. Qed.

(** *** Running the monad step by step *)

Lemma bind_run {A B} (m : M A) (f : A -> M B) w a w' :
  m w = (Ok a, w') -> bind m f w = f a w'.
Proof. intros H. unfold bind. now rewrite H. Qed.

Lemma bind_throw {A B} (m : M A) (f : A -> M B) w e w' :
  m w = (Throw e, w') -> bind m f w = (Throw e, w').
Proof. intros H. unfold bind. now rewrite H. Qed.

Lemma bind_ret {A B} (a : A) (f : A -> M B) w : bind (ret a) f w = f a w.
Proof. reflexivity. Qed.

Lemma bind_bind {A B C} (m : M A) (f : A -> M B) (g : B -> M C) w :
  bind (bind m f) g w = bind m (fun a => bind (f a) g) w.
Proof. unfold bind. destruct (m w) as [[a|e|r] w']; reflexivity. Qed.

Lemma get_member_run o k w v :
  get_in (w_heap w) o k = Ok v -> get_member o k w = (Ok v, w).
Proof. intros H. unfold get_member, lift. now rewrite H. Qed.

Lemma set_member_at_key o k v : set_member_at o (key_value k) v = set_member o k v.
Proof. unfold set_member_at. now rewrite to_key_value. Qed.

Lemma typeof_run v w : typeof v w = (Ok (typeof_in (w_heap w) v), w).
Proof. reflexivity. Qed.

Lemma is_function_run v w :
  is_function v w = (Ok (jstype_eqb (typeof_in (w_heap w) v) TFunction), w).
Proof. reflexivity. Qed.

Lemma isArray_run v w : isArray v w = (Ok (is_array_in (w_heap w) v), w).
Proof. reflexivity. Qed.

Lemma alloc_run o w :
  alloc o w = (Ok (VRef (length (w_heap w))), with_heap w (w_heap w ++ [o])).
Proof. reflexivity. Qed.

Lemma write_run l o w : write l o w = (Ok tt, with_heap w (<[l := o]> (w_heap w))).
Proof. reflexivity. Qed.

Lemma read_run l ob w : w_heap w !! l = Some ob -> read l w = (Ok ob, w).
Proof. intros H. unfold read, lift. now rewrite H. Qed.

Ltac bounds :=
  repeat match goal with
         | H : ?h !! ?l = Some _ |- _ =>
             lazymatch goal with
             | _ : l < length h |- _ => fail
             | _ => pose proof (lookup_lt_Some _ _ _ H)
             end
         end.

Ltac norm_len :=
  repeat (rewrite length_insert || rewrite length_app);
  cbn [length]; rewrite ?Nat.add_1_r.

Ltac len := bounds; unfold with_heap; cbn [w_heap]; norm_len; lia.

(** Lookups in a store built from allocations and writes. *)
Ltac same := first [ reflexivity | unfold or_else; norm_len; reflexivity ].

Ltac heap_solve :=
  unfold with_heap; cbn [w_heap];
  first
    [ eassumption
    | rewrite list_lookup_insert_eq by len; same
    | rewrite list_lookup_insert_ne by len; heap_solve
    | rewrite list_lookup_middle by len; same
    | rewrite lookup_app_l by len; heap_solve ].

(** *** Lookups survive allocations and unrelated writes *)

Lemma similar_refl k h : similar k h h.
Proof. intros l ob H. eauto. Qed.

Lemma similar_trans k h1 h2 h3 : similar k h1 h2 -> similar k h2 h3 -> similar k h1 h3.
Proof.
  intros H12 H23 l ob H.
  destruct (H12 l ob H) as (ob2 & H2 & Hg2 & Hp2).
  destruct (H23 l ob2 H2) as (ob3 & H3 & Hg3 & Hp3).
  exists ob3. repeat split; congruence.
Qed.

Lemma similar_alloc k (h : heap) o : similar k h (h ++ [o]).
Proof. intros l ob H. exists ob. split; [now apply lookup_alloc_old | auto]. Qed.

Lemma similar_write k (h : heap) l ob ob' :
  h !! l = Some ob -> own_get ob' k = own_get ob k -> o_proto ob' = o_proto ob ->
  similar k h (<[l := ob']> h).
Proof.
  intros Hl Hg Hp l0 ob0 H0. destruct (Nat.eq_dec l l0) as [<- | Hne].
  - exists ob'. rewrite (lookup_write_same _ _ _ _ Hl).
    assert (ob0 = ob) by congruence. subst. auto.
  - exists ob0. rewrite lookup_write_other by exact Hne. auto.
Qed.

(** Every object of [h] is in [h'] as it is. *)
Lemma similar_above k (h h' : heap) :
  (forall l ob, h !! l = Some ob -> h' !! l = Some ob) -> similar k h h'.
Proof. intros H l ob Hl. exists ob. auto. Qed.

Lemma similar_length k (h h' : heap) : similar k h h' -> length h <= length h'.
Proof.
  intros Hs. destruct (Nat.eq_dec (length h) 0) as [E|E]; [lia|].
  assert (is_Some (h !! (length h - 1))) as [ob Hob]
    by (apply lookup_lt_is_Some; lia).
  destruct (Hs _ _ Hob) as (ob' & H' & _). apply lookup_lt_Some in H'. lia.
Qed.

Lemma find_slot_similar k h h' n v s :
  similar k h h' -> find_slot n h v k = Ok s -> find_slot n h' v k = Ok s.
Proof.
  intros Hs. revert v. induction n as [|n IH]; intros v H;
    destruct v; cbn [find_slot] in *; try exact H.
  - destruct (h !! l) as [ob|] eqn:Hl; [|discriminate].
    destruct (Hs _ _ Hl) as (ob' & -> & -> & _).
    destruct (own_get ob k) as [[x|]|e|r]; try discriminate; exact H.
  - destruct (h !! l) as [ob|] eqn:Hl; [|discriminate].
    destruct (Hs _ _ Hl) as (ob' & -> & -> & ->).
    destruct (own_get ob k) as [[x|]|e|r]; try discriminate; [exact H|].
    now apply IH.
Qed.

Lemma find_slot_fuel k h n m v s :
  n <= m -> find_slot n h v k = Ok s -> find_slot m h v k = Ok s.
Proof.
  revert m v. induction n as [|n IH]; intros m v Hle H.
  - destruct v; destruct m; cbn [find_slot] in *; try exact H.
    destruct (h !! l) as [ob|]; [|discriminate].
    destruct (own_get ob k) as [[x|]|e|r]; try discriminate; exact H.
  - destruct m as [|m]; [lia|].
    destruct v; cbn [find_slot] in *; try exact H.
    destruct (h !! l) as [ob|]; [|discriminate].
    destruct (own_get ob k) as [[x|]|e|r]; try discriminate; [exact H|].
    apply IH; [lia | exact H].
Qed.

Lemma proto_of_similar k h h' l ob :
  similar k h h' -> h !! l = Some ob -> proto_of h' (VRef l) = proto_of h (VRef l).
Proof.
  intros Hs Hl. destruct (Hs _ _ Hl) as (ob' & Hl' & _ & Hp).
  unfold proto_of. now rewrite Hl, Hl', Hp.
Qed.

(** A read that succeeds keeps its result in every later store that is
    similar at the key. *)
Lemma get_in_similar k h h' v x :
  similar k h h' -> get_in h v k = Ok x -> get_in h' v k = Ok x.
Proof.
  intros Hs H. pose proof (similar_length _ _ _ Hs) as Hlen.
  destruct v; cbn [get_in] in *; try exact H.
  - destruct (find_slot (length h) h (VRef l) k) as [s| |] eqn:Hf; try discriminate.
    assert (exists ob, h !! l = Some ob) as [ob Hob].
    { destruct (h !! l) as [ob|] eqn:E; [eauto|].
      destruct (length h); cbn [find_slot] in Hf; rewrite E in Hf; discriminate. }
    apply (find_slot_fuel _ _ _ _ _ _ Hlen) in Hf.
    rewrite (find_slot_similar _ _ _ _ _ _ Hs Hf).
    destruct s; try exact H.
    now rewrite (proto_of_similar _ _ _ _ _ Hs Hob).
  - destruct (find_slot (length h) h (VBuiltin b) k) as [s| |] eqn:Hf; try discriminate.
    apply (find_slot_fuel _ _ _ _ _ _ Hlen) in Hf.
    rewrite (find_slot_similar _ _ _ _ _ _ Hs Hf). exact H.
Qed.

Lemma object_proto_slot_accessor k :
  object_proto_slot k = Ok ProtoAccessor -> k = PStr "__proto__".
Proof.
  unfold object_proto_slot.
  destruct (builtin_own (BProto ObjectProto) k) as [[x|]| |]; try discriminate.
  destruct (pkey_eqb k "__proto__") eqn:E; [|discriminate].
  intros _. now apply pkey_eqb_eq.
Qed.

Lemma builtin_slot_accessor b k :
  builtin_slot b k = Ok ProtoAccessor -> k = PStr "__proto__".
Proof.
  pose proof (object_proto_slot_accessor k) as Hobj.
  unfold builtin_slot.
  destruct b as [[]| | |]; try exact Hobj;
    repeat match goal with
           | |- context [match builtin_own ?b k with _ => _ end] =>
               destruct (builtin_own b k) as [[?|]| |]; try discriminate
           end; exact Hobj.
Qed.

Lemma find_slot_accessor_key n h v k :
  find_slot n h v k = Ok ProtoAccessor -> k = PStr "__proto__".
Proof.
  revert v. induction n as [|n IH]; intros v H;
    destruct v; cbn [find_slot] in H; try discriminate;
    try (now apply builtin_slot_accessor in H).
  - destruct (h !! l) as [ob|]; [|discriminate].
    destruct (own_get ob k) as [[x|]| |]; discriminate.
  - destruct (h !! l) as [ob|]; [|discriminate].
    destruct (own_get ob k) as [[x|]| |]; try discriminate. eauto.
Qed.

Lemma prop_lookup_app k ps qs :
  prop_lookup k (ps ++ qs) =
    match prop_lookup k ps with Some v => Some v | None => prop_lookup k qs end.
Proof.
  unfold prop_lookup. induction ps as [|[k' v'] ps IH]; cbn [List.find app fst snd].
  - reflexivity.
  - destruct (pkey_eqb k k'); [reflexivity | exact IH].
Qed.

Lemma prop_update_app_absent k v ps qs :
  prop_lookup k ps = None -> prop_update k v (ps ++ qs) = ps ++ prop_update k v qs.
Proof.
  unfold prop_lookup. induction ps as [|[k' v'] ps IH]; cbn [List.find app fst snd prop_update].
  - reflexivity.
  - destruct (pkey_eqb k k'); [discriminate|]. intros H. now rewrite IH.
Qed.

Lemma typeof_in_ref (h : heap) l ob :
  h !! l = Some ob ->
  typeof_in h (VRef l) = match o_kind ob with KFunction _ => TFunction | _ => TObject end.
Proof. intros H. unfold typeof_in. rewrite H. now destruct ob as [[] ? ?]. Qed.

Lemma is_array_in_ref (h : heap) l ob :
  h !! l = Some ob ->
  is_array_in h (VRef l) = match o_kind ob with KArray _ => true | _ => false end.
Proof. intros H. unfold is_array_in. rewrite H. now destruct ob as [[] ? ?]. Qed.

(** One step of a run whose first action is a query or an allocation. *)
Ltac step :=
  rewrite ?bind_bind;
  first
    [ rewrite bind_ret
    | erewrite bind_run by
        first [ apply typeof_run | apply isArray_run | apply is_function_run
              | apply alloc_run | apply write_run ] ];
  cbv beta.

Ltac step_get H :=
  rewrite ?bind_bind; erewrite bind_run by (apply get_member_run; H); cbv beta.

(** Writing a key of a plain object that does not resolve to the accessor. *)
Lemma set_member_data w l proto ps k v :
  w_heap w !! l = Some (Obj KObject proto ps) -> plain proto ->
  plain_slot proto ps k <> Ok ProtoAccessor ->
  set_member (VRef l) k v w =
    (Ok tt, with_heap w (<[l := Obj KObject proto (prop_update k v ps)]> (w_heap w))).
Proof.
  intros Hl Hp Hno. unfold set_member, bind, read, lift. rewrite Hl.
  rewrite (find_slot_plain _ _ _ _ _ Hl Hp).
  destruct (plain_slot_defined proto ps k Hp) as [s Hs]. rewrite Hs in *.
  destruct s; try congruence; reflexivity.
Qed.

(** A read of a plain object that yields [undefined] or a reference did
    not go through the accessor, which yields the prototype. *)
Lemma plain_read_not_accessor h l proto ps k v :
  h !! l = Some (Obj KObject proto ps) -> plain proto ->
  get_in h (VRef l) k = Ok v ->
  v = VUndefined \/ (exists l', v = VRef l') ->
  plain_slot proto ps k <> Ok ProtoAccessor.
Proof.
  intros Hl Hp Hg Hv Hacc. rewrite (get_in_plain _ _ _ _ _ Hl Hp), Hacc in Hg.
  inversion Hg; subst.
  destruct Hp as [-> | ->].
  - unfold plain_slot in Hacc. destruct (prop_lookup k ps); discriminate.
  - destruct Hv as [Hv | [l' Hv]]; discriminate.
Qed.

(** The own property a read found, when the value read is a reference:
    nothing [Object.prototype] provides is one. *)
Lemma plain_read_ref_own h l proto ps k l' :
  h !! l = Some (Obj KObject proto ps) -> plain proto ->
  get_in h (VRef l) k = Ok (VRef l') ->
  prop_lookup k ps = Some (VRef l').
Proof.
  intros Hl Hp Hg. rewrite (get_in_plain _ _ _ _ _ Hl Hp) in Hg.
  unfold plain_slot in Hg. destruct (prop_lookup k ps) as [v|]; [congruence|].
  destruct Hp as [-> | ->]; [discriminate|].
  cbn [builtin_slot] in Hg. unfold object_proto_slot in Hg.
  destruct k as [s|n]; cbn [builtin_own members_of] in Hg.
  - destruct (existsb (String.eqb s) object_proto_members); [discriminate|].
    destruct (pkey_eqb s "__proto__"); discriminate.
  - discriminate.
Qed.

Lemma get_in_array_push h la elems :
  h !! la = Some (array elems) -> get_in h (VRef la) "push" = Ok (VBuiltin BArrayPush).
Proof.
  intros Hl. unfold get_in. destruct (heap_nonempty _ _ _ Hl) as [n ->].
  cbn [find_slot]. rewrite Hl. destruct n; reflexivity.
Qed.

Section Calls.

Variable host : nat -> callT -> value -> list value -> M value.

Lemma call_push n w la elems proto pa args :
  w_heap w !! la = Some (Obj (KArray elems) proto pa) ->
  call host (S n) (VBuiltin BArrayPush) (VRef la) args w =
    (Ok (VNumber (Z.of_nat (length (elems ++ args)))),
     with_heap w (<[la := Obj (KArray (elems ++ args)) proto pa]> (w_heap w))).
Proof.
  intros Hl. cbn [call typeof_in jstype_eqb run_builtin array_push].
  rewrite (bind_run _ _ _ _ _ (read_run _ _ _ Hl)). cbn [o_kind o_proto o_props].
  rewrite (bind_run _ _ _ _ _ (write_run _ _ _)). reflexivity.
Qed.

Lemma call_function n w l ob c this args :
  w_heap w !! l = Some ob -> o_kind ob = KFunction c ->
  call host (S n) (VRef l) this args w = run_code host (call host n) l c this args w.
Proof.
  intros Hl Hk. cbn [call]. rewrite (bind_run _ _ _ _ _ (read_run _ _ _ Hl)).
  now rewrite Hk.
Qed.

Lemma call_undefined n w this args :
  call host (S n) VUndefined this args w = (Throw VTypeError, w).
Proof. reflexivity. Qed.

End Calls.

(** *** Lookups along a finite prototype chain are defined *)

Lemma own_get_defined ob k :
  key_in k function_own_names = false -> exists r, own_get ob k = Ok r.
Proof.
  intros Hk. unfold own_get. destruct (prop_lookup k (o_props ob)); [eauto|].
  destruct (o_kind ob); eauto.
  - destruct (pkey_eqb k "length"); [eauto|]. destruct (index_of_key k); eauto.
  - rewrite Hk. eauto.
Qed.

Lemma builtin_own_defined b k :
  key_in k function_own_names = false -> exists r, builtin_own b k = Ok r.
Proof.
  intros Hk. unfold builtin_own. destruct b as [p| | |]; try (rewrite Hk; eauto).
  destruct k as [s|m]; [|eauto].
  destruct (existsb (String.eqb s) (members_of p)); [eauto|].
  destruct p; eauto; rewrite Hk; eauto.
Qed.

Lemma object_proto_slot_defined k : exists s, object_proto_slot k = Ok s.
Proof.
  unfold object_proto_slot. destruct (object_proto_own_ok k) as [[v|] ->]; [eauto|].
  destruct (pkey_eqb k "__proto__"); eauto.
Qed.

Lemma builtin_slot_defined b k :
  key_in k function_own_names = false -> exists s, builtin_slot b k = Ok s.
Proof.
  intros Hk. pose proof (object_proto_slot_defined k) as Ho.
  unfold builtin_slot.
  destruct b as [[]| | |]; try exact Ho;
    repeat match goal with
           | |- context [match builtin_own ?b k with _ => _ end] =>
               let r := fresh in
               destruct (builtin_own_defined b k Hk) as [[?|] r]; rewrite r
           end; eauto.
Qed.

Lemma find_slot_defined n h v k :
  chain_ends n h v = true -> key_in k function_own_names = false ->
  exists s, find_slot n h v k = Ok s.
Proof.
  intros Hc Hk. revert v Hc. induction n as [|n IH]; intros v Hc;
    destruct v; cbn [find_slot chain_ends] in *; eauto using builtin_slot_defined.
  - destruct (h !! l); discriminate.
  - destruct (h !! l) as [ob|]; [|discriminate].
    destruct (own_get_defined ob k Hk) as [[x|] ->]; eauto.
Qed.

Lemma chain_ends_similar k n h h' v :
  similar k h h' -> chain_ends n h v = true -> chain_ends n h' v = true.
Proof.
  intros Hs. revert v. induction n as [|n IH]; intros v H;
    destruct v; cbn [chain_ends] in *; try exact H.
  - destruct (h !! l); discriminate.
  - destruct (h !! l) as [ob|] eqn:Hl; [|discriminate].
    destruct (Hs _ _ Hl) as (ob' & -> & _ & ->). now apply IH.
Qed.

(** Writing a key of an ordinary object whose lookup does not end in the
    accessor. *)
Lemma set_member_object w l proto ps k v s :
  w_heap w !! l = Some (Obj KObject proto ps) ->
  find_slot (length (w_heap w)) (w_heap w) (VRef l) k = Ok s ->
  s <> ProtoAccessor ->
  set_member (VRef l) k v w =
    (Ok tt, with_heap w (<[l := Obj KObject proto (prop_update k v ps)]> (w_heap w))).
Proof.
  intros Hl Hs Hno. unfold set_member.
  rewrite (bind_run _ _ _ _ _ (read_run _ _ _ Hl)).
  unfold bind, lift. rewrite Hs. destruct s; try congruence; reflexivity.
Qed.

(** A fresh object on top of a finite chain: any key outside the special
    names can be written. *)
Lemma set_member_on_chain w l proto ps k v n :
  w_heap w !! l = Some (Obj KObject proto ps) ->
  length (w_heap w) = S n -> chain_ends n (w_heap w) proto = true ->
  key_in k function_own_names = false -> k <> PStr "__proto__" ->
  set_member (VRef l) k v w =
    (Ok tt, with_heap w (<[l := Obj KObject proto (prop_update k v ps)]> (w_heap w))).
Proof.
  intros Hl Hn Hc Hk Hne.
  assert (exists s, find_slot (length (w_heap w)) (w_heap w) (VRef l) k = Ok s) as [s Hs].
  { rewrite Hn. cbn [find_slot]. rewrite Hl. unfold own_get. cbn [o_props o_kind o_proto].
    destruct (prop_lookup k ps); [eauto|]. now apply find_slot_defined. }
  eapply set_member_object; [exact Hl | exact Hs |].
  intros ->. apply find_slot_accessor_key in Hs. contradiction.
Qed.

(** Writing a property the function object does not have yet. *)
Lemma set_member_function w l c ps k v :
  w_heap w !! l = Some (Obj (KFunction c) (VBuiltin (BProto FunctionProto)) ps) ->
  key_in k function_own_names = false -> k <> PStr "__proto__" ->
  set_member (VRef l) k v w =
    (Ok tt,
     with_heap w
       (<[l := Obj (KFunction c) (VBuiltin (BProto FunctionProto)) (prop_update k v ps)]>
          (w_heap w))).
Proof.
  intros Hl Hk Hne. unfold set_member.
  rewrite (bind_run _ _ _ _ _ (read_run _ _ _ Hl)).
  assert (exists s, find_slot (length (w_heap w)) (w_heap w) (VRef l) k = Ok s) as [s Hs].
  { apply find_slot_defined; [|exact Hk].
    destruct (heap_nonempty _ _ _ Hl) as [n ->]. cbn [chain_ends]. rewrite Hl.
    destruct n; reflexivity. }
  unfold bind at 1. unfold lift. rewrite Hs.
  assert (s <> ProtoAccessor)
    by (intros ->; apply find_slot_accessor_key in Hs; contradiction).
  unfold own_set. cbn [o_kind o_proto o_props]. rewrite Hk.
  destruct s; try congruence; reflexivity.
Qed.

Lemma jstype_eqb_eq a b : jstype_eqb a b = true <-> a = b.
Proof. destruct a, b; simpl; split; intros H; congruence. Qed.

Lemma for_in_record w l ps :
  w_heap w !! l = Some (record ps) ->
  for_in_keys (VRef l) w = (Ok (enum_order (string_keys ps)), w).
Proof.
  intros Hl. unfold for_in_keys, lift.
  destruct (heap_nonempty _ _ _ Hl) as [n ->]. cbn [for_in_from]. rewrite Hl.
  cbn [own_enum_keys record o_kind o_props o_proto].
  assert (forall seen, for_in_from n (w_heap w) (VBuiltin (BProto ObjectProto)) seen = Ok [])
    as -> by (destruct n; reflexivity).
  rewrite app_nil_r.
  assert (forall l : list string, List.filter (unseen []) l = l) as ->; [|reflexivity].
  induction l0 as [|x l0 IH]; [reflexivity|]. cbn [List.filter unseen existsb negb].
  now rewrite IH.
Qed.

Lemma Object_create_run w proto :
  object_or_null proto ->
  Object_create proto w =
    (Ok (VRef (length (w_heap w))), with_heap w (w_heap w ++ [Obj KObject proto []])).
Proof. intros H. destruct proto; try contradiction; reflexivity. Qed.

Lemma bind_Ok_inv {A B} (m : M A) (f : A -> M B) w r w' :
  bind m f w = (Ok r, w') -> exists a w1, m w = (Ok a, w1) /\ f a w1 = (Ok r, w').
Proof.
  unfold bind. destruct (m w) as [[a|e|x] w1]; intros H; try discriminate. eauto.
Qed.

(** * The properties of the specification *)

(** ** Event names (C3) *)

Lemma lower_not_upper c : is_upper c = false -> lower c = c.
Proof. intros H. unfold lower. now rewrite H. Qed.

Lemma is_upper_word c : is_upper c = true -> is_word c = true.
Proof. intros H. unfold is_word. now rewrite H. Qed.

Lemma toLowerCase_after_word p s :
  toLowerCase (replace_hyphenateRE (Some p) s) = hyphen_after_word p s.
Proof.
  revert p. induction s as [|c s IH]; intros p; [reflexivity|].
  cbn [replace_hyphenateRE hyphen_after_word].
  unfold non_boundary. cbn [is_word_at].
  destruct (is_upper c) eqn:Hu.
  - rewrite (is_upper_word c Hu).
    destruct (is_word p); cbn [Bool.eqb andb toLowerCase]; now rewrite IH.
  - rewrite !andb_false_r. cbn [toLowerCase]. now rewrite IH.
Qed.

Lemma hyphenate_lower_hyphen_case name : hyphenate name = lower_hyphen_case name.
Proof.
  destruct name as [|c s]; [reflexivity|].
  unfold hyphenate, lower_hyphen_case. cbn [replace_hyphenateRE].
  unfold non_boundary. cbn [is_word_at].
  destruct (is_upper c) eqn:Hu.
  - rewrite (is_upper_word c Hu). cbn [Bool.eqb andb toLowerCase].
    now rewrite toLowerCase_after_word.
  - rewrite andb_false_r. cbn [toLowerCase]. now rewrite toLowerCase_after_word.
Qed.

Lemma hyphen_after_word_camel p s :
  is_word p = true -> all_chars is_word s = true ->
  hyphen_after_word p s = hyphen_each_upper s.
Proof.
  revert p. induction s as [|c s IH]; intros p Hp Hs; [reflexivity|].
  cbn [all_chars] in Hs. apply andb_prop in Hs as [Hc Hs].
  cbn [hyphen_after_word hyphen_each_upper]. rewrite Hp. cbn [andb].
  destruct (is_upper c) eqn:Hu.
  - now rewrite (IH c Hc Hs).
  - now rewrite (lower_not_upper c Hu), (IH c Hc Hs).
Qed.

(** On the names the specification has in mind, made of letters, digits
    and underscores and not starting with an upper-case letter, its
    conversion and the code's agree. *)
Lemma hyphenate_lower_camel_case c rest :
  is_upper c = false -> all_chars is_word (String c rest) = true ->
  hyphenate (String c rest) = camel_to_hyphen (String c rest).
Proof.
  intros Hu Hw. rewrite hyphenate_lower_hyphen_case.
  cbn [all_chars] in Hw. apply andb_prop in Hw as [Hc Hs].
  cbn [lower_hyphen_case camel_to_hyphen].
  now rewrite (lower_not_upper c Hu), (hyphen_after_word_camel c rest Hc Hs).
Qed.

(** C3, as stated, fails: the name [DoThing] starts with an upper-case
    letter, and the default event name is [do-thing], not [Do-thing]: the
    leading character is lower-cased with the rest.  That is the name
    [hyphenate] gives, the name the function [Emit] installs closes over,
    and the name it emits under. *)
Lemma event_name_leading_upper_case :
  event_name VUndefined "DoThing" = VString "do-thing"
  /\ camel_to_hyphen "DoThing" = "Do-thing"
  /\ event_name VUndefined "DoThing" <> VString (camel_to_hyphen "DoThing")
  /\ hyphenate "DoThing" = "do-thing"
  /\ (let r := (Emit VUndefined VUndefined "DoThing" (VRef 0) ;;;
                f <- get_member (VRef 0) "value" ;;
                call five_host 2 f (VRef 2) [VNumber 1; VNumber 2]) demo_method in
      fst r = Ok VUndefined
      /\ w_heap (snd r) !! 4 = Some (function (CEmitter VUndefined "do-thing" (VRef 1)))
      /\ w_emitted (snd r) =
           [Emission (VRef 2) (VString "do-thing") [VNumber 5; VNumber 1; VNumber 2]]
      /\ w_emitted (snd r) <>
           [Emission (VRef 2) (VString (camel_to_hyphen "DoThing"))
                     [VNumber 5; VNumber 1; VNumber 2]]).
Proof. repeat split; discriminate. Qed.

(** ** [Prop] and [Model] (C7, C8) *)

Lemma props_of_fresh w lc proto ps :
  w_heap w !! lc = Some (Obj KObject proto ps) -> plain proto ->
  prop_lookup "props" ps = None ->
  props_of (VRef lc) w =
    (Ok (VRef (length (w_heap w))),
     with_heap w
       (<[lc := Obj KObject proto (ps ++ [(PStr "props", VRef (length (w_heap w)))])]>
          (w_heap w ++ [empty_object]))).
Proof.
  intros Hc Hp Hno. unfold props_of.
  erewrite bind_run
    by (apply get_member_run, (get_in_absent _ _ _ _ _ Hc Hp Hno); reflexivity).
  cbn [truthy]. unfold new_object. rewrite (bind_run _ _ _ _ _ (alloc_run _ _)).
  erewrite bind_run
    by (apply set_member_plain; [heap_solve | assumption | now right]).
  rewrite prop_update_fresh by assumption. reflexivity.
Qed.

Lemma props_of_there w lc ob v :
  w_heap w !! lc = Some ob -> prop_lookup "props" (o_props ob) = Some v ->
  truthy v = true ->
  props_of (VRef lc) w = (Ok v, w).
Proof.
  intros Hc Hv Ht. unfold props_of.
  erewrite bind_run by (apply get_member_run, (get_in_own _ _ _ _ _ Hc Hv)).
  now rewrite Ht.
Qed.

Lemma Prop_apply o c k w :
  o <> VUndefined ->
  (d <- Prop_ o ;; d c k) w = (props <- props_of c ;; set_member_at props k o) w.
Proof. intros H. unfold Prop_. now rewrite default_object_given. Qed.

Lemma Prop_first w lc proto ps k o :
  w_heap w !! lc = Some (Obj KObject proto ps) -> plain proto ->
  prop_lookup "props" ps = None -> member_key k -> o <> VUndefined ->
  (d <- Prop_ o ;; d (VRef lc) (key_value k)) w =
    (Ok tt, after_first_prop w lc proto ps k o).
Proof.
  intros Hc Hp Hno Hk Ho. rewrite Prop_apply by assumption.
  erewrite bind_run by (apply (props_of_fresh _ _ _ _ Hc Hp Hno)).
  rewrite set_member_at_key.
  erewrite set_member_plain; [| heap_solve | now right | now right ].
  reflexivity.
Qed.

Lemma Prop_again w lc ob lp pps k o :
  w_heap w !! lc = Some ob -> prop_lookup "props" (o_props ob) = Some (VRef lp) ->
  w_heap w !! lp = Some (record pps) -> member_key k -> o <> VUndefined ->
  (d <- Prop_ o ;; d (VRef lc) (key_value k)) w =
    (Ok tt, with_heap w (<[lp := record (prop_update k o pps)]> (w_heap w))).
Proof.
  intros Hc Hprops Hp Hk Ho. rewrite Prop_apply by assumption.
  erewrite bind_run by (apply (props_of_there _ _ _ _ Hc Hprops); reflexivity).
  rewrite set_member_at_key.
  erewrite set_member_plain; [| exact Hp | now right | now right ].
  reflexivity.
Qed.

(** C7: on the options object of a class that has no [props] yet, [Prop]
    with options [o1] on member [k] creates the [props] mapping with
    [props[k] == o1]; a second [Prop] on the same member with options [o2]
    leaves the same mapping with the one entry [k: o2]. *)
Theorem Prop_last_write_wins (w : world) (lc : loc) (proto : value)
    (ps : list (pkey * value)) (k : pkey) (o1 o2 : value) :
  w_heap w !! lc = Some (Obj KObject proto ps) -> plain proto ->
  prop_lookup "props" ps = None ->
  member_key k ->
  o1 <> VUndefined -> o2 <> VUndefined ->
  exists w1 w2 lp,
    (d <- Prop_ o1 ;; d (VRef lc) (key_value k)) w = (Ok tt, w1) /\
    get_in (w_heap w1) (VRef lc) "props" = Ok (VRef lp) /\
    get_in (w_heap w1) (VRef lp) k = Ok o1 /\
    (d <- Prop_ o2 ;; d (VRef lc) (key_value k)) w1 = (Ok tt, w2) /\
    get_in (w_heap w2) (VRef lc) "props" = Ok (VRef lp) /\
    get_in (w_heap w2) (VRef lp) k = Ok o2 /\
    w_heap w2 !! lp = Some (record [(k, o2)]).
Proof.
  intros Hc Hp Hno Hk H1 H2.
  exists (after_first_prop w lc proto ps k o1).
  eexists. exists (length (w_heap w)).
  assert (Hprops : prop_lookup "props" (ps ++ [(PStr "props", VRef (length (w_heap w)))])
                   = Some (VRef (length (w_heap w))))
    by now rewrite prop_lookup_app_new, Hno.
  split; [now apply Prop_first|].
  split. { eapply get_in_own; [unfold after_first_prop; heap_solve | exact Hprops]. }
  split. { eapply get_in_own; [unfold after_first_prop; heap_solve | apply prop_lookup_head]. }
  split.
  { eapply Prop_again; try assumption.
    - unfold after_first_prop; heap_solve.
    - exact Hprops.
    - unfold after_first_prop; heap_solve. }
  cbn [prop_update]. rewrite pkey_eqb_refl.
  split. { eapply get_in_own; [unfold after_first_prop; heap_solve | exact Hprops]. }
  split. { eapply get_in_own; [unfold after_first_prop; heap_solve | apply prop_lookup_head]. }
  unfold after_first_prop. heap_solve.
Qed.

Lemma Prop_last_write_wins_witness :
  exists w1 w2 lp,
    (d <- Prop_ (VRef 1) ;; d (VRef 0) (VString "title")) demo_class = (Ok tt, w1) /\
    get_in (w_heap w1) (VRef 0) "props" = Ok (VRef lp) /\
    get_in (w_heap w1) (VRef lp) "title" = Ok (VRef 1) /\
    (d <- Prop_ (VRef 2) ;; d (VRef 0) (VString "title")) w1 = (Ok tt, w2) /\
    get_in (w_heap w2) (VRef 0) "props" = Ok (VRef lp) /\
    get_in (w_heap w2) (VRef lp) "title" = Ok (VRef 2) /\
    w_heap w2 !! lp = Some (record [(PStr "title", VRef 2)]).
Proof.
  apply (Prop_last_write_wins demo_class 0 (VBuiltin (BProto ObjectProto)) []
           (PStr "title") (VRef 1) (VRef 2));
    [reflexivity | now right | reflexivity | discriminate | discriminate | discriminate].
Defined.

Lemma Model_apply event o c k w :
  o <> VUndefined ->
  (d <- Model event o ;; d c k) w =
    ((d <- Prop_ o ;; d c k) ;;;
     m <- object_literal [(PStr "prop", k); (PStr "event", or_else event k)] ;;
     set_member c "model" m) w.
Proof.
  intros H. unfold Model, Prop_. rewrite default_object_given by exact H.
  unfold createDecorator, bind, ret.
  destruct (props_of c w) as [[p|e|r] w1]; reflexivity.
Qed.

(** C8: [Model] puts the options under [props[k]] as [Prop] does, and
    writes [model = {prop: k, event: e}], [e] being the event name when one
    is given and [k] otherwise; after a later [Model] the options object
    has the later record as its one [model]. *)
Theorem Model_single_record (w : world) (lc : loc) (proto : value)
    (ps : list (pkey * value)) (k k' : pkey) (event event' o o' : value) :
  w_heap w !! lc = Some (Obj KObject proto ps) -> plain proto ->
  prop_lookup "props" ps = None -> prop_lookup "model" ps = None ->
  member_key k -> member_key k' ->
  o <> VUndefined -> o' <> VUndefined ->
  let c := VRef lc in
  let lp := length (w_heap w) in
  let lm := S lp in
  let lm' := S lm in
  let chosen (event : value) (k : pkey) :=
    if truthy event then event else key_value k in
  exists w1 w2,
    (forall v, (d <- Model event o ;; d c (key_value k)) v =
       ((d <- Prop_ o ;; d c (key_value k)) ;;;
        m <- object_literal [(PStr "prop", key_value k);
                             (PStr "event", chosen event k)] ;;
        set_member c "model" m) v) /\
    (d <- Model event o ;; d c (key_value k)) w = (Ok tt, w1) /\
    w_heap w1 !! lc =
      Some (Obj KObject proto (ps ++ [(PStr "props", VRef lp); (PStr "model", VRef lm)])) /\
    w_heap w1 !! lp = Some (record [(k, o)]) /\
    w_heap w1 !! lm =
      Some (record [(PStr "prop", key_value k); (PStr "event", chosen event k)]) /\
    (d <- Model event' o' ;; d c (key_value k')) w1 = (Ok tt, w2) /\
    w_heap w2 !! lc =
      Some (Obj KObject proto (ps ++ [(PStr "props", VRef lp); (PStr "model", VRef lm')])) /\
    w_heap w2 !! lp = Some (record (prop_update k' o' [(k, o)])) /\
    w_heap w2 !! lm' =
      Some (record [(PStr "prop", key_value k'); (PStr "event", chosen event' k')]).
Proof.
  intros Hc Hp Hnp Hnm Hk Hk' Ho Ho' c lp lm lm' chosen.
  subst c chosen lm' lm lp. cbv beta.
  set (lp := length (w_heap w)).
  assert (Hprops : prop_lookup "props" (ps ++ [(PStr "props", VRef lp)]) = Some (VRef lp))
    by now rewrite prop_lookup_app_new, Hnp.
  assert (Hmodel : prop_lookup "model" (ps ++ [(PStr "props", VRef lp)]) = None)
    by (rewrite prop_lookup_app, Hnm; reflexivity).
  assert (Hprops2 :
    prop_lookup "props" (ps ++ [(PStr "props", VRef lp); (PStr "model", VRef (S lp))])
    = Some (VRef lp)).
  { rewrite prop_lookup_app, Hnp. reflexivity. }
  subst lp.
  eexists. eexists.
  split; [intros v; now apply Model_apply|].
  split.
  { rewrite Model_apply by assumption.
    erewrite bind_run by (eapply Prop_first; eassumption).
    unfold object_literal. rewrite (bind_run _ _ _ _ _ (alloc_run _ _)).
    erewrite set_member_plain;
      [| unfold after_first_prop; heap_solve | assumption | now right].
    rewrite prop_update_fresh by exact Hmodel. rewrite <- app_assoc.
    reflexivity. }
  unfold after_first_prop.
  split; [heap_solve|].
  split; [heap_solve|].
  split; [heap_solve|].
  split.
  { rewrite Model_apply by assumption.
    erewrite bind_run.
    2:{ eapply Prop_again; try assumption.
        - heap_solve.
        - cbn [o_props app]. norm_len. exact Hprops2.
        - heap_solve. }
    unfold object_literal. rewrite (bind_run _ _ _ _ _ (alloc_run _ _)).
    erewrite set_member_plain; [| heap_solve | assumption | now right].
    reflexivity. }
  split; [|split].
  - cbn [w_heap with_heap]. rewrite list_lookup_insert_eq by len.
    rewrite (prop_update_app_absent _ _ _ _ Hnm).
    cbn [prop_update pkey_eqb String.eqb Ascii.eqb Bool.eqb].
    norm_len. reflexivity.
  - heap_solve.
  - heap_solve.
Qed.

Lemma Model_single_record_witness :
  exists w1 w2,
    (d <- Model (VString "change") (VRef 1) ;; d (VRef 0) (VString "checked"))
      demo_class = (Ok tt, w1) /\
    w_heap w1 !! 4 =
      Some (record [(PStr "prop", VString "checked"); (PStr "event", VString "change")]) /\
    (d <- Model VUndefined (VRef 2) ;; d (VRef 0) (VString "value")) w1 = (Ok tt, w2) /\
    w_heap w2 !! 0 = Some (record [(PStr "props", VRef 3); (PStr "model", VRef 5)]) /\
    w_heap w2 !! 5 =
      Some (record [(PStr "prop", VString "value"); (PStr "event", VString "value")]).
Proof.
  destruct (Model_single_record demo_class 0 (VBuiltin (BProto ObjectProto)) []
              (PStr "checked") (PStr "value") (VString "change") VUndefined
              (VRef 1) (VRef 2))
    as (w1 & w2 & _ & H1 & _ & _ & H3 & H4 & H5 & _ & H7);
    [reflexivity | now right | reflexivity | reflexivity
    | discriminate | discriminate | discriminate | discriminate |].
  exists w1, w2. repeat split; assumption.
Defined.

(** ** [Inject] (C6) *)

Lemma Inject_fresh w lc proto ps k options :
  w_heap w !! lc = Some (Obj KObject proto ps) -> plain proto ->
  prop_lookup "inject" ps = None -> member_key k ->
  Inject options (VRef lc) (key_value k) w =
    (Ok tt,
     with_heap w
       (<[length (w_heap w) := record [(k, or_else options (key_value k))]]>
          (<[lc := Obj KObject proto (ps ++ [(PStr "inject", VRef (length (w_heap w)))])]>
             (w_heap w ++ [empty_object])))).
Proof.
  intros Hc Hp Hno Hk. unfold Inject, createDecorator.
  step_get ltac:(apply (get_in_absent _ _ _ _ _ Hc Hp Hno); reflexivity).
  step. cbn [typeof_in jstype_eqb]. unfold new_object.
  rewrite bind_bind. step.
  erewrite bind_run by (apply set_member_plain; [heap_solve | assumption | now right]).
  rewrite prop_update_fresh by assumption.
  step_get ltac:(eapply get_in_own;
                   [heap_solve | cbn [o_props]; now rewrite prop_lookup_app_new, Hno]).
  step. erewrite is_array_in_ref by heap_solve. cbn [o_kind empty_object negb].
  step_get ltac:(eapply get_in_own;
                   [heap_solve | cbn [o_props]; now rewrite prop_lookup_app_new, Hno]).
  rewrite set_member_at_key.
  erewrite set_member_plain; [| heap_solve | now right | now right ].
  reflexivity.
Qed.

Lemma Inject_mapping w lc ob li proto pi k options :
  w_heap w !! lc = Some ob -> prop_lookup "inject" (o_props ob) = Some (VRef li) ->
  w_heap w !! li = Some (Obj KObject proto pi) -> plain proto -> member_key k ->
  Inject options (VRef lc) (key_value k) w =
    (Ok tt,
     with_heap w
       (<[li := Obj KObject proto (prop_update k (or_else options (key_value k)) pi)]>
          (w_heap w))).
Proof.
  intros Hc Hi Hl Hp Hk. unfold Inject, createDecorator.
  step_get ltac:(apply (get_in_own _ _ _ _ _ Hc Hi)).
  step. rewrite (typeof_in_ref _ _ _ Hl). cbn [o_kind jstype_eqb]. step.
  step_get ltac:(apply (get_in_own _ _ _ _ _ Hc Hi)).
  step. rewrite (is_array_in_ref _ _ _ Hl). cbn [o_kind negb].
  step_get ltac:(apply (get_in_own _ _ _ _ _ Hc Hi)).
  rewrite set_member_at_key.
  erewrite set_member_plain; [| exact Hl | assumption | now right ].
  reflexivity.
Qed.

Lemma Inject_array w lc ob la elems proto pa key options :
  w_heap w !! lc = Some ob -> prop_lookup "inject" (o_props ob) = Some (VRef la) ->
  w_heap w !! la = Some (Obj (KArray elems) proto pa) ->
  Inject options (VRef lc) key w = (Ok tt, w).
Proof.
  intros Hc Hi Hl. unfold Inject, createDecorator.
  step_get ltac:(apply (get_in_own _ _ _ _ _ Hc Hi)).
  step. rewrite (typeof_in_ref _ _ _ Hl). cbn [o_kind jstype_eqb]. step.
  step_get ltac:(apply (get_in_own _ _ _ _ _ Hc Hi)).
  step. rewrite (is_array_in_ref _ _ _ Hl). reflexivity.
Qed.

(** C6: for a member [k] of a class whose options object is an object
    literal, [Inject] writes [inject[k]]: the argument when there is one,
    [k] itself when there is none, into the mapping it creates when the
    class has no [inject] yet or into the mapping that is there; when
    [inject] is an array it writes nothing and the store is as before. *)
Theorem Inject_mapping_or_skip (w : world) (lc : loc) (proto : value)
    (ps : list (pkey * value)) (k : pkey) (options : value) :
  w_heap w !! lc = Some (Obj KObject proto ps) -> plain proto -> member_key k ->
  let c := VRef lc in
  let written := if truthy options then options else key_value k in
  (prop_lookup "inject" ps = None ->
   exists w1 li,
     Inject options c (key_value k) w = (Ok tt, w1) /\
     get_in (w_heap w1) c "inject" = Ok (VRef li) /\
     w_heap w1 !! li = Some (record [(k, written)]) /\
     get_in (w_heap w1) (VRef li) k = Ok written) /\
  (forall li proto' pi,
     prop_lookup "inject" ps = Some (VRef li) -> li <> lc ->
     w_heap w !! li = Some (Obj KObject proto' pi) -> plain proto' ->
     exists w1,
       Inject options c (key_value k) w = (Ok tt, w1) /\
       get_in (w_heap w1) c "inject" = Ok (VRef li) /\
       w_heap w1 !! li = Some (Obj KObject proto' (prop_update k written pi)) /\
       get_in (w_heap w1) (VRef li) k = Ok written) /\
  (forall la elems proto' pa,
     prop_lookup "inject" ps = Some (VRef la) ->
     w_heap w !! la = Some (Obj (KArray elems) proto' pa) ->
     Inject options c (key_value k) w = (Ok tt, w)).
Proof.
  intros Hc Hp Hk c written. subst c written. split; [|split].
  - intros Hno. eexists. exists (length (w_heap w)).
    split; [eapply Inject_fresh; eassumption|].
    split. { eapply get_in_own; [heap_solve |].
             cbn [o_props]. now rewrite prop_lookup_app_new, Hno. }
    split; [heap_solve|].
    eapply get_in_own; [heap_solve | apply prop_lookup_head].
  - intros li proto' pi Hi Hne Hl Hp'. eexists.
    split. { eapply Inject_mapping; [exact Hc | exact Hi | exact Hl | assumption..]. }
    split. { eapply get_in_own; [heap_solve | exact Hi]. }
    split; [heap_solve|].
    eapply get_in_own; [heap_solve | apply prop_update_same].
  - intros la elems proto' pa Hi Hl. eapply Inject_array; eauto.
Qed.

Lemma Inject_mapping_or_skip_witness :
  (exists w1 li,
     Inject VUndefined (VRef 0) (VString "foo") demo_class = (Ok tt, w1) /\
     get_in (w_heap w1) (VRef 0) "inject" = Ok (VRef li) /\
     get_in (w_heap w1) (VRef li) "foo" = Ok (VString "foo")) /\
  (exists w1,
     Inject (VRef 2) (VRef 0) (VString "baz") demo_inject_mapping = (Ok tt, w1) /\
     w_heap w1 !! 1 = Some (record [(PStr "foo", VString "foo"); (PStr "baz", VRef 2)])) /\
  Inject VUndefined (VRef 0) (VString "bar") demo_inject_array
    = (Ok tt, demo_inject_array).
Proof.
  split; [|split].
  - destruct (Inject_mapping_or_skip demo_class 0 (VBuiltin (BProto ObjectProto)) []
                (PStr "foo") VUndefined) as (H & _ & _);
      [reflexivity | now right | discriminate |].
    destruct (H eq_refl) as (w1 & li & H1 & H2 & _ & H4).
    exists w1, li. repeat split; assumption.
  - destruct (Inject_mapping_or_skip demo_inject_mapping 0
                (VBuiltin (BProto ObjectProto)) [(PStr "inject", VRef 1)]
                (PStr "baz") (VRef 2)) as (_ & H & _);
      [reflexivity | now right | discriminate |].
    destruct (H 1 (VBuiltin (BProto ObjectProto)) [(PStr "foo", VString "foo")])
      as (w1 & H1 & _ & H3 & _);
      [reflexivity | discriminate | reflexivity | now right |].
    exists w1. split; assumption.
  - destruct (Inject_mapping_or_skip demo_inject_array 0
                (VBuiltin (BProto ObjectProto)) [(PStr "inject", VRef 1)]
                (PStr "bar") VUndefined) as (_ & _ & H);
      [reflexivity | now right | discriminate |].
    exact (H 1 [VString "foo"] (VBuiltin (BProto ArrayProto)) [] eq_refl eq_refl).
Defined.

(** [__proto__] is not a member key in the sense above: on the object
    literal [Inject] creates, the write goes to the accessor of
    [Object.prototype], which ignores a string. *)
Example Inject_proto_accessor :
  exists w1,
    Inject VUndefined (VRef 0) (VString "__proto__") demo_class = (Ok tt, w1) /\
    w_heap w1 !! 3 = Some empty_object /\
    get_in (w_heap w1) (VRef 3) "__proto__" = Ok (VBuiltin (BProto ObjectProto)).
Proof. eexists. repeat split. Qed.

(** ** [Watch] (C5, C10) *)

Section Watching.

Variable host : nat -> callT -> value -> list value -> M value.
Variable n : nat.

(** The last statement of the callback, [watch[path].push({...})], when
    the entry is an array. *)
Lemma Watch_push w lw obw la elems path deep immediate handler :
  w_heap w !! lw = Some obw ->
  prop_lookup (PStr path) (o_props obw) = Some (VRef la) ->
  w_heap w !! la = Some (array elems) ->
  (entry <- get_member (VRef lw) (PStr path) ;;
   push <- get_member entry "push" ;;
   d <- object_literal [(PStr "handler", handler); (PStr "deep", deep);
                        (PStr "immediate", immediate)] ;;
   call host (S n) push entry [d] ;;;
   ret tt) w =
    (Ok tt,
     with_heap w
       (<[la := array (elems ++ [VRef (length (w_heap w))])]>
          (w_heap w ++ [descriptor handler deep immediate]))).
Proof.
  intros Hw Hp Ha.
  step_get ltac:(apply (get_in_own _ _ _ _ _ Hw Hp)).
  step_get ltac:(apply (get_in_array_push _ _ _ Ha)).
  unfold object_literal. step.
  erewrite bind_run by (apply call_push; heap_solve).
  reflexivity.
Qed.

(** A further [Watch] on a path whose entry is an array appends to that
    array, which is shared with whoever else holds it. *)
Lemma Watch_append w lc obc lw obw la elems path deep immediate handler :
  w_heap w !! lc = Some obc ->
  prop_lookup "watch" (o_props obc) = Some (VRef lw) ->
  w_heap w !! lw = Some obw -> o_kind obw = KObject ->
  prop_lookup (PStr path) (o_props obw) = Some (VRef la) ->
  w_heap w !! la = Some (array elems) ->
  Watch_callback (call host (S n)) path deep immediate (VRef lc) handler w =
    (Ok tt,
     with_heap w
       (<[la := array (elems ++ [VRef (length (w_heap w))])]>
          (w_heap w ++ [descriptor handler deep immediate]))).
Proof.
  intros Hc Hcw Hw Hk Hp Ha. unfold Watch_callback, createDecorator.
  step_get ltac:(apply (get_in_own _ _ _ _ _ Hc Hcw)).
  step. rewrite (typeof_in_ref _ _ _ Hw), Hk. cbn [jstype_eqb negb]. step.
  step_get ltac:(apply (get_in_own _ _ _ _ _ Hc Hcw)).
  step_get ltac:(apply (get_in_own _ _ _ _ _ Hw Hp)).
  step. rewrite (typeof_in_ref _ _ _ Ha). step.
  rewrite (is_array_in_ref _ _ _ Ha). cbn [array o_kind jstype_eqb andb negb]. step.
  now apply (Watch_push _ _ _ _ _ _ _ _ _ Hw Hp Ha).
Qed.

Lemma Watch_first w lc proto ps path deep immediate handler :
  w_heap w !! lc = Some (Obj KObject proto ps) -> plain proto ->
  prop_lookup "watch" ps = None ->
  Watch_callback (call host (S n)) path deep immediate (VRef lc) handler w =
    (Ok tt, after_first_watch w lc proto ps path handler deep immediate).
Proof.
  intros Hc Hp Hno. unfold Watch_callback, createDecorator.
  step_get ltac:(apply (get_in_absent _ _ _ _ _ Hc Hp Hno); reflexivity).
  step. cbn [typeof_in jstype_eqb negb]. unfold Object_create.
  rewrite bind_bind. step.
  erewrite bind_run by (apply set_member_plain; [heap_solve | assumption | now right]).
  rewrite prop_update_fresh by assumption.
  step_get ltac:(eapply get_in_own;
                   [heap_solve | cbn [o_props]; now rewrite prop_lookup_app_new, Hno]).
  step_get ltac:(eapply get_in_null_absent; [heap_solve | reflexivity]).
  step. step. cbn [typeof_in is_array_in jstype_eqb andb negb].
  unfold new_array. rewrite bind_bind. step.
  erewrite bind_run by (apply set_member_plain; [heap_solve | now left | now left]).
  etransitivity;
    [eapply Watch_push; [heap_solve | apply prop_lookup_head | heap_solve] |].
  unfold after_first_watch, with_heap. cbn [w_heap w_jobs w_emitted prop_update].
  norm_len. reflexivity.
Qed.

Lemma Watch_absent_entry w lc obc lw proto pw path deep immediate handler :
  w_heap w !! lc = Some obc ->
  prop_lookup "watch" (o_props obc) = Some (VRef lw) ->
  w_heap w !! lw = Some (Obj KObject proto pw) -> plain proto ->
  get_in (w_heap w) (VRef lw) (PStr path) = Ok VUndefined ->
  Watch_callback (call host (S n)) path deep immediate (VRef lc) handler w =
    (Ok tt, after_watch_entry w lw proto pw path [] handler deep immediate).
Proof.
  intros Hc Hcw Hw Hp Hg. unfold Watch_callback, createDecorator.
  step_get ltac:(apply (get_in_own _ _ _ _ _ Hc Hcw)).
  step. rewrite (typeof_in_ref _ _ _ Hw). cbn [o_kind jstype_eqb negb]. step.
  step_get ltac:(apply (get_in_own _ _ _ _ _ Hc Hcw)).
  step_get ltac:(exact Hg).
  step. step. cbn [typeof_in is_array_in jstype_eqb andb negb].
  unfold new_array. rewrite bind_bind. step.
  erewrite bind_run.
  2:{ apply set_member_data; [heap_solve | assumption |].
      eapply plain_read_not_accessor; [exact Hw | assumption | exact Hg | now left]. }
  etransitivity;
    [eapply Watch_push; [heap_solve | apply prop_update_same | heap_solve] |].
  unfold after_watch_entry, with_heap. cbn [w_heap w_jobs w_emitted app].
  norm_len. reflexivity.
Qed.

Lemma Watch_single_entry w lc obc lw proto pw le obe path deep immediate handler :
  w_heap w !! lc = Some obc ->
  prop_lookup "watch" (o_props obc) = Some (VRef lw) ->
  w_heap w !! lw = Some (Obj KObject proto pw) -> plain proto ->
  get_in (w_heap w) (VRef lw) (PStr path) = Ok (VRef le) ->
  w_heap w !! le = Some obe ->
  typeof_in (w_heap w) (VRef le) = TObject ->
  is_array_in (w_heap w) (VRef le) = false ->
  Watch_callback (call host (S n)) path deep immediate (VRef lc) handler w =
    (Ok tt, after_watch_entry w lw proto pw path [VRef le] handler deep immediate).
Proof.
  intros Hc Hcw Hw Hp Hg He Ht Ha. unfold Watch_callback, createDecorator.
  step_get ltac:(apply (get_in_own _ _ _ _ _ Hc Hcw)).
  step. rewrite (typeof_in_ref _ _ _ Hw). cbn [o_kind jstype_eqb negb]. step.
  step_get ltac:(apply (get_in_own _ _ _ _ _ Hc Hcw)).
  step_get ltac:(exact Hg).
  step. step. rewrite Ht, Ha. cbn [jstype_eqb andb negb].
  rewrite bind_bind. step_get ltac:(exact Hg).
  unfold new_array. rewrite bind_bind. step.
  erewrite bind_run.
  2:{ apply set_member_data; [heap_solve | assumption |].
      eapply plain_read_not_accessor; [exact Hw | assumption | exact Hg | eauto]. }
  etransitivity;
    [eapply Watch_push; [heap_solve | apply prop_update_same | heap_solve] |].
  unfold after_watch_entry, with_heap. cbn [w_heap w_jobs w_emitted app].
  norm_len. reflexivity.
Qed.

(** When the entry is a function, nothing is promoted or replaced, the
    function has no [push], and the call throws; the descriptor that was
    built for the call is all the store gained. *)
Lemma Watch_function_entry w lc obc lw obw f path deep immediate handler :
  w_heap w !! lc = Some obc ->
  prop_lookup "watch" (o_props obc) = Some (VRef lw) ->
  w_heap w !! lw = Some obw -> o_kind obw = KObject ->
  get_in (w_heap w) (VRef lw) (PStr path) = Ok f ->
  typeof_in (w_heap w) f = TFunction ->
  get_in (w_heap w) f "push" = Ok VUndefined ->
  Watch_callback (call host (S n)) path deep immediate (VRef lc) handler w =
    (Throw VTypeError,
     with_heap w (w_heap w ++ [descriptor handler deep immediate])).
Proof.
  intros Hc Hcw Hw Hk Hg Ht Hpush. unfold Watch_callback, createDecorator.
  step_get ltac:(apply (get_in_own _ _ _ _ _ Hc Hcw)).
  step. rewrite (typeof_in_ref _ _ _ Hw), Hk. cbn [jstype_eqb negb]. step.
  step_get ltac:(apply (get_in_own _ _ _ _ _ Hc Hcw)).
  step_get ltac:(exact Hg).
  step. step. rewrite Ht. cbn [jstype_eqb andb negb]. step.
  step_get ltac:(exact Hg).
  step_get ltac:(exact Hpush).
  unfold object_literal. step.
  erewrite bind_throw by apply call_undefined. reflexivity.
Qed.

End Watching.

Lemma Watch_defaults host n w path :
  Watch (call host n) path VUndefined w =
    (Ok (Watch_callback (call host n) path (VBool false) (VBool false)),
     with_heap w (w_heap w ++ [empty_object])).
Proof.
  unfold Watch, default_object, new_object. step.
  step_get ltac:(eapply get_in_absent;
                   [heap_solve | now right | reflexivity | reflexivity]).
  step_get ltac:(eapply get_in_absent;
                   [heap_solve | now right | reflexivity | reflexivity]).
  reflexivity.
Qed.

(** [Watch] with options: the members that are given are kept, the
    others are [false]. *)
Lemma Watch_options host n w path lo po :
  w_heap w !! lo = Some (record po) ->
  let member k :=
    match prop_lookup (PStr k) po with Some v => v | None => VUndefined end in
  Watch (call host n) path (VRef lo) w =
    (Ok (Watch_callback (call host n) path
           (default_false (member "deep")) (default_false (member "immediate"))),
     w).
Proof.
  intros Hl member. subst member. unfold Watch. cbn [default_object]. step.
  assert (Hget : forall k : string,
            plain_slot (VBuiltin (BProto ObjectProto)) [] (PStr k) = Ok Missing ->
            get_in (w_heap w) (VRef lo) (PStr k) =
              Ok (match prop_lookup (PStr k) po with Some v => v | None => VUndefined end)).
  { intros k Hk. rewrite (get_in_plain _ _ _ _ _ Hl) by now right.
    unfold plain_slot in *. destruct (prop_lookup (PStr k) po); [reflexivity|].
    cbn [prop_lookup List.find] in Hk. now rewrite Hk. }
  step_get ltac:(apply Hget; reflexivity).
  step_get ltac:(apply Hget; reflexivity).
  reflexivity.
Qed.

(** [Watch] itself: it reads [deep] and [immediate] off its options and
    hands the callback over; [extra] is the empty options object it makes
    when it is given none. *)
Lemma Watch_run host n w path o :
  watch_options_given (w_heap w) o ->
  exists extra,
    Watch (call host n) path o w =
      (Ok (Watch_callback (call host n) path
             (watch_option (w_heap w) o "deep")
             (watch_option (w_heap w) o "immediate")),
       with_heap w (w_heap w ++ extra)).
Proof.
  intros [-> | (lo & po & -> & Hl)].
  - exists [empty_object]. apply Watch_defaults.
  - exists []. rewrite (Watch_options host n w path lo po Hl).
    unfold watch_option. rewrite Hl. cbn [record o_props].
    assert (with_heap w (w_heap w ++ []) = w) as ->
      by (destruct w; unfold with_heap; cbn; now rewrite app_nil_r).
    do 2 f_equal.
    destruct (prop_lookup "deep" po) as [[]|], (prop_lookup "immediate" po) as [[]|];
      reflexivity.
Qed.

(** Options that are given stay given, with the same members, in a store
    that keeps their object. *)
Lemma watch_options_kept (h h' : heap) o :
  watch_options_given h o ->
  (forall lo ob, o = VRef lo -> h !! lo = Some ob -> h' !! lo = Some ob) ->
  watch_options_given h' o /\ forall k, watch_option h' o k = watch_option h o k.
Proof.
  intros [-> | (lo & po & -> & Hl)] Hkeep.
  - split; [now left | reflexivity].
  - pose proof (Hkeep lo _ eq_refl Hl) as Hl'. split.
    + right. eauto.
    + intros k. unfold watch_option. now rewrite Hl, Hl'.
Qed.

Section Accumulating.

Variable host : nat -> callT -> value -> list value -> M value.
Variable n : nat.

Lemma Watch_given_first w lc proto ps path o h1 :
  w_heap w !! lc = Some (Obj KObject proto ps) -> plain proto ->
  prop_lookup "watch" ps = None ->
  watch_options_given (w_heap w) o ->
  exists w1 lw la r1,
    (d <- Watch (call host (S n)) path o ;; d (VRef lc) h1) w = (Ok tt, w1) /\
    length (w_heap w) <= lw /\
    first_watch_left w w1 lc lw la r1 path []
      (descriptor h1 (watch_option (w_heap w) o "deep")
                  (watch_option (w_heap w) o "immediate")).
Proof.
  intros Hc Hp Hno Ho. destruct (Watch_run host (S n) w path o Ho) as [extra Hrun].
  set (w' := with_heap w (w_heap w ++ extra)) in *.
  assert (Hc' : w_heap w' !! lc = Some (Obj KObject proto ps)) by (subst w'; heap_solve).
  eexists. exists (length (w_heap w')), (S (length (w_heap w'))),
    (S (S (length (w_heap w')))).
  split.
  { erewrite bind_run by exact Hrun. apply (Watch_first host n w' lc proto ps); assumption. }
  split. { subst w'. cbn [w_heap with_heap]. rewrite length_app. lia. }
  unfold first_watch_left, after_first_watch. cbn [w_heap with_heap].
  split.
  { eexists. split; [heap_solve|]. cbn [o_props]. now rewrite prop_lookup_app_new, Hno. }
  split.
  { eexists. split; [heap_solve|]. split; [reflexivity | apply prop_lookup_head]. }
  split; [heap_solve|]. split; [heap_solve|]. split; [lia|].
  intros l ob Hl1 Hl2 Hl.
  assert (Hl' : w_heap w' !! l = Some ob) by (subst w'; heap_solve).
  heap_solve.
Qed.
Lemma Watch_given_absent w lc obc lw proto pw path o h1 :
  w_heap w !! lc = Some obc ->
  prop_lookup "watch" (o_props obc) = Some (VRef lw) -> lw <> lc ->
  w_heap w !! lw = Some (Obj KObject proto pw) -> plain proto ->
  get_in (w_heap w) (VRef lw) (PStr path) = Ok VUndefined ->
  watch_options_given (w_heap w) o ->
  exists w1 la r1,
    (d <- Watch (call host (S n)) path o ;; d (VRef lc) h1) w = (Ok tt, w1) /\
    first_watch_left w w1 lc lw la r1 path []
      (descriptor h1 (watch_option (w_heap w) o "deep")
                  (watch_option (w_heap w) o "immediate")).
Proof.
  intros Hc Hcw Hne Hw Hp Hg Ho.
  destruct (Watch_run host (S n) w path o Ho) as [extra Hrun].
  set (w' := with_heap w (w_heap w ++ extra)) in *.
  assert (Hc' : w_heap w' !! lc = Some obc) by (subst w'; heap_solve).
  assert (Hw' : w_heap w' !! lw = Some (Obj KObject proto pw)) by (subst w'; heap_solve).
  assert (Hg' : get_in (w_heap w') (VRef lw) (PStr path) = Ok VUndefined).
  { subst w'. cbn [w_heap with_heap].
    eapply get_in_similar; [|exact Hg]. apply similar_above.
    intros l ob Hl. rewrite lookup_app_l; [exact Hl | eapply lookup_lt_Some, Hl]. }
  eexists. exists (length (w_heap w')), (S (length (w_heap w'))).
  split.
  { erewrite bind_run by exact Hrun.
    apply (Watch_absent_entry host n w' lc obc lw proto pw); assumption. }
  unfold first_watch_left, after_watch_entry. cbn [w_heap with_heap app].
  split. { exists obc. split; [heap_solve | exact Hcw]. }
  split.
  { eexists. split; [heap_solve|]. split; [reflexivity | apply prop_update_same]. }
  split; [heap_solve|]. split; [heap_solve|]. split; [lia|].
  intros l ob Hl1 Hl2 Hl.
  assert (Hl' : w_heap w' !! l = Some ob) by (subst w'; heap_solve).
  heap_solve.
Qed.

Lemma Watch_given_single w lc obc lw proto pw le obe path o h1 :
  w_heap w !! lc = Some obc ->
  prop_lookup "watch" (o_props obc) = Some (VRef lw) -> lw <> lc ->
  w_heap w !! lw = Some (Obj KObject proto pw) -> plain proto ->
  get_in (w_heap w) (VRef lw) (PStr path) = Ok (VRef le) ->
  w_heap w !! le = Some obe ->
  typeof_in (w_heap w) (VRef le) = TObject ->
  is_array_in (w_heap w) (VRef le) = false ->
  watch_options_given (w_heap w) o ->
  exists w1 la r1,
    (d <- Watch (call host (S n)) path o ;; d (VRef lc) h1) w = (Ok tt, w1) /\
    first_watch_left w w1 lc lw la r1 path [VRef le]
      (descriptor h1 (watch_option (w_heap w) o "deep")
                  (watch_option (w_heap w) o "immediate")).
Proof.
  intros Hc Hcw Hne Hw Hp Hg He Ht Ha Ho.
  destruct (Watch_run host (S n) w path o Ho) as [extra Hrun].
  set (w' := with_heap w (w_heap w ++ extra)) in *.
  assert (Hold : forall l ob, w_heap w !! l = Some ob -> w_heap w' !! l = Some ob).
  { intros l ob Hl. subst w'. cbn [w_heap with_heap].
    rewrite lookup_app_l; [exact Hl | eapply lookup_lt_Some, Hl]. }
  assert (Hg' : get_in (w_heap w') (VRef lw) (PStr path) = Ok (VRef le))
    by (eapply get_in_similar; [apply similar_above, Hold | exact Hg]).
  assert (Ht' : typeof_in (w_heap w') (VRef le) = TObject).
  { rewrite (typeof_in_ref _ _ _ (Hold _ _ He)).
    now rewrite (typeof_in_ref _ _ _ He) in Ht. }
  assert (Ha' : is_array_in (w_heap w') (VRef le) = false).
  { rewrite (is_array_in_ref _ _ _ (Hold _ _ He)).
    now rewrite (is_array_in_ref _ _ _ He) in Ha. }
  eexists. exists (length (w_heap w')), (S (length (w_heap w'))).
  split.
  { erewrite bind_run by exact Hrun.
    apply (Watch_single_entry host n w' lc obc lw proto pw le obe); auto. }
  pose proof (Hold _ _ Hc) as Hc'. pose proof (Hold _ _ Hw) as Hw'.
  unfold first_watch_left, after_watch_entry. cbn [w_heap with_heap app].
  split. { exists obc. split; [heap_solve | exact Hcw]. }
  split.
  { eexists. split; [heap_solve|]. split; [reflexivity | apply prop_update_same]. }
  split; [heap_solve|]. split; [heap_solve|]. split; [lia|].
  intros l ob Hl1 Hl2 Hl. pose proof (Hold _ _ Hl) as Hl'. heap_solve.
Qed.

(** A further [Watch] on a path that holds an array. *)
Lemma Watch_given_again w1 lc obc lw obw la elems path o h2 :
  w_heap w1 !! lc = Some obc ->
  prop_lookup "watch" (o_props obc) = Some (VRef lw) ->
  w_heap w1 !! lw = Some obw -> o_kind obw = KObject ->
  prop_lookup (PStr path) (o_props obw) = Some (VRef la) ->
  w_heap w1 !! la = Some (array elems) ->
  watch_options_given (w_heap w1) o ->
  exists w2 r2,
    (d <- Watch (call host (S n)) path o ;; d (VRef lc) h2) w1 = (Ok tt, w2) /\
    get_in (w_heap w2) (VRef lc) "watch" = Ok (VRef lw) /\
    get_in (w_heap w2) (VRef lw) (PStr path) = Ok (VRef la) /\
    w_heap w2 !! la = Some (array (elems ++ [VRef r2])) /\
    w_heap w2 !! r2 =
      Some (descriptor h2 (watch_option (w_heap w1) o "deep")
                       (watch_option (w_heap w1) o "immediate")) /\
    (forall l ob, l <> la -> w_heap w1 !! l = Some ob -> w_heap w2 !! l = Some ob).
Proof.
  intros Hc Hcw Hw Hk Hp Ha Ho.
  destruct (Watch_run host (S n) w1 path o Ho) as [extra Hrun].
  set (w' := with_heap w1 (w_heap w1 ++ extra)) in *.
  assert (Hold : forall l ob, w_heap w1 !! l = Some ob -> w_heap w' !! l = Some ob).
  { intros l ob Hl. subst w'. cbn [w_heap with_heap].
    rewrite lookup_app_l; [exact Hl | eapply lookup_lt_Some, Hl]. }
  assert (Hne : lw <> la).
  { intros ->. rewrite Ha in Hw. inversion Hw; subst. discriminate. }
  assert (Hnc : lc <> la).
  { intros ->. rewrite Ha in Hc. inversion Hc; subst. discriminate. }
  pose proof (Hold _ _ Hc) as Hc'. pose proof (Hold _ _ Hw) as Hw'.
  pose proof (Hold _ _ Ha) as Ha'.
  eexists. exists (length (w_heap w')).
  split.
  { erewrite bind_run by exact Hrun.
    apply (Watch_append host n w' lc obc lw obw la elems); assumption. }
  cbn [w_heap with_heap].
  split. { eapply get_in_own; [heap_solve | exact Hcw]. }
  split. { eapply get_in_own; [heap_solve | exact Hp]. }
  split; [heap_solve|]. split; [heap_solve|].
  intros l ob Hl1 Hl. pose proof (Hold _ _ Hl) as Hl'. heap_solve.
Qed.

(** The two steps together. *)
Lemma Watch_given_twice w w1 lc lw la r1 path init d1 o2 h2 :
  first_watch_left w w1 lc lw la r1 path init d1 ->
  watch_options_given (w_heap w) o2 -> o2 <> VRef lc -> o2 <> VRef lw ->
  exists w2 r2,
    (d <- Watch (call host (S n)) path o2 ;; d (VRef lc) h2) w1 = (Ok tt, w2) /\
    get_in (w_heap w2) (VRef lc) "watch" = Ok (VRef lw) /\
    get_in (w_heap w2) (VRef lw) (PStr path) = Ok (VRef la) /\
    w_heap w2 !! la = Some (array (init ++ [VRef r1; VRef r2])) /\
    w_heap w2 !! r1 = Some d1 /\
    w_heap w2 !! r2 =
      Some (descriptor h2 (watch_option (w_heap w) o2 "deep")
                       (watch_option (w_heap w) o2 "immediate")).
Proof.
  intros ((obc & Hc & Hcw) & (obw & Hw & Hk & Hp) & Ha & Hr1 & Hne & Hkeep) Ho Hoc How.
  destruct (watch_options_kept (w_heap w) (w_heap w1) o2 Ho) as [Ho1 Hsame].
  { intros lo ob -> Hl. apply Hkeep; [congruence | congruence | exact Hl]. }
  destruct (Watch_given_again w1 lc obc lw obw la (init ++ [VRef r1]) path o2 h2
              Hc Hcw Hw Hk Hp Ha Ho1)
    as (w2 & r2 & Hrun & Hg1 & Hg2 & Ha2 & Hr2 & Hkeep2).
  exists w2, r2. rewrite <- app_assoc in Ha2. rewrite !Hsame in Hr2.
  repeat split; auto.
Qed.

End Accumulating.

(** C5: two [Watch] decorators on the same path, for the methods [h1] and
    then [h2], leave under [watch[path]] the array of the two descriptors
    [{handler, deep, immediate}] in that order.  [deep] and [immediate] of
    each are what the options of its [Watch] hold, and [false] for what
    they do not hold, or when no options are given.  This holds when the
    class has no [watch] yet (a mapping without prototype is created) and
    when a mapping is there in which the path reads [undefined]; when the
    path holds a single object that is not an array, the object comes
    first in the array. *)
Theorem Watch_accumulates
    (host : nat -> callT -> value -> list value -> M value) (n : nat)
    (w : world) (lc : loc) (proto : value) (ps : list (pkey * value))
    (path : string) (h1 h2 o1 o2 : value) :
  w_heap w !! lc = Some (Obj KObject proto ps) -> plain proto ->
  watch_options_given (w_heap w) o1 -> watch_options_given (w_heap w) o2 ->
  o2 <> VRef lc ->
  let c := VRef lc in
  let first := (d <- Watch (call host (S n)) path o1 ;; d c h1) in
  let second := (d <- Watch (call host (S n)) path o2 ;; d c h2) in
  let d1 := descriptor h1 (watch_option (w_heap w) o1 "deep")
                       (watch_option (w_heap w) o1 "immediate") in
  let d2 := descriptor h2 (watch_option (w_heap w) o2 "deep")
                       (watch_option (w_heap w) o2 "immediate") in
  Watch (call host (S n)) path VUndefined w =
    (Ok (Watch_callback (call host (S n)) path (VBool false) (VBool false)),
     with_heap w (w_heap w ++ [empty_object])) /\
  (prop_lookup "watch" ps = None ->
   exists w1 w2 lw la r1 r2,
     first w = (Ok tt, w1) /\ second w1 = (Ok tt, w2) /\
     get_in (w_heap w2) c "watch" = Ok (VRef lw) /\
     get_in (w_heap w2) (VRef lw) (PStr path) = Ok (VRef la) /\
     w_heap w2 !! la = Some (array [VRef r1; VRef r2]) /\
     w_heap w2 !! r1 = Some d1 /\
     w_heap w2 !! r2 = Some d2) /\
  (forall lw proto' pw,
     prop_lookup "watch" ps = Some (VRef lw) -> lw <> lc -> o2 <> VRef lw ->
     w_heap w !! lw = Some (Obj KObject proto' pw) -> plain proto' ->
     (get_in (w_heap w) (VRef lw) (PStr path) = Ok VUndefined ->
      exists w1 w2 la r1 r2,
        first w = (Ok tt, w1) /\ second w1 = (Ok tt, w2) /\
        get_in (w_heap w2) (VRef lw) (PStr path) = Ok (VRef la) /\
        w_heap w2 !! la = Some (array [VRef r1; VRef r2]) /\
        w_heap w2 !! r1 = Some d1 /\
        w_heap w2 !! r2 = Some d2) /\
     (forall le obe,
        get_in (w_heap w) (VRef lw) (PStr path) = Ok (VRef le) ->
        w_heap w !! le = Some obe ->
        typeof_in (w_heap w) (VRef le) = TObject ->
        is_array_in (w_heap w) (VRef le) = false ->
        exists w1 w2 la r1 r2,
          first w = (Ok tt, w1) /\ second w1 = (Ok tt, w2) /\
          get_in (w_heap w2) (VRef lw) (PStr path) = Ok (VRef la) /\
          w_heap w2 !! la = Some (array [VRef le; VRef r1; VRef r2]) /\
          w_heap w2 !! r1 = Some d1 /\
          w_heap w2 !! r2 = Some d2)).
Proof.
  intros Hc Hp Ho1 Ho2 Hoc c first second d1 d2. subst c first second d1 d2.
  split; [apply Watch_defaults|]. split.
  - intros Hno.
    destruct (Watch_given_first host n w lc proto ps path o1 h1 Hc Hp Hno Ho1)
      as (w1 & lw & la & r1 & Hrun1 & Hlw & Hleft).
    assert (How : o2 <> VRef lw).
    { intros ->. destruct Ho2 as [? | (lo & po & Heq & Hl)]; [discriminate|].
      inversion Heq; subst lo. apply lookup_lt_Some in Hl. lia. }
    destruct (Watch_given_twice host n w w1 lc lw la r1 path [] _ o2 h2 Hleft Ho2 Hoc How)
      as (w2 & r2 & Hrun2 & Hg1 & Hg2 & Ha & Hr1 & Hr2).
    exists w1, w2, lw, la, r1, r2. repeat split; assumption.
  - intros lw proto' pw Hcw Hne How Hw Hp'. split.
    + intros Hg.
      destruct (Watch_given_absent host n w lc _ lw proto' pw path o1 h1
                  Hc Hcw Hne Hw Hp' Hg Ho1) as (w1 & la & r1 & Hrun1 & Hleft).
      destruct (Watch_given_twice host n w w1 lc lw la r1 path [] _ o2 h2 Hleft Ho2 Hoc How)
        as (w2 & r2 & Hrun2 & Hg1 & Hg2 & Ha & Hr1 & Hr2).
      exists w1, w2, la, r1, r2. repeat split; assumption.
    + intros le obe Hg He Ht Ha.
      destruct (Watch_given_single host n w lc _ lw proto' pw le obe path o1 h1
                  Hc Hcw Hne Hw Hp' Hg He Ht Ha Ho1) as (w1 & la & r1 & Hrun1 & Hleft).
      destruct (Watch_given_twice host n w w1 lc lw la r1 path [VRef le] _ o2 h2
                  Hleft Ho2 Hoc How)
        as (w2 & r2 & Hrun2 & Hg1 & Hg2 & Ha2 & Hr1 & Hr2).
      exists w1, w2, la, r1, r2. repeat split; assumption.
Qed.

Lemma Watch_accumulates_witness :
  (exists w1 w2 la r1 r2,
     (d <- Watch (call idle_host 1) "value" (VRef 1) ;;
      d (VRef 0) (VString "onValue")) demo_watch_deep = (Ok tt, w1) /\
     (d <- Watch (call idle_host 1) "value" VUndefined ;;
      d (VRef 0) (VString "logValue")) w1 = (Ok tt, w2) /\
     w_heap w2 !! la = Some (array [VRef r1; VRef r2]) /\
     w_heap w2 !! r1 = Some (descriptor (VString "onValue") (VBool true) (VBool false)) /\
     w_heap w2 !! r2 = Some (descriptor (VString "logValue") (VBool false) (VBool false))) /\
  (exists w1 w2 la r1 r2,
     (d <- Watch (call idle_host 1) "value" VUndefined ;;
      d (VRef 0) (VString "onValue")) demo_watch = (Ok tt, w1) /\
     (d <- Watch (call idle_host 1) "value" VUndefined ;;
      d (VRef 0) (VString "logValue")) w1 = (Ok tt, w2) /\
     w_heap w2 !! la = Some (array [VRef 2; VRef r1; VRef r2])).
Proof.
  split.
  - destruct (Watch_accumulates idle_host 0 demo_watch_deep 0
                (VBuiltin (BProto ObjectProto)) [] "value"
                (VString "onValue") (VString "logValue") (VRef 1) VUndefined)
      as (_ & H & _);
      [ reflexivity | now right
      | right; exists 1, [(PStr "deep", VBool true)]; split; reflexivity
      | now left | discriminate |].
    destruct (H eq_refl) as (w1 & w2 & lw & la & r1 & r2 & H1 & H2 & _ & _ & H5 & H6 & H7).
    exists w1, w2, la, r1, r2. repeat split; assumption.
  - destruct (Watch_accumulates idle_host 0 demo_watch 0
                (VBuiltin (BProto ObjectProto)) [(PStr "watch", VRef 1)] "value"
                (VString "onValue") (VString "logValue") VUndefined VUndefined)
      as (_ & _ & H);
      [reflexivity | now right | now left | now left | discriminate |].
    destruct (H 1 (VBuiltin (BProto ObjectProto))
                [(PStr "value", VRef 2); (PStr "size", VRef 3)])
      as (_ & H');
      [reflexivity | discriminate | discriminate | reflexivity | now right |].
    destruct (H' 2 (record [(PStr "handler", VString "log")]))
      as (w1 & w2 & la & r1 & r2 & H1 & H2 & _ & H4 & _);
      [reflexivity | reflexivity | reflexivity | reflexivity |].
    exists w1, w2, la, r1, r2. repeat split; assumption.
Defined.


(** C10: when the entry of the path in the [watch] mapping is a function,
    [Watch] leaves the entry as it is, looks for [push] on the function,
    finds none, and the call throws a [TypeError]: nothing is accumulated.
    All the store gains is the descriptor built as the argument. *)
Theorem Watch_function_entry_throws
    (host : nat -> callT -> value -> list value -> M value) (n : nat)
    (w : world) (lc lw : loc) (obc obw : obj) (f : value)
    (path : string) (deep immediate handler : value) :
  w_heap w !! lc = Some obc ->
  prop_lookup "watch" (o_props obc) = Some (VRef lw) ->
  w_heap w !! lw = Some obw -> o_kind obw = KObject ->
  get_in (w_heap w) (VRef lw) (PStr path) = Ok f ->
  typeof_in (w_heap w) f = TFunction ->
  get_in (w_heap w) f "push" = Ok VUndefined ->
  let w' := with_heap w (w_heap w ++ [descriptor handler deep immediate]) in
  Watch_callback (call host (S n)) path deep immediate (VRef lc) handler w
    = (Throw VTypeError, w') /\
  get_in (w_heap w') (VRef lw) (PStr path) = Ok f /\
  (forall l ob, w_heap w !! l = Some ob -> w_heap w' !! l = Some ob).
Proof.
  intros Hc Hcw Hw Hk Hg Ht Hpush w'. subst w'.
  split; [eapply Watch_function_entry; eassumption|].
  split.
  - eapply get_in_similar; [apply similar_alloc | exact Hg].
  - intros l ob H. now apply lookup_alloc_old.
Qed.

Lemma Watch_function_entry_throws_witness :
  Watch_callback (call idle_host 1) "size" (VBool false) (VBool false)
    (VRef 0) (VString "onSize") demo_watch
  = (Throw VTypeError,
     with_heap demo_watch
       (w_heap demo_watch ++
        [descriptor (VString "onSize") (VBool false) (VBool false)])).
Proof.
  apply (Watch_function_entry_throws idle_host 0 demo_watch 0 1
           (record [(PStr "watch", VRef 1)])
           (record [(PStr "value", VRef 2); (PStr "size", VRef 3)])
           (VRef 3) "size" (VBool false) (VBool false) (VString "onSize"));
    reflexivity.
Defined.

(** ** [Provide] (C4) *)

Lemma Provide_first w lc proto ps orig k key :
  w_heap w !! lc = Some (Obj KObject proto ps) -> plain proto ->
  get_in (w_heap w) (VRef lc) "provide" = Ok orig ->
  unmanaged (w_heap w) orig -> member_key k ->
  Provide key (VRef lc) (key_value k) w =
    (Ok tt, after_first_provide w lc proto ps orig k key).
Proof.
  intros Hc Hp Hg Hun Hk. unfold Provide, createDecorator.
  step_get ltac:(exact Hg). step.
  assert (Hrest : forall managed,
    (if jstype_eqb (typeof_in (w_heap w) orig) TFunction
     then truthy managed = false else True) ->
    (provide <- (if negb (jstype_eqb (typeof_in (w_heap w) orig) TFunction)
                    || negb (truthy managed)
                 then
                   original <- get_member (VRef lc) "provide" ;;
                   f <- new_function (CProvide original) ;;
                   set_member (VRef lc) "provide" f ;;;
                   m <- new_object ;;
                   set_member f "managed" m ;;;
                   ret f
                 else ret orig) ;;
     managed <- get_member provide "managed" ;;
     set_member_at managed (key_value k) (or_else key (key_value k))) w =
    (Ok tt, after_first_provide w lc proto ps orig k key)).
  { intros managed Hm.
    assert (negb (jstype_eqb (typeof_in (w_heap w) orig) TFunction)
            || negb (truthy managed) = true) as ->.
    { destruct (jstype_eqb (typeof_in (w_heap w) orig) TFunction);
        [now rewrite Hm | reflexivity]. }
    rewrite bind_bind. step_get ltac:(exact Hg).
    unfold new_function, new_object. rewrite bind_bind. step.
    rewrite bind_bind.
    erewrite bind_run by (apply set_member_plain; [heap_solve | assumption | now right]).
    rewrite bind_bind. step. rewrite bind_bind.
    erewrite bind_run
      by (apply set_member_function; [heap_solve | reflexivity | discriminate]).
    step.
    step_get ltac:(eapply get_in_own; [heap_solve | apply prop_lookup_head]).
    rewrite set_member_at_key.
    erewrite set_member_plain; [| heap_solve | now right | now right].
    unfold after_first_provide, with_heap.
    cbn [w_heap w_jobs w_emitted prop_update]. norm_len. reflexivity. }
  destruct (jstype_eqb (typeof_in (w_heap w) orig) TFunction) eqn:Hfn.
  - destruct Hun as [Hun | (m & Hm & Hfalse)].
    + apply jstype_eqb_eq in Hfn. contradiction.
    + step_get ltac:(exact Hm). now apply Hrest.
  - step. now apply Hrest.
Qed.

Lemma Provide_again w lc obc lf obf c lm pm k key :
  w_heap w !! lc = Some obc ->
  prop_lookup "provide" (o_props obc) = Some (VRef lf) ->
  w_heap w !! lf = Some obf -> o_kind obf = KFunction c ->
  prop_lookup "managed" (o_props obf) = Some (VRef lm) ->
  w_heap w !! lm = Some (record pm) -> member_key k ->
  Provide key (VRef lc) (key_value k) w =
    (Ok tt,
     with_heap w
       (<[lm := record (prop_update k (or_else key (key_value k)) pm)]> (w_heap w))).
Proof.
  intros Hc Hcp Hf Hk Hfm Hm Hmk. unfold Provide, createDecorator.
  step_get ltac:(apply (get_in_own _ _ _ _ _ Hc Hcp)).
  step. rewrite (typeof_in_ref _ _ _ Hf), Hk. cbn [jstype_eqb].
  step_get ltac:(apply (get_in_own _ _ _ _ _ Hf Hfm)).
  cbn [truthy negb orb]. step.
  step_get ltac:(apply (get_in_own _ _ _ _ _ Hf Hfm)).
  rewrite set_member_at_key.
  erewrite set_member_plain; [| exact Hm | now right | now right].
  reflexivity.
Qed.

Section Providing.

Variable host : nat -> callT -> value -> list value -> M value.

(** The function installed by [Provide], run on an instance, with the
    mapping [{a: 'x', b: 'b'}] as [managed].  [v'] is the world in which
    the base value is ready. *)
Lemma provide_function_run call v v' lf obf lm orig this base va vb :
  (fn <- is_function orig ;; if fn then call orig this [] else ret orig) v
    = (Ok base, v') ->
  w_heap v' !! lf = Some obf ->
  prop_lookup "managed" (o_props obf) = Some (VRef lm) ->
  w_heap v' !! lm = Some (record [(PStr "a", VString "x"); (PStr "b", VString "b")]) ->
  get_in (w_heap v') this "a" = Ok va ->
  get_in (w_heap v') this "b" = Ok vb ->
  object_or_null (or_else base VNull) ->
  chain_ends (length (w_heap v')) (w_heap v') (or_else base VNull) = true ->
  let lrv := length (w_heap v') in
  provide_function call (VRef lf) orig this v =
    (Ok (VRef lrv),
     with_heap v'
       (<[lrv := Obj KObject (or_else base VNull) [(PStr "x", va); (PStr "b", vb)]]>
          (w_heap v' ++ [Obj KObject (or_else base VNull) []]))).
Proof.
  intros Hbase Hf Hfm Hm Ha Hb Hobj Hchain lrv. subst lrv.
  set (pr := or_else base VNull) in *.
  set (h := w_heap v') in *.
  assert (Hs1 : forall k, similar k h (h ++ [Obj KObject pr []]))
    by (intros; apply similar_alloc).
  assert (Hs2 : forall k, k <> PStr "x" ->
            similar k h (<[length h := Obj KObject pr [(PStr "x", va)]]>
                           (h ++ [Obj KObject pr []]))).
  { intros k Hk. eapply similar_trans; [apply Hs1|].
    eapply similar_write; [apply lookup_alloc_new | | reflexivity].
    unfold own_get, prop_lookup. cbn [o_props o_kind List.find fst].
    now rewrite (pkey_eqb_neq k "x"). }
  unfold provide_function.
  rewrite (bind_run _ _ _ _ _ (is_function_run _ _)).
  rewrite (bind_run _ _ _ _ _ (is_function_run _ _)) in Hbase.
  erewrite bind_run by exact Hbase. fold pr.
  rewrite (bind_run _ _ _ _ _ (Object_create_run _ _ Hobj)). fold h.
  step_get ltac:(eapply get_in_own; [heap_solve | exact Hfm]).
  erewrite bind_run by (apply for_in_record; heap_solve).
  change (enum_order (string_keys [(PStr "a", VString "x"); (PStr "b", VString "b")]))
    with ["a"; "b"].
  cbn [for_each]. rewrite !bind_bind.
  (* a *)
  step_get ltac:(eapply get_in_own; [heap_solve | exact Hfm]).
  step_get ltac:(eapply get_in_own; [heap_solve | reflexivity]).
  step_get ltac:(apply (get_in_similar _ _ _ _ _ (Hs1 _) Ha)).
  unfold set_member_at at 1. cbn [snd to_key]. rewrite ?bind_bind, bind_ret.
  erewrite bind_run.
  2:{ eapply (set_member_on_chain _ _ _ _ _ _ (length h));
        [heap_solve | cbn [w_heap with_heap]; norm_len; reflexivity
        | apply (chain_ends_similar _ _ _ _ _ (Hs1 (PStr "x")) Hchain)
        | reflexivity | discriminate]. }
  (* b *)
  rewrite !bind_bind.
  step_get ltac:(eapply get_in_own; [heap_solve | exact Hfm]).
  step_get ltac:(eapply get_in_own; [heap_solve | reflexivity]).
  step_get ltac:(apply (get_in_similar _ _ _ _ _ (Hs2 (PStr "b") ltac:(discriminate)) Hb)).
  unfold set_member_at at 1. cbn [snd to_key]. rewrite ?bind_bind, bind_ret.
  erewrite bind_run.
  2:{ eapply (set_member_on_chain _ _ _ _ _ _ (length h));
        [heap_solve | cbn [w_heap with_heap]; norm_len; reflexivity
        | apply (chain_ends_similar _ _ _ _ _ (Hs2 (PStr "b") ltac:(discriminate)) Hchain)
        | reflexivity | discriminate]. }
  rewrite !bind_ret.
  cbn [w_heap with_heap prop_update pkey_eqb String.eqb Ascii.eqb Bool.eqb].
  rewrite list_insert_insert_eq. reflexivity.
Qed.

End Providing.

(** C4: [Provide('x')] on field [a] and then [Provide()] on field [b]
    leave one function as [provide], with [a: 'x'] and [b: 'b'] in the
    mapping it carries as [managed]: the first decorator installs the
    function, unless one is there already, and the second finds it and
    only extends the mapping.  Called on an instance, the function returns
    a new object that holds the instance's [a] under [x] and its [b] under
    [b], and whose prototype is the base: the original [provide] value, or
    what it returns when it is a function, or [null] when that is falsy.
    The call is stated in any world [v] in which the function and its
    mapping are as the decorators left them, [v'] being the world in which
    the base is ready. *)
Theorem Provide_shared_function
    (host : nat -> callT -> value -> list value -> M value) (n : nat)
    (w : world) (lc : loc) (proto : value) (ps : list (pkey * value))
    (orig : value) (v v' : world) (lf lm : loc) (obf : obj)
    (this base va vb : value) :
  w_heap w !! lc = Some (Obj KObject proto ps) -> plain proto ->
  get_in (w_heap w) (VRef lc) "provide" = Ok orig ->
  w_heap v !! lf = Some (Obj (KFunction (CProvide orig)) (VBuiltin (BProto FunctionProto))
                             [(PStr "managed", VRef lm)]) ->
  (fn <- is_function orig ;; if fn then call host n orig this [] else ret orig) v
    = (Ok base, v') ->
  w_heap v' !! lf = Some obf ->
  prop_lookup "managed" (o_props obf) = Some (VRef lm) ->
  w_heap v' !! lm = Some (record [(PStr "a", VString "x"); (PStr "b", VString "b")]) ->
  get_in (w_heap v') this "a" = Ok va ->
  get_in (w_heap v') this "b" = Ok vb ->
  object_or_null (or_else base VNull) ->
  chain_ends (length (w_heap v')) (w_heap v') (or_else base VNull) = true ->
  let c := VRef lc in
  let lf0 := length (w_heap w) in
  let lm0 := S lf0 in
  let lrv := length (w_heap v') in
  (unmanaged (w_heap w) orig ->
   exists w1 w2,
     Provide (VString "x") c (VString "a") w = (Ok tt, w1) /\
     Provide VUndefined c (VString "b") w1 = (Ok tt, w2) /\
     get_in (w_heap w1) c "provide" = Ok (VRef lf0) /\
     get_in (w_heap w2) c "provide" = Ok (VRef lf0) /\
     w_heap w1 !! lf0 =
       Some (Obj (KFunction (CProvide orig)) (VBuiltin (BProto FunctionProto))
                 [(PStr "managed", VRef lm0)]) /\
     w_heap w2 !! lf0 = w_heap w1 !! lf0 /\
     w_heap w1 !! lm0 = Some (record [(PStr "a", VString "x")]) /\
     w_heap w2 !! lm0 =
       Some (record [(PStr "a", VString "x"); (PStr "b", VString "b")])) /\
  (forall lf1 obf1 c1 lm1 pm,
     orig = VRef lf1 -> w_heap w !! lf1 = Some obf1 -> o_kind obf1 = KFunction c1 ->
     prop_lookup "managed" (o_props obf1) = Some (VRef lm1) ->
     w_heap w !! lm1 = Some (record pm) -> lm1 <> lc ->
     exists w1 w2,
       Provide (VString "x") c (VString "a") w = (Ok tt, w1) /\
       Provide VUndefined c (VString "b") w1 = (Ok tt, w2) /\
       get_in (w_heap w2) c "provide" = Ok (VRef lf1) /\
       w_heap w2 !! lf1 = Some obf1 /\
       w_heap w2 !! lm1 =
         Some (record (prop_update "b" (VString "b")
                         (prop_update "a" (VString "x") pm)))) /\
  (exists v'',
     call host (S n) (VRef lf) this [] v = (Ok (VRef lrv), v'') /\
     w_heap v'' !! lrv =
       Some (Obj KObject (or_else base VNull) [(PStr "x", va); (PStr "b", vb)]) /\
     get_in (w_heap v'') (VRef lrv) "x" = Ok va /\
     get_in (w_heap v'') (VRef lrv) "b" = Ok vb).
Proof.
  intros Hc Hp Hg Hf Hbase Hf' Hfm Hm Ha Hb Hobj Hchain c lf0 lm0 lrv.
  subst c lf0 lm0 lrv. split; [|split].
  - intros Hun.
    exists (after_first_provide w lc proto ps orig (PStr "a") (VString "x")).
    eexists.
    split; [apply (Provide_first w lc proto ps orig (PStr "a") (VString "x"));
            assumption || discriminate|].
    split.
    { eapply (Provide_again _ _ _ _ _ _ _ _ (PStr "b"));
        [ unfold after_first_provide; heap_solve
        | apply prop_update_same
        | unfold after_first_provide; heap_solve
        | reflexivity
        | apply prop_lookup_head
        | unfold after_first_provide; heap_solve
        | discriminate ]. }
    unfold after_first_provide.
    split. { eapply get_in_own; [heap_solve | apply prop_update_same]. }
    split. { eapply get_in_own; [heap_solve | apply prop_update_same]. }
    split; [heap_solve|].
    split. { cbn [w_heap with_heap]. now rewrite list_lookup_insert_ne by len. }
    split; heap_solve.
  - intros lf1 obf1 c1 lm1 pm -> Hf1 Hk1 Hm1 Hr Hne.
    pose proof (plain_read_ref_own _ _ _ _ _ _ Hc Hp Hg) as Hown.
    assert (Hfm1 : lf1 <> lm1).
    { intros ->. rewrite Hr in Hf1. inversion Hf1; subst. discriminate. }
    eexists. eexists.
    split.
    { eapply (Provide_again _ _ _ _ _ _ _ _ (PStr "a"));
        [exact Hc | exact Hown | exact Hf1 | exact Hk1 | exact Hm1 | exact Hr
        | discriminate]. }
    split.
    { eapply (Provide_again _ _ _ _ _ _ _ _ (PStr "b"));
        [ heap_solve | exact Hown | heap_solve | exact Hk1 | exact Hm1
        | heap_solve | discriminate ]. }
    split. { eapply get_in_own; [heap_solve | exact Hown]. }
    split; heap_solve.
  - eexists. split.
    { erewrite call_function by (first [exact Hf | reflexivity]).
      cbn [run_code].
      eapply provide_function_run; eassumption. }
    split; [heap_solve|].
    split; (eapply get_in_own; [heap_solve | reflexivity]).
Qed.

Lemma Provide_shared_function_witness :
  (exists w1,
     Provide (VString "x") (VRef 0) (VString "a") demo_provide = (Ok tt, w1) /\
     Provide VUndefined (VRef 0) (VString "b") w1 = (Ok tt, demo_provided)) /\
  (exists v'',
     call idle_host 1 (VRef 3) (VRef 2) [] demo_provided = (Ok (VRef 5), v'') /\
     w_heap v'' !! 5 =
       Some (Obj KObject (VRef 1) [(PStr "x", VNumber 1); (PStr "b", VNumber 2)])).
Proof.
  destruct (Provide_shared_function idle_host 0 demo_provide 0
              (VBuiltin (BProto ObjectProto)) [(PStr "provide", VRef 1)] (VRef 1)
              demo_provided demo_provided 3 4
              (Obj (KFunction (CProvide (VRef 1))) (VBuiltin (BProto FunctionProto))
                   [(PStr "managed", VRef 4)])
              (VRef 2) (VRef 1) (VNumber 1) (VNumber 2))
    as (Hfirst & _ & (v'' & H3 & H4 & _));
    [ reflexivity | now right | reflexivity
    | reflexivity | reflexivity | reflexivity | reflexivity | reflexivity
    | reflexivity | reflexivity | exact I | reflexivity | ].
  destruct Hfirst as (w1 & w2 & H1 & H2 & _); [left; discriminate|].
  split.
  - exists w1. split; [exact H1|]. rewrite H2. f_equal.
    pose proof H1 as H1'. vm_compute in H1'. inversion H1'; subst w1.
    vm_compute in H2. now inversion H2.
  - exists v''. split; assumption.
Defined.

(** ** [Emit] (C1, C2, C9) *)

Lemma Emit_installs w ld proto pd event target key original :
  w_heap w !! ld = Some (Obj KObject proto pd) -> plain proto ->
  prop_lookup "value" pd = Some original ->
  Emit event target key (VRef ld) w = (Ok tt, after_Emit w ld proto pd event key original).
Proof.
  intros Hd Hp Hv. unfold Emit.
  step_get ltac:(eapply get_in_own; [exact Hd | exact Hv]).
  unfold new_function. step.
  erewrite set_member_plain; [| heap_solve | assumption | now right].
  reflexivity.
Qed.

Section Emitting.

Variable host : nat -> callT -> value -> list value -> M value.
Variable m : nat.

Lemma array_write_similar k (h : heap) la elems elems' :
  h !! la = Some (array elems) -> k <> PStr "length" -> index_of_key k = None ->
  similar k h (<[la := array elems']> h).
Proof.
  intros Ha Hl Hi. eapply similar_write; [exact Ha | | reflexivity].
  unfold own_get. cbn [array o_props o_kind]. unfold prop_lookup. cbn [List.find].
  rewrite (pkey_eqb_neq _ _ Hl), Hi. reflexivity.
Qed.

(** The arrow function [emit], in a world where the rest array of the
    call is intact and [$emit] of the instance is Vue's. *)
Lemma emit_run x event key this la arguments rv le obe :
  w_heap x !! la = Some (array arguments) ->
  get_in (w_heap x) this "$emit" = Ok (VRef le) ->
  w_heap x !! le = Some obe -> o_kind obe = KFunction CVueEmit ->
  emit (call host (S m)) event key this (VRef la) rv x =
    (Ok tt,
     World (<[la := array (emitted_args rv arguments)]> (w_heap x)) (w_jobs x)
           (w_emitted x ++
            [Emission this (or_else event (VString key)) (emitted_args rv arguments)])).
Proof.
  intros Ha Hg He Hk.
  assert (Hne : la <> le).
  { intros ->. rewrite Ha in He. inversion He; subst. discriminate. }
  assert (Hrest : forall x' args',
    w_heap x' = <[la := array args']> (w_heap x) ->
    (f <- get_member this "$emit" ;;
     argv <- array_elements (VRef la) ;;
     call host (S m) f this (or_else event (VString key) :: argv) ;;;
     ret tt) x' =
    (Ok tt, World (w_heap x') (w_jobs x')
                  (w_emitted x' ++ [Emission this (or_else event (VString key)) args']))).
  { intros x' args' Hx'.
    step_get ltac:(rewrite Hx';
                   apply (get_in_similar _ _ _ _ _
                            (array_write_similar (PStr "$emit") _ _ _ args' Ha
                               ltac:(discriminate) eq_refl) Hg)).
    unfold array_elements. rewrite ?bind_bind.
    erewrite (bind_run (read la)) by (apply read_run; rewrite Hx'; heap_solve).
    cbn [array o_kind]. step.
    erewrite bind_run.
    2:{ erewrite call_function;
          [| rewrite Hx', list_lookup_insert_ne by exact Hne; exact He | exact Hk].
        reflexivity. }
    reflexivity. }
  unfold emit. destruct rv;
    try (unfold array_unshift;
         rewrite bind_bind, (bind_run _ _ _ _ _ (read_run _ _ _ Ha));
         cbn [array o_kind o_proto o_props];
         rewrite (bind_run _ _ _ _ _ (write_run _ _ _));
         erewrite Hrest by reflexivity; reflexivity).
  rewrite bind_ret.
  erewrite (Hrest x arguments) by (symmetry; apply list_insert_id; exact Ha).
  cbn [emitted_args]. now rewrite (list_insert_id _ _ _ Ha).
Qed.

(** The wrapper, when the method returns a value [isPromise] rejects. *)
Lemma emitter_immediate w event key original this arguments rv w2 le obe :
  call host (S m) original this arguments
    (with_heap w (w_heap w ++ [array arguments])) = (Ok rv, w2) ->
  w_heap w2 !! length (w_heap w) = Some (array arguments) ->
  isPromise rv w2 = (Ok false, w2) ->
  get_in (w_heap w2) this "$emit" = Ok (VRef le) ->
  w_heap w2 !! le = Some obe -> o_kind obe = KFunction CVueEmit ->
  emitter (call host (S m)) event key original this arguments w =
    (Ok VUndefined,
     World (<[length (w_heap w) := array (emitted_args rv arguments)]> (w_heap w2))
           (w_jobs w2)
           (w_emitted w2 ++
            [Emission this (or_else event (VString key)) (emitted_args rv arguments)])).
Proof.
  intros Hcall Ha Himm Hg He Hk. unfold emitter, new_array. step.
  unfold array_elements. rewrite ?bind_bind.
  erewrite (bind_run (read _)) by (apply read_run; heap_solve).
  cbn [array o_kind]. step.
  erewrite bind_run by exact Hcall.
  erewrite bind_run by exact Himm.
  erewrite bind_run by (eapply emit_run; eassumption).
  reflexivity.
Qed.

(** The wrapper, when the method returns a value [isPromise] accepts: the
    callback is handed to [then], and that is all. *)
Lemma emitter_deferred w event key original this arguments rv w2 thenf :
  call host (S m) original this arguments
    (with_heap w (w_heap w ++ [array arguments])) = (Ok rv, w2) ->
  isPromise rv w2 = (Ok true, w2) ->
  get_in (w_heap w2) rv "then" = Ok thenf ->
  emitter (call host (S m)) event key original this arguments w =
    (call host (S m) thenf rv [VRef (length (w_heap w2))] ;;; ret VUndefined)
      (with_heap w2
         (w_heap w2 ++
          [function (CEmitThen event key this (VRef (length (w_heap w))))])).
Proof.
  intros Hcall Hprom Hthen. unfold emitter, new_array. step.
  unfold array_elements. rewrite ?bind_bind.
  erewrite (bind_run (read _)) by (apply read_run; heap_solve).
  cbn [array o_kind]. step.
  erewrite bind_run by exact Hcall.
  erewrite bind_run by exact Hprom. cbv beta iota.
  step_get ltac:(exact Hthen).
  unfold new_function. step.
  unfold bind.
  destruct (call host (S m) thenf rv [VRef (length (w_heap w2))] _) as [[r|e|a] w'];
    reflexivity.
Qed.

Lemma isPromise_native w p st :
  w_heap w !! p = Some (promise st) -> isPromise (VRef p) w = (Ok true, w).
Proof.
  intros Hp. unfold isPromise, instanceof_Promise, bind, lift, proto_of. rewrite Hp.
  cbn [promise o_proto]. destruct (length (w_heap w)); reflexivity.
Qed.

Lemma get_in_native_then (h : heap) p st :
  h !! p = Some (promise st) -> get_in h (VRef p) "then" = Ok (VBuiltin BPromiseThen).
Proof.
  intros Hp. unfold get_in. destruct (heap_nonempty _ _ _ Hp) as [k ->].
  cbn [find_slot]. rewrite Hp. destruct k; reflexivity.
Qed.

(** [then] with one callback on a pending promise: a derived promise and
    a reaction without rejection handler. *)
Lemma call_then_pending k x p rs cb :
  w_heap x !! p = Some (promise (Pending rs)) ->
  call host (S k) (VBuiltin BPromiseThen) (VRef p) [cb] x =
    (Ok (VRef (length (w_heap x))),
     with_heap x
       (<[p := promise (Pending (rs ++ [Reaction cb VUndefined (length (w_heap x))]))]>
          (w_heap x ++ [promise (Pending [])]))).
Proof.
  intros Hp. cbn [call typeof_in jstype_eqb run_builtin promise_then].
  rewrite (bind_run _ _ _ _ _ (read_run _ _ _ Hp)).
  cbn [promise o_kind o_proto o_props nth].
  rewrite (bind_run _ _ _ _ _ (alloc_run _ _)).
  rewrite (bind_run _ _ _ _ _ (write_run _ _ _)).
  reflexivity.
Qed.

(** [then] on a native promise in any state returns without a call of
    [$emit]: it registers the reaction or queues its job. *)
Lemma call_then_quiet k x p st cb :
  w_heap x !! p = Some (promise st) ->
  exists x',
    call host (S k) (VBuiltin BPromiseThen) (VRef p) [cb] x
      = (Ok (VRef (length (w_heap x))), x') /\
    w_emitted x' = w_emitted x.
Proof.
  intros Hp. cbn [call typeof_in jstype_eqb run_builtin promise_then].
  rewrite (bind_run _ _ _ _ _ (read_run _ _ _ Hp)).
  cbn [promise o_kind o_proto o_props nth].
  rewrite (bind_run _ _ _ _ _ (alloc_run _ _)).
  destruct st; eexists; (split; [reflexivity | reflexivity]).
Qed.

Lemma settle_pending x p rs fulfilled v :
  w_heap x !! p = Some (promise (Pending rs)) ->
  settle p fulfilled v x =
    (Ok tt,
     World (<[p := promise (if fulfilled then Fulfilled v else Rejected v)]> (w_heap x))
           (w_jobs x ++ map (reaction_job fulfilled v) rs) (w_emitted x)).
Proof.
  intros Hp. unfold settle.
  rewrite (bind_run _ _ _ _ _ (read_run _ _ _ Hp)).
  cbn [promise o_kind o_proto o_props].
  rewrite (bind_run _ _ _ _ _ (write_run _ _ _)). reflexivity.
Qed.

(** The callback given to [then], called with the settled value. *)
Lemma call_emit_callback x lcb obcb event key this la arguments this0 sv le obe :
  w_heap x !! lcb = Some obcb ->
  o_kind obcb = KFunction (CEmitThen event key this (VRef la)) ->
  w_heap x !! la = Some (array arguments) ->
  get_in (w_heap x) this "$emit" = Ok (VRef le) ->
  w_heap x !! le = Some obe -> o_kind obe = KFunction CVueEmit ->
  call host (S (S m)) (VRef lcb) this0 [sv] x =
    (Ok VUndefined,
     World (<[la := array (emitted_args sv arguments)]> (w_heap x)) (w_jobs x)
           (w_emitted x ++
            [Emission this (or_else event (VString key)) (emitted_args sv arguments)])).
Proof.
  intros Hcb Hk Ha Hg He Hke.
  erewrite call_function by (first [exact Hcb | exact Hk]).
  cbn [run_code nth].
  erewrite bind_run by (eapply emit_run; eassumption).
  reflexivity.
Qed.

Lemma promise_write_similar k (h : heap) p st st' :
  h !! p = Some (promise st) -> similar k h (<[p := promise st']> h).
Proof. intros Hp. eapply similar_write; [exact Hp | reflexivity | reflexivity]. Qed.

Lemma awaiting_fulfilled w2 p event key this la arguments le obe sv :
  w_heap w2 !! p = Some (promise (Pending [])) ->
  w_heap w2 !! la = Some (array arguments) ->
  get_in (w_heap w2) this "$emit" = Ok (VRef le) ->
  w_heap w2 !! le = Some obe -> o_kind obe = KFunction CVueEmit ->
  exists w5,
    (fulfill_promise p sv ;;; run_jobs host (S (S (S m))))
      (awaiting w2 p event key this la) = (Ok tt, w5) /\
    w_jobs w5 = [] /\
    w_emitted w5 =
      w_emitted w2 ++
      [Emission this (or_else event (VString key)) (emitted_args sv arguments)].
Proof.
  intros Hp Ha Hg He Hk.
  assert (Hpa : p <> la) by (intros ->; rewrite Ha in Hp; discriminate).
  assert (Hpe : p <> le).
  { intros ->. rewrite He in Hp. inversion Hp; subst. discriminate. }
  set (lcb := length (w_heap w2)).
  set (cb := function (CEmitThen event key this (VRef la))).
  set (h3 := (w_heap w2 ++ [cb]) ++ [promise (Pending [])]).
  assert (Hs : similar (PStr "$emit") (w_heap w2)
                 (<[p := promise (Fulfilled sv)]>
                    (<[p := promise (Pending [Reaction (VRef lcb) VUndefined (S lcb)])]> h3))).
  { eapply similar_trans; [apply similar_alloc|].
    eapply similar_trans; [apply similar_alloc|]. fold cb h3.
    eapply similar_trans;
      [eapply (promise_write_similar _ _ p (Pending [])); subst h3; heap_solve|].
    eapply promise_write_similar. subst h3. heap_solve. }
  eexists. unfold fulfill_promise, awaiting. fold lcb cb h3.
  erewrite bind_run by (apply settle_pending; subst h3; heap_solve).
  cbn [run_jobs w_jobs w_heap w_emitted map reaction_job app].
  unfold run_job at 1.
  rewrite bind_bind, (bind_run _ _ _ _ _ (is_function_run _ _)).
  erewrite typeof_in_ref by (subst h3; heap_solve). cbn [cb function o_kind jstype_eqb].
  unfold bind at 1.
  erewrite call_emit_callback;
    [ | subst h3; heap_solve | reflexivity | subst h3; heap_solve
      | apply (get_in_similar _ _ _ _ _ Hs Hg) | subst h3; heap_solve | exact Hk ].
  cbn [resolve_promise]. unfold fulfill_promise.
  erewrite settle_pending by (subst h3 lcb; heap_solve).
  cbn [w_jobs w_heap w_emitted map app]. cbn [run_jobs w_jobs].
  repeat split; reflexivity.
Qed.

Lemma awaiting_rejected w2 p event key this la r :
  w_heap w2 !! p = Some (promise (Pending [])) ->
  exists w6,
    (reject_promise p r ;;; run_jobs host (S (S (S m))))
      (awaiting w2 p event key this la) = (Ok tt, w6) /\
    w_jobs w6 = [] /\
    w_emitted w6 = w_emitted w2 /\
    w_heap w6 !! S (length (w_heap w2)) = Some (promise (Rejected r)).
Proof.
  intros Hp.
  set (lcb := length (w_heap w2)).
  set (cb := function (CEmitThen event key this (VRef la))).
  set (h3 := (w_heap w2 ++ [cb]) ++ [promise (Pending [])]).
  eexists. unfold reject_promise, awaiting. fold lcb cb h3.
  erewrite bind_run by (apply settle_pending; subst h3; heap_solve).
  cbn [run_jobs w_jobs w_heap w_emitted map reaction_job app].
  unfold run_job at 1.
  rewrite bind_bind, (bind_run _ _ _ _ _ (is_function_run _ _)).
  cbn [typeof_in jstype_eqb]. unfold reject_promise.
  erewrite bind_run by (apply settle_pending; subst h3 lcb; heap_solve).
  cbn [w_jobs w_heap w_emitted map app]. cbn [run_jobs w_jobs].
  repeat split; try reflexivity.
  cbn [w_heap]. subst h3 lcb. heap_solve.
Qed.

End Emitting.



(** C3, amended: for a method name of ASCII characters, the name
    [hyphenate] gives is the method name with every character
    lower-cased, the leading one included, and with a hyphen before each
    upper-case letter that follows a letter, a digit or an underscore.
    [Emit(event)] installs a function that closes over that name, and
    every emission of the function, at once for an immediate value or from
    the callback it hands to [then], is named [event] when an event name
    is given (a non-empty string, used as it is) and by that name
    otherwise. *)
Theorem event_name_lower_hyphen_case
    (host : nat -> callT -> value -> list value -> M value) (m : nat)
    (w0 : world) (ld : loc) (proto : value) (pd : list (pkey * value))
    (target event : value) (name : string) (original this : value)
    (arguments : list value) (rv : value) (w2 : world) (le : loc) (obe : obj) :
  ascii_only name = true ->
  w_heap w0 !! ld = Some (Obj KObject proto pd) -> plain proto ->
  prop_lookup "value" pd = Some original ->
  let w := after_Emit w0 ld proto pd event name original in
  let lw := length (w_heap w0) in
  let la := S lw in
  let chosen := if truthy event then event else VString (lower_hyphen_case name) in
  call host (S m) original this arguments
    (with_heap w (w_heap w ++ [array arguments])) = (Ok rv, w2) ->
  w_heap w2 !! la = Some (array arguments) ->
  get_in (w_heap w2) this "$emit" = Ok (VRef le) ->
  w_heap w2 !! le = Some obe -> o_kind obe = KFunction CVueEmit ->
  hyphenate name = lower_hyphen_case name /\
  Emit event target name (VRef ld) w0 = (Ok tt, w) /\
  get_in (w_heap w) (VRef ld) "value" = Ok (VRef lw) /\
  w_heap w !! lw = Some (function (CEmitter event (lower_hyphen_case name) original)) /\
  (isPromise rv w2 = (Ok false, w2) ->
   exists w',
     call host (S (S m)) (VRef lw) this arguments w = (Ok VUndefined, w') /\
     w_emitted w' = w_emitted w2 ++ [Emission this chosen (emitted_args rv arguments)]) /\
  (forall thenf,
     isPromise rv w2 = (Ok true, w2) ->
     get_in (w_heap w2) rv "then" = Ok thenf ->
     call host (S (S m)) (VRef lw) this arguments w =
       (call host (S m) thenf rv [VRef (length (w_heap w2))] ;;; ret VUndefined)
         (with_heap w2
            (w_heap w2 ++
             [function (CEmitThen event (lower_hyphen_case name) this (VRef la))]))) /\
  (forall x lf this0 sv,
     w_heap x !! lf =
       Some (function (CEmitThen event (lower_hyphen_case name) this (VRef la))) ->
     w_heap x !! la = Some (array arguments) ->
     get_in (w_heap x) this "$emit" = Ok (VRef le) ->
     w_heap x !! le = Some obe ->
     exists x',
       call host (S (S m)) (VRef lf) this0 [sv] x = (Ok VUndefined, x') /\
       w_emitted x' = w_emitted x ++ [Emission this chosen (emitted_args sv arguments)]).
Proof.
  intros _ Hd Hp Hv w lw la chosen Hcall Ha Hg He Hk. subst w lw la chosen.
  assert (Hlen : length (w_heap (after_Emit w0 ld proto pd event name original))
                 = S (length (w_heap w0)))
    by (unfold after_Emit; cbn [w_heap with_heap]; norm_len; reflexivity).
  assert (Hf : w_heap (after_Emit w0 ld proto pd event name original)
                 !! length (w_heap w0)
               = Some (function (CEmitter event (hyphenate name) original)))
    by (unfold after_Emit; heap_solve).
  rewrite <- (hyphenate_lower_hyphen_case name).
  split; [reflexivity|].
  split; [now apply Emit_installs|].
  split. { eapply get_in_own; [unfold after_Emit; heap_solve | apply prop_update_same]. }
  split; [exact Hf|].
  split; [|split].
  - intros Himm. eexists. split.
    { erewrite call_function by (first [exact Hf | reflexivity]).
      cbn [run_code].
      eapply emitter_immediate; try eassumption.
      rewrite Hlen. exact Ha. }
    reflexivity.
  - intros thenf Hprom Hthen.
    erewrite call_function by (first [exact Hf | reflexivity]).
    cbn [run_code].
    rewrite (emitter_deferred host m _ event (hyphenate name) original this arguments
               rv w2 thenf Hcall Hprom Hthen).
    now rewrite Hlen.
  - intros x lf this0 sv Hcb Hxa Hxg Hxe. eexists. split.
    { eapply call_emit_callback;
        [exact Hcb | reflexivity | exact Hxa | exact Hxg | exact Hxe | exact Hk]. }
    reflexivity.
Qed.

Lemma event_name_lower_hyphen_case_witness :
  hyphenate "DoThing" = lower_hyphen_case "DoThing"
  /\ lower_hyphen_case "DoThing" = "do-thing"
  /\ (exists w',
        call five_host 2 (VRef 4) (VRef 2) [VNumber 1; VNumber 2]
          (after_Emit demo_method 0 (VBuiltin (BProto ObjectProto))
             [(PStr "value", VRef 1)] VUndefined "DoThing" (VRef 1))
          = (Ok VUndefined, w') /\
        w_emitted w' =
          [Emission (VRef 2) (VString "do-thing") [VNumber 5; VNumber 1; VNumber 2]])
  /\ (exists w',
        call five_host 2 (VRef 4) (VRef 2) [VNumber 1; VNumber 2] demo_method_done
          = (Ok VUndefined, w') /\
        w_emitted w' =
          [Emission (VRef 2) (VString "done") [VNumber 5; VNumber 1; VNumber 2]]).
Proof.
  destruct (event_name_lower_hyphen_case five_host 0 demo_method 0
              (VBuiltin (BProto ObjectProto)) [(PStr "value", VRef 1)]
              VUndefined VUndefined "DoThing" (VRef 1) (VRef 2)
              [VNumber 1; VNumber 2] (VNumber 5)
              (with_heap
                 (after_Emit demo_method 0 (VBuiltin (BProto ObjectProto))
                    [(PStr "value", VRef 1)] VUndefined "DoThing" (VRef 1))
                 (w_heap
                    (after_Emit demo_method 0 (VBuiltin (BProto ObjectProto))
                       [(PStr "value", VRef 1)] VUndefined "DoThing" (VRef 1))
                  ++ [array [VNumber 1; VNumber 2]]))
              3 (function CVueEmit)) as (H1 & _ & _ & _ & H5 & _);
    try reflexivity; [now right|].
  destruct (event_name_lower_hyphen_case five_host 0 demo_method 0
              (VBuiltin (BProto ObjectProto)) [(PStr "value", VRef 1)]
              VUndefined (VString "done") "doThing" (VRef 1) (VRef 2)
              [VNumber 1; VNumber 2] (VNumber 5)
              (with_heap demo_method_done
                 (w_heap demo_method_done ++ [array [VNumber 1; VNumber 2]]))
              3 (function CVueEmit)) as (_ & _ & _ & _ & H5' & _);
    try reflexivity; [now right|].
  split; [exact H1|]. split; [reflexivity|].
  split; [exact (H5 eq_refl) | exact (H5' eq_refl)].
Defined.

Lemma emitter_result host fuel event key original this arguments w r w' :
  emitter (call host fuel) event key original this arguments w = (Ok r, w') ->
  r = VUndefined.
Proof.
  unfold emitter. intros H.
  repeat (apply bind_Ok_inv in H; destruct H as (? & ? & _ & H)).
  now inversion H.
Qed.

(** C9: the function [Emit] installs returns [undefined] whenever it
    returns, whatever the method returned; and it does return when the
    method returns an immediate value and [$emit] is Vue's, or a pending
    native promise: what the method returned, the promise included, is
    not handed to the caller. *)
Theorem emitter_returns_undefined
    (host : nat -> callT -> value -> list value -> M value) (m : nat)
    (w : world) (lw : loc) (event : value) (key : string)
    (original this : value) (arguments : list value) (rv : value) (w2 : world) :
  w_heap w !! lw = Some (function (CEmitter event key original)) ->
  call host (S m) original this arguments
    (with_heap w (w_heap w ++ [array arguments])) = (Ok rv, w2) ->
  (forall fuel r w',
     call host fuel (VRef lw) this arguments w = (Ok r, w') -> r = VUndefined) /\
  (forall le obe,
     isPromise rv w2 = (Ok false, w2) ->
     w_heap w2 !! length (w_heap w) = Some (array arguments) ->
     get_in (w_heap w2) this "$emit" = Ok (VRef le) ->
     w_heap w2 !! le = Some obe -> o_kind obe = KFunction CVueEmit ->
     exists w', call host (S (S m)) (VRef lw) this arguments w = (Ok VUndefined, w')) /\
  (forall p rs,
     rv = VRef p -> w_heap w2 !! p = Some (promise (Pending rs)) ->
     exists w', call host (S (S m)) (VRef lw) this arguments w = (Ok VUndefined, w')).
Proof.
  intros Hw Hcall. split; [|split].
  - intros [|fuel] r w' H; [discriminate|].
    erewrite call_function in H by (first [exact Hw | reflexivity]).
    cbn [run_code] in H. now apply emitter_result in H.
  - intros le obe Himm Ha Hg He Hk. eexists.
    erewrite call_function by (first [exact Hw | reflexivity]).
    cbn [run_code]. eapply emitter_immediate; eassumption.
  - intros p rs -> Hp. eexists.
    erewrite call_function by (first [exact Hw | reflexivity]).
    cbn [run_code].
    erewrite emitter_deferred;
      [| exact Hcall | eapply isPromise_native; exact Hp
       | eapply get_in_native_then; exact Hp].
    erewrite bind_run by (apply call_then_pending; heap_solve).
    reflexivity.
Qed.

Lemma emitter_returns_undefined_witness :
  exists w',
    call five_host 2 (VRef 4) (VRef 2) [VNumber 1; VNumber 2]
      (after_Emit demo_method 0 (VBuiltin (BProto ObjectProto))
         [(PStr "value", VRef 1)] VUndefined "doThing" (VRef 1))
    = (Ok VUndefined, w').
Proof.
  destruct (emitter_returns_undefined five_host 0
              (after_Emit demo_method 0 (VBuiltin (BProto ObjectProto))
                 [(PStr "value", VRef 1)] VUndefined "doThing" (VRef 1))
              4 VUndefined "do-thing" (VRef 1) (VRef 2) [VNumber 1; VNumber 2]
              (VNumber 5) demo_method_called) as (_ & H & _);
    [reflexivity | reflexivity |].
  exact (H 3 (function CVueEmit) eq_refl eq_refl eq_refl eq_refl eq_refl).
Defined.

Lemma chain_has_promise_proto_defined n h v :
  chain_ends n h v = true -> exists b, chain_has_promise_proto n h v = Ok b.
Proof.
  revert v. induction n as [|n IH]; intros v Hc;
    destruct v as [| | | | | |l|[[]| | |]|];
    cbn [chain_ends chain_has_promise_proto] in *; eauto.
  - destruct (h !! l); discriminate.
  - destruct (h !! l); [eauto | discriminate].
Qed.

(** An object with a [then] that is a function passes [isPromise],
    whether or not it is a promise. *)
Lemma isPromise_callable_then w l ob thenf :
  w_heap w !! l = Some ob ->
  chain_ends (length (w_heap w)) (w_heap w) (o_proto ob) = true ->
  get_in (w_heap w) (VRef l) "then" = Ok thenf ->
  typeof_in (w_heap w) thenf = TFunction ->
  isPromise (VRef l) w = (Ok true, w).
Proof.
  intros Hl Hc Hg Ht. unfold isPromise, instanceof_Promise.
  destruct (chain_has_promise_proto_defined _ _ _ Hc) as [b Hb].
  assert (Hinst : lift (fun h => chain_has_promise_proto (length h) h (proto_of h (VRef l))) w
                  = (Ok b, w)).
  { unfold lift, proto_of. now rewrite Hl, Hb. }
  erewrite bind_run by exact Hinst.
  destruct b; [reflexivity|]. cbn [truthy].
  step_get ltac:(exact Hg).
  rewrite is_function_run, Ht. reflexivity.
Qed.

(** C2: when the value the method returns passes [isPromise], the
    wrapper emits nothing itself: it builds the callback and hands it to
    [then] as the only argument.  A native promise passes, and so does
    every object whose [then] is a function: for such an object the
    wrapper returns when [then] returns, in the world [then] left, and
    throws what [then] throws.  For a pending native promise [then]
    registers a reaction without rejection handler, and leaves the trace
    of [$emit] and the job queue as the method left them.  The callback,
    called with the settled value, emits it in the place of the return
    value.  So for a promise nobody else waits for: once it is fulfilled
    with [sv] and the queue has run, [$emit] has been called once, with
    [sv] before the arguments; once it is rejected and the queue has run,
    [$emit] has not been called, and the rejection has passed to the
    derived promise. *)
Theorem Emit_deferred_value
    (host : nat -> callT -> value -> list value -> M value) (m : nat)
    (w : world) (event : value) (key : string) (original this : value)
    (arguments : list value) (rv : value) (w2 : world) :
  call host (S m) original this arguments
    (with_heap w (w_heap w ++ [array arguments])) = (Ok rv, w2) ->
  let la := length (w_heap w) in
  let lcb := length (w_heap w2) in
  let cb := function (CEmitThen event key this (VRef la)) in
  let wrapper := emitter (call host (S m)) event key original this arguments in
  (forall thenf,
     isPromise rv w2 = (Ok true, w2) ->
     get_in (w_heap w2) rv "then" = Ok thenf ->
     wrapper w =
       (call host (S m) thenf rv [VRef lcb] ;;; ret VUndefined)
         (with_heap w2 (w_heap w2 ++ [cb]))) /\
  (forall l ob thenf,
     rv = VRef l -> w_heap w2 !! l = Some ob ->
     chain_ends (length (w_heap w2)) (w_heap w2) (o_proto ob) = true ->
     get_in (w_heap w2) rv "then" = Ok thenf ->
     typeof_in (w_heap w2) thenf = TFunction ->
     isPromise rv w2 = (Ok true, w2) /\
     (forall r x,
        call host (S m) thenf rv [VRef lcb] (with_heap w2 (w_heap w2 ++ [cb]))
          = (Ok r, x) ->
        wrapper w = (Ok VUndefined, x)) /\
     (forall e x,
        call host (S m) thenf rv [VRef lcb] (with_heap w2 (w_heap w2 ++ [cb]))
          = (Throw e, x) ->
        wrapper w = (Throw e, x))) /\
  (forall p st,
     rv = VRef p -> w_heap w2 !! p = Some (promise st) ->
     exists w3, wrapper w = (Ok VUndefined, w3) /\ w_emitted w3 = w_emitted w2) /\
  (forall p rs,
     rv = VRef p -> w_heap w2 !! p = Some (promise (Pending rs)) ->
     wrapper w =
       (Ok VUndefined,
        World (<[p := promise (Pending (rs ++ [Reaction (VRef lcb) VUndefined (S lcb)]))]>
                 ((w_heap w2 ++ [cb]) ++ [promise (Pending [])]))
              (w_jobs w2) (w_emitted w2))) /\
  (forall x lf obf this0 sv le obe,
     w_heap x !! lf = Some obf ->
     o_kind obf = KFunction (CEmitThen event key this (VRef la)) ->
     w_heap x !! la = Some (array arguments) ->
     get_in (w_heap x) this "$emit" = Ok (VRef le) ->
     w_heap x !! le = Some obe -> o_kind obe = KFunction CVueEmit ->
     call host (S (S m)) (VRef lf) this0 [sv] x =
       (Ok VUndefined,
        World (<[la := array (emitted_args sv arguments)]> (w_heap x)) (w_jobs x)
              (w_emitted x ++
               [Emission this (or_else event (VString key))
                         (emitted_args sv arguments)]))) /\
  (forall p le obe,
     rv = VRef p -> w_heap w2 !! p = Some (promise (Pending [])) ->
     w_jobs w2 = [] ->
     w_heap w2 !! la = Some (array arguments) ->
     get_in (w_heap w2) this "$emit" = Ok (VRef le) ->
     w_heap w2 !! le = Some obe -> o_kind obe = KFunction CVueEmit ->
     wrapper w = (Ok VUndefined, awaiting w2 p event key this la) /\
     w_emitted (awaiting w2 p event key this la) = w_emitted w2 /\
     (forall sv, exists w5,
        (fulfill_promise p sv ;;; run_jobs host (S (S (S m))))
          (awaiting w2 p event key this la) = (Ok tt, w5) /\
        w_jobs w5 = [] /\
        w_emitted w5 =
          w_emitted w2 ++
          [Emission this (or_else event (VString key)) (emitted_args sv arguments)]) /\
     (forall r, exists w6,
        (reject_promise p r ;;; run_jobs host (S (S (S m))))
          (awaiting w2 p event key this la) = (Ok tt, w6) /\
        w_jobs w6 = [] /\
        w_emitted w6 = w_emitted w2 /\
        w_heap w6 !! S lcb = Some (promise (Rejected r)))).
Proof.
  intros Hcall la lcb cb wrapper. subst la lcb cb wrapper.
  assert (Hpending : forall p rs,
    rv = VRef p -> w_heap w2 !! p = Some (promise (Pending rs)) ->
    emitter (call host (S m)) event key original this arguments w =
      (Ok VUndefined,
       World (<[p := promise (Pending (rs ++ [Reaction (VRef (length (w_heap w2)))
                                                VUndefined (S (length (w_heap w2)))]))]>
                ((w_heap w2 ++ [function (CEmitThen event key this
                                            (VRef (length (w_heap w))))])
                 ++ [promise (Pending [])]))
             (w_jobs w2) (w_emitted w2))).
  { intros p rs -> Hp.
    erewrite emitter_deferred;
      [| exact Hcall | eapply isPromise_native; exact Hp
       | eapply get_in_native_then; exact Hp].
    erewrite bind_run by (apply call_then_pending; heap_solve).
    unfold with_heap. cbn [w_heap w_jobs w_emitted]. norm_len. reflexivity. }
  split; [|split; [|split; [|split; [|split]]]].
  - intros thenf Hprom Hthen. now apply emitter_deferred.
  - intros l ob thenf -> Hl Hc Hg Ht.
    pose proof (isPromise_callable_then w2 l ob thenf Hl Hc Hg Ht) as Hprom.
    split; [exact Hprom|]. split.
    + intros r x Hthen.
      rewrite (emitter_deferred host m w event key original this arguments
                 (VRef l) w2 thenf Hcall Hprom Hg).
      now erewrite bind_run by exact Hthen.
    + intros e x Hthen.
      rewrite (emitter_deferred host m w event key original this arguments
                 (VRef l) w2 thenf Hcall Hprom Hg).
      now erewrite bind_throw by exact Hthen.
  - intros p st -> Hp.
    destruct (call_then_quiet host m
                (with_heap w2 (w_heap w2 ++
                   [function (CEmitThen event key this (VRef (length (w_heap w))))]))
                p st (VRef (length (w_heap w2)))) as (x' & Hthen & Hem);
      [heap_solve|].
    exists x'. split; [|exact Hem].
    erewrite emitter_deferred;
      [| exact Hcall | eapply isPromise_native; exact Hp
       | eapply get_in_native_then; exact Hp].
    now erewrite bind_run by exact Hthen.
  - exact Hpending.
  - intros x lf obf this0 sv le obe Hf Hkf Ha Hg He Hke.
    eapply call_emit_callback; eassumption.
  - intros p le obe Hrv Hp Hjobs Ha Hg He Hk.
    split. { rewrite (Hpending p [] Hrv Hp). unfold awaiting. now rewrite Hjobs. }
    split; [reflexivity|].
    split.
    + intros sv. eapply awaiting_fulfilled; eassumption.
    + intros r. eapply awaiting_rejected; eassumption.
Qed.

Lemma Emit_deferred_value_witness :
  (emitter (call promise_host 1) VUndefined "do-thing" (VRef 1) (VRef 2)
     [VNumber 1; VNumber 2] demo_async
   = (Ok VUndefined, awaiting demo_async_called 4 VUndefined "do-thing" (VRef 2) 6) /\
   w_emitted (awaiting demo_async_called 4 VUndefined "do-thing" (VRef 2) 6) = [] /\
   (exists w5,
      (fulfill_promise 4 (VString "ok") ;;; run_jobs promise_host 3)
        (awaiting demo_async_called 4 VUndefined "do-thing" (VRef 2) 6) = (Ok tt, w5) /\
      w_emitted w5 =
        [Emission (VRef 2) (VString "do-thing")
                  [VString "ok"; VNumber 1; VNumber 2]]) /\
   (exists w6,
      (reject_promise 4 (VString "no") ;;; run_jobs promise_host 3)
        (awaiting demo_async_called 4 VUndefined "do-thing" (VRef 2) 6) = (Ok tt, w6) /\
      w_emitted w6 = [] /\
      w_heap w6 !! 8 = Some (promise (Rejected (VString "no"))))) /\
  (isPromise (VRef 4) demo_thenable_called = (Ok true, demo_thenable_called) /\
   emitter (call lazy_host 1) VUndefined "do-thing" (VRef 1) (VRef 2)
     [VNumber 1; VNumber 2] demo_thenable
   = (Ok VUndefined, demo_thenable_waiting) /\
   w_emitted demo_thenable_waiting = [] /\
   exists w5,
     call lazy_host 2 (VRef 7) VUndefined [VString "ok"] demo_thenable_waiting
       = (Ok VUndefined, w5) /\
     w_emitted w5 =
       [Emission (VRef 2) (VString "do-thing")
                 [VString "ok"; VNumber 1; VNumber 2]]).
Proof.
  split.
  - destruct (Emit_deferred_value promise_host 0 demo_async VUndefined "do-thing"
                (VRef 1) (VRef 2) [VNumber 1; VNumber 2] (VRef 4) demo_async_called)
      as (_ & _ & _ & _ & _ & H); [reflexivity|].
    destruct (H 4 3 (function CVueEmit))
      as (H1 & H2 & H3 & H4); try reflexivity.
    split; [exact H1|]. split; [exact H2|]. split.
    + destruct (H3 (VString "ok")) as (w5 & Hrun & _ & Hem). exists w5. split; assumption.
    + destruct (H4 (VString "no")) as (w6 & Hrun & _ & Hem & Hd). exists w6.
      repeat split; assumption.
  - destruct (Emit_deferred_value lazy_host 0 demo_thenable VUndefined "do-thing"
                (VRef 1) (VRef 2) [VNumber 1; VNumber 2] (VRef 4) demo_thenable_called)
      as (_ & H & _ & _ & Hcb & _); [reflexivity|].
    destruct (H 4 (record [(PStr "then", VRef 5)]) (VRef 5))
      as (H1 & H2 & _); try reflexivity.
    split; [exact H1|].
    split; [apply (H2 VUndefined demo_thenable_waiting); reflexivity|].
    split; [reflexivity|].
    eexists. split.
    + apply (Hcb demo_thenable_waiting 7
               (function (CEmitThen VUndefined "do-thing" (VRef 2) (VRef 6)))
               VUndefined (VString "ok") 3 (function CVueEmit)); reflexivity.
    + reflexivity.
Defined.

(** ** Further runs *)

(** A hyphen only goes between two word characters. *)
Example hyphenate_after_dollar :
  hyphenate "a$B" = "a$b" /\ hyphenate "fooBarBAZ" = "foo-bar-b-a-z".
Proof. split; reflexivity. Qed.

(** The function [Provide] installs calls the original [provide] when it
    is a function, and what that returns is the prototype of the result. *)
Example Provide_over_function :
  exists w',
    (Provide (VString "x") (VRef 0) (VString "a") ;;;
     Provide VUndefined (VRef 0) (VString "b") ;;;
     f <- get_member (VRef 0) "provide" ;;
     call theme_host 2 f (VRef 3) []) demo_provide_function
      = (Ok (VRef 6), w') /\
    w_heap w' !! 6 =
      Some (Obj KObject (VRef 2) [(PStr "x", VNumber 1); (PStr "b", VNumber 2)]).
Proof. eexists. split; reflexivity. Qed.

(** With a thenable that is no promise, when the event is emitted is up
    to its [then]: one that calls back at once makes the wrapper emit
    before it returns. *)
Example Emit_eager_thenable :
  exists w',
    (Emit VUndefined VUndefined "doThing" (VRef 0) ;;;
     f <- get_member (VRef 0) "value" ;;
     call eager_host 4 f (VRef 2) [VNumber 1; VNumber 2]) demo_thenable
      = (Ok VUndefined, w') /\
    w_emitted w' =
      [Emission (VRef 2) (VString "do-thing")
                [VString "now"; VNumber 1; VNumber 2]].
Proof. eexists. split; reflexivity. Qed.

(** * Further properties of the code *)

(** ** [hyphenate] *)

Lemma lower_is_lower c : is_upper (lower c) = false.
Proof. destruct c as [[] [] [] [] [] [] [] []]; reflexivity. Qed.

Lemma toLowerCase_lower_case s : lower_case (toLowerCase s) = true.
Proof.
  unfold lower_case. induction s as [|c s IH]; [reflexivity|].
  cbn [toLowerCase all_chars]. now rewrite lower_is_lower, IH.
Qed.

Lemma replace_lower_case p s :
  lower_case s = true -> replace_hyphenateRE p s = s.
Proof.
  unfold lower_case. revert p. induction s as [|c s IH]; intros p H; [reflexivity|].
  cbn [all_chars] in H. apply andb_prop in H as [Hc Hs].
  apply negb_true_iff in Hc. cbn [replace_hyphenateRE].
  now rewrite Hc, andb_false_r, IH.
Qed.

Lemma toLowerCase_fixes_lower_case s : lower_case s = true -> toLowerCase s = s.
Proof.
  unfold lower_case. induction s as [|c s IH]; intros H; [reflexivity|].
  cbn [all_chars] in H. apply andb_prop in H as [Hc Hs].
  apply negb_true_iff in Hc. cbn [toLowerCase].
  now rewrite (lower_not_upper c Hc), IH.
Qed.

Lemma hyphenate_of_lower_case s : lower_case s = true -> hyphenate s = s.
Proof.
  intros H. unfold hyphenate.
  now rewrite (replace_lower_case None s H), toLowerCase_fixes_lower_case.
Qed.

(** X1: [hyphenate] leaves no upper-case letter in its result. *)
Theorem hyphenate_lower_case (str : string) : lower_case (hyphenate str) = true.
Proof. apply toLowerCase_lower_case. Qed.

(** X2: a name of ASCII characters without upper-case letters is its
    own event name: [hyphenate] returns it unchanged, hyphens, digits and
    other characters included. *)
Theorem hyphenate_keeps_lower_case (str : string) :
  ascii_only str = true -> lower_case str = true -> hyphenate str = str.
Proof. intros _. apply hyphenate_of_lower_case. Qed.

Lemma hyphenate_keeps_lower_case_witness : hyphenate "on-change_2$x" = "on-change_2$x".
Proof. apply (hyphenate_keeps_lower_case "on-change_2$x"); reflexivity. Defined.

(** X3: [hyphenate] is idempotent: the name it gives is not changed by a
    second conversion. *)
Theorem hyphenate_idempotent (str : string) :
  hyphenate (hyphenate str) = hyphenate str.
Proof. apply hyphenate_of_lower_case, toLowerCase_lower_case. Qed.

Lemma without_hyphens_replace p s :
  without_hyphens (toLowerCase (replace_hyphenateRE p s))
  = without_hyphens (toLowerCase s).
Proof.
  revert p. induction s as [|c s IH]; intros p; [reflexivity|].
  cbn [replace_hyphenateRE].
  destruct (non_boundary p (Some c) && is_upper c);
    cbn [toLowerCase without_hyphens];
    change (lower "-") with "-"%char; cbn [Ascii.eqb Bool.eqb without_hyphens];
    now rewrite IH.
Qed.

(** X4: [hyphenate] changes a name only by inserting hyphens and
    lower-casing: with the hyphens taken out, its result is the lower-cased
    name with the hyphens taken out. *)
Theorem hyphenate_inserts_hyphens_only (str : string) :
  without_hyphens (hyphenate str) = without_hyphens (toLowerCase str).
Proof. apply without_hyphens_replace. Qed.

(** ** [isPromise] *)

(** As the condition of an [if], [isPromise] is the truth value of what
    it returns. *)
Lemma isPromise_truthy obj w :
  isPromise obj w = (r <- isPromise_value obj ;; ret (truthy r)) w.
Proof.
  unfold isPromise, isPromise_value, bind.
  destruct (instanceof_Promise obj w) as [[[]|e|r] w1]; try reflexivity.
  destruct (truthy obj) eqn:Ht.
  - destruct (get_member obj "then" w1) as [[t|e|r] w2]; reflexivity.
  - unfold ret. now rewrite Ht.
Qed.

(** X5: for a value that is not an object, [isPromise] returns a falsy
    value, without throwing and without touching the store: the operand
    itself when it is falsy ([undefined], [null], [false], [0], the empty
    string; the guard [obj &&] keeps [then] from being read), and [false]
    otherwise, [then] of such a value being no function.  As a condition
    it is false. *)
Theorem isPromise_primitive (obj : value) (w : world) :
  primitive obj ->
  isPromise_value obj w = (Ok (if truthy obj then VBool false else obj), w)
  /\ isPromise obj w = (Ok false, w).
Proof.
  intros H.
  assert (Hv : isPromise_value obj w = (Ok (if truthy obj then VBool false else obj), w)).
  { destruct obj as [| |[]|n|s| | | |]; try contradiction; try reflexivity.
    - unfold isPromise_value, instanceof_Promise, bind, lift. cbn [truthy].
      destruct (negb (n =? 0)%Z); reflexivity.
    - unfold isPromise_value, instanceof_Promise, bind, lift. cbn [truthy].
      destruct (negb (String.eqb s "")); reflexivity. }
  split; [exact Hv|].
  rewrite isPromise_truthy. erewrite bind_run by exact Hv.
  destruct (truthy obj) eqn:Ht; [reflexivity|]. unfold ret. now rewrite Ht.
Qed.

Lemma isPromise_primitive_witness :
  isPromise_value VNull demo_class = (Ok VNull, demo_class)
  /\ isPromise_value (VNumber 0) demo_class = (Ok (VNumber 0), demo_class)
  /\ isPromise_value (VNumber 5) demo_class = (Ok (VBool false), demo_class)
  /\ isPromise (VNumber 5) demo_class = (Ok false, demo_class).
Proof.
  split; [apply (isPromise_primitive VNull); exact I|].
  split; [apply (isPromise_primitive (VNumber 0)); exact I|].
  split; apply (isPromise_primitive (VNumber 5)); exact I.
Defined.

(** X6: for an object literal, [isPromise] is the test of its own
    [then]: yes when [then] is there and is a function, no otherwise.
    [Object.prototype] contributes neither a [then] nor the promise
    prototype. *)
Theorem isPromise_object_literal (w : world) (l : loc) (ps : list (pkey * value)) :
  w_heap w !! l = Some (record ps) ->
  isPromise (VRef l) w =
    (Ok (match prop_lookup "then" ps with
         | Some t => jstype_eqb (typeof_in (w_heap w) t) TFunction
         | None => false
         end), w).
Proof.
  intros Hl. unfold isPromise, instanceof_Promise.
  assert (Hinst : lift (fun h => chain_has_promise_proto (length h) h (proto_of h (VRef l))) w
                  = (Ok false, w)).
  { unfold lift, proto_of. rewrite Hl. cbn [record o_proto].
    destruct (length (w_heap w)); reflexivity. }
  erewrite bind_run by exact Hinst. cbn [truthy].
  assert (Hthen : get_in (w_heap w) (VRef l) "then" =
                    Ok (match prop_lookup "then" ps with
                        | Some t => t
                        | None => VUndefined
                        end)).
  { rewrite (get_in_plain _ _ _ _ _ Hl) by now right.
    unfold plain_slot. destruct (prop_lookup "then" ps); reflexivity. }
  step_get ltac:(exact Hthen).
  destruct (prop_lookup "then" ps) as [t|]; reflexivity.
Qed.

Lemma isPromise_object_literal_witness :
  isPromise (VRef 4) demo_thenable = (Ok true, demo_thenable)
  /\ isPromise (VRef 2) demo_thenable = (Ok false, demo_thenable).
Proof.
  split.
  - apply (isPromise_object_literal demo_thenable 4 [(PStr "then", VRef 5)]). reflexivity.
  - apply (isPromise_object_literal demo_thenable 2 [(PStr "$emit", VRef 3)]). reflexivity.
Defined.

(** ** [Emit] *)

(** X7: the wrapper [Emit(event)] installs names the emission
    [event || key]: an event name that is given is used as it is, not
    hyphenated, and an empty one counts as not given.  A method that
    returns a value that is no object has it emitted at once as the first
    argument, [null], [false], [0] and the empty string included; only
    [undefined] is left out. *)
Theorem Emit_event_or_name
    (host : nat -> callT -> value -> list value -> M value) (m : nat)
    (w0 : world) (ld : loc) (proto : value) (pd : list (pkey * value))
    (target event : value) (name : string) (original this : value)
    (arguments : list value) (rv : value) (w2 : world) (le : loc) (obe : obj) :
  w_heap w0 !! ld = Some (Obj KObject proto pd) -> plain proto ->
  prop_lookup "value" pd = Some original ->
  let w := after_Emit w0 ld proto pd event name original in
  let lw := length (w_heap w0) in
  let la := S lw in
  call host (S m) original this arguments
    (with_heap w (w_heap w ++ [array arguments])) = (Ok rv, w2) ->
  primitive rv ->
  w_heap w2 !! la = Some (array arguments) ->
  get_in (w_heap w2) this "$emit" = Ok (VRef le) ->
  w_heap w2 !! le = Some obe -> o_kind obe = KFunction CVueEmit ->
  Emit event target name (VRef ld) w0 = (Ok tt, w) /\
  exists w',
    call host (S (S m)) (VRef lw) this arguments w = (Ok VUndefined, w') /\
    w_jobs w' = w_jobs w2 /\
    w_emitted w' =
      w_emitted w2 ++
      [Emission this
         (if truthy event then event else VString (hyphenate name))
         (match rv with
          | VUndefined => arguments
          | _ => rv :: arguments
          end)].
Proof.
  intros Hd Hp Hv w lw la Hcall Hprim Ha Hg He Hk. subst w lw la.
  assert (Hlen : length (w_heap (after_Emit w0 ld proto pd event name original))
                 = S (length (w_heap w0)))
    by (unfold after_Emit; cbn [w_heap with_heap]; norm_len; reflexivity).
  split; [now apply Emit_installs|].
  eexists. split.
  { erewrite call_function; [| unfold after_Emit; heap_solve | reflexivity].
    cbn [run_code].
    eapply emitter_immediate; try eassumption.
    - rewrite Hlen. exact Ha.
    - now apply isPromise_primitive. }
  split; reflexivity.
Qed.

Lemma Emit_event_or_name_witness :
  exists w',
    call null_host 2 (VRef 4) (VRef 2) [VNumber 1; VNumber 2] demo_method_done
      = (Ok VUndefined, w') /\
    w_emitted w' =
      [Emission (VRef 2) (VString "done") [VNull; VNumber 1; VNumber 2]].
Proof.
  destruct (Emit_event_or_name null_host 0 demo_method 0
              (VBuiltin (BProto ObjectProto)) [(PStr "value", VRef 1)]
              VUndefined (VString "done") "doThing" (VRef 1) (VRef 2)
              [VNumber 1; VNumber 2] VNull
              (with_heap demo_method_done
                 (w_heap demo_method_done ++ [array [VNumber 1; VNumber 2]]))
              3 (function CVueEmit)) as (_ & w' & H1 & _ & H3);
    [reflexivity | now right | reflexivity | reflexivity | exact I
    | reflexivity | reflexivity | reflexivity | reflexivity |].
  exists w'. split; [exact H1 | exact H3].
Defined.

(** X8: when the method throws, the wrapper throws the same value and
    leaves the world as the method left it: [$emit] is not called, and
    nothing is caught. *)
Theorem Emit_method_throws
    (host : nat -> callT -> value -> list value -> M value) (m : nat)
    (w : world) (lw : loc) (event : value) (key : string)
    (original this : value) (arguments : list value) (e : value) (w2 : world) :
  w_heap w !! lw = Some (function (CEmitter event key original)) ->
  call host (S m) original this arguments
    (with_heap w (w_heap w ++ [array arguments])) = (Throw e, w2) ->
  call host (S (S m)) (VRef lw) this arguments w = (Throw e, w2).
Proof.
  intros Hw Hcall.
  erewrite call_function by (first [exact Hw | reflexivity]).
  cbn [run_code]. unfold emitter, new_array. step.
  unfold array_elements. rewrite ?bind_bind.
  erewrite (bind_run (read _)) by (apply read_run; heap_solve).
  cbn [array o_kind]. step.
  now erewrite bind_throw by exact Hcall.
Qed.

Lemma Emit_method_throws_witness :
  call failing_host 2 (VRef 4) (VRef 2) [VNumber 1] demo_method_done
  = (Throw (VString "bad"),
     with_heap demo_method_done (w_heap demo_method_done ++ [array [VNumber 1]])).
Proof.
  apply (Emit_method_throws failing_host 0 demo_method_done 4 (VString "done")
           "do-thing" (VRef 1) (VRef 2) [VNumber 1] (VString "bad")); reflexivity.
Defined.

(** X9: [Emit] over [Emit]: the outer wrapper has the inner one as its
    method.  One call runs the method once and emits twice: first the
    inner event with the return value, then the outer event without one,
    since the inner wrapper returns [undefined]. *)
Theorem Emit_over_Emit
    (host : nat -> callT -> value -> list value -> M value) (m : nat)
    (w : world) (l1 l2 : loc) (e1 e2 : value) (k1 k2 : string)
    (original this : value) (arguments : list value) (rv : value)
    (w2 : world) (le : loc) (obe : obj) :
  w_heap w !! l1 = Some (function (CEmitter e1 k1 original)) ->
  w_heap w !! l2 = Some (function (CEmitter e2 k2 (VRef l1))) ->
  let la2 := length (w_heap w) in
  let la1 := S la2 in
  call host (S m) original this arguments
    (with_heap w ((w_heap w ++ [array arguments]) ++ [array arguments]))
    = (Ok rv, w2) ->
  isPromise rv w2 = (Ok false, w2) ->
  w_heap w2 !! la1 = Some (array arguments) ->
  w_heap w2 !! la2 = Some (array arguments) ->
  get_in (w_heap w2) this "$emit" = Ok (VRef le) ->
  w_heap w2 !! le = Some obe -> o_kind obe = KFunction CVueEmit ->
  exists w',
    call host (S (S (S m))) (VRef l2) this arguments w = (Ok VUndefined, w') /\
    w_emitted w' =
      w_emitted w2 ++
      [Emission this (or_else e1 (VString k1)) (emitted_args rv arguments);
       Emission this (or_else e2 (VString k2)) arguments].
Proof.
  intros H1 H2 la2 la1 Hcall Himm Ha1 Ha2 Hg He Hk. subst la1 la2.
  assert (Hne1 : S (length (w_heap w)) <> le).
  { intros <-. rewrite Ha1 in He. inversion He; subst. discriminate. }
  set (wa := with_heap w (w_heap w ++ [array arguments])).
  assert (Hinner :
    call host (S (S m)) (VRef l1) this arguments wa =
      (Ok VUndefined,
       World (<[S (length (w_heap w)) := array (emitted_args rv arguments)]> (w_heap w2))
             (w_jobs w2)
             (w_emitted w2 ++
              [Emission this (or_else e1 (VString k1)) (emitted_args rv arguments)]))).
  { erewrite call_function; [| subst wa; heap_solve | reflexivity].
    cbn [run_code].
    erewrite (emitter_immediate host m wa e1 k1 original this arguments rv w2 le obe);
      [ subst wa; cbn [w_heap with_heap]; norm_len; reflexivity
      | exact Hcall
      | subst wa; cbn [w_heap with_heap]; norm_len; exact Ha1
      | exact Himm | exact Hg | exact He | exact Hk ]. }
  eexists. split.
  { erewrite call_function by (first [exact H2 | reflexivity]).
    cbn [run_code].
    eapply (emitter_immediate host (S m) w e2 k2 (VRef l1) this arguments VUndefined).
    - exact Hinner.
    - cbn [w_heap]. rewrite list_lookup_insert_ne by lia. exact Ha2.
    - reflexivity.
    - cbn [w_heap].
      apply (get_in_similar _ _ _ _ _
               (array_write_similar (PStr "$emit") _ _ _ _ Ha1
                  ltac:(discriminate) eq_refl) Hg).
    - cbn [w_heap]. rewrite list_lookup_insert_ne by exact Hne1. exact He.
    - exact Hk. }
  cbn [w_emitted emitted_args]. now rewrite <- app_assoc.
Qed.

Lemma Emit_over_Emit_witness :
  exists w',
    call five_host 3 (VRef 5) (VRef 2) [VNumber 1; VNumber 2] demo_method_twice
      = (Ok VUndefined, w') /\
    w_emitted w' =
      [Emission (VRef 2) (VString "inner") [VNumber 5; VNumber 1; VNumber 2];
       Emission (VRef 2) (VString "do-thing") [VNumber 1; VNumber 2]].
Proof.
  apply (Emit_over_Emit five_host 0 demo_method_twice 4 5 (VString "inner")
           VUndefined "do-thing" "do-thing" (VRef 1) (VRef 2)
           [VNumber 1; VNumber 2] (VNumber 5)
           (with_heap demo_method_twice
              ((w_heap demo_method_twice ++ [array [VNumber 1; VNumber 2]])
               ++ [array [VNumber 1; VNumber 2]]))
           3 (function CVueEmit)); reflexivity.
Defined.

(** X10: the callback the wrapper hands to [then] closes over the one
    rest array of the call and unshifts into it: a thenable that calls the
    callback a second time gets a second emission, which also carries the
    value of the first. *)
Theorem Emit_callback_again
    (host : nat -> callT -> value -> list value -> M value) (m : nat)
    (x : world) (lcb : loc) (obcb : obj) (event : value) (key : string)
    (this : value) (la : loc) (arguments : list value) (sv1 sv2 : value)
    (le : loc) (obe : obj) :
  w_heap x !! lcb = Some obcb ->
  o_kind obcb = KFunction (CEmitThen event key this (VRef la)) ->
  w_heap x !! la = Some (array arguments) ->
  get_in (w_heap x) this "$emit" = Ok (VRef le) ->
  w_heap x !! le = Some obe -> o_kind obe = KFunction CVueEmit ->
  exists x1 x2,
    call host (S (S m)) (VRef lcb) VUndefined [sv1] x = (Ok VUndefined, x1) /\
    call host (S (S m)) (VRef lcb) VUndefined [sv2] x1 = (Ok VUndefined, x2) /\
    w_emitted x2 =
      w_emitted x ++
      [Emission this (or_else event (VString key)) (emitted_args sv1 arguments);
       Emission this (or_else event (VString key))
                (emitted_args sv2 (emitted_args sv1 arguments))].
Proof.
  intros Hcb Hk Ha Hg He Hke.
  assert (Hla : la <> lcb).
  { intros ->. rewrite Ha in Hcb. inversion Hcb; subst. discriminate. }
  assert (Hle : la <> le).
  { intros ->. rewrite Ha in He. inversion He; subst. discriminate. }
  eexists. eexists. split; [eapply call_emit_callback; eassumption|].
  split.
  { eapply call_emit_callback.
    - cbn [w_heap]. rewrite list_lookup_insert_ne by exact Hla. exact Hcb.
    - exact Hk.
    - cbn [w_heap]. apply list_lookup_insert_eq. eapply lookup_lt_Some, Ha.
    - cbn [w_heap].
      apply (get_in_similar _ _ _ _ _
               (array_write_similar (PStr "$emit") _ _ _ _ Ha
                  ltac:(discriminate) eq_refl) Hg).
    - cbn [w_heap]. rewrite list_lookup_insert_ne by exact Hle. exact He.
    - exact Hke. }
  cbn [w_emitted]. now rewrite <- app_assoc.
Qed.

Lemma Emit_callback_again_witness :
  exists x1 x2,
    call idle_host 2 (VRef 7) VUndefined [VString "a"]
      (awaiting demo_async_called 4 VUndefined "do-thing" (VRef 2) 6)
      = (Ok VUndefined, x1) /\
    call idle_host 2 (VRef 7) VUndefined [VString "b"] x1 = (Ok VUndefined, x2) /\
    w_emitted x2 =
      [Emission (VRef 2) (VString "do-thing") [VString "a"; VNumber 1; VNumber 2];
       Emission (VRef 2) (VString "do-thing")
                [VString "b"; VString "a"; VNumber 1; VNumber 2]].
Proof.
  apply (Emit_callback_again idle_host 0
           (awaiting demo_async_called 4 VUndefined "do-thing" (VRef 2) 6)
           7 (function (CEmitThen VUndefined "do-thing" (VRef 2) (VRef 6)))
           VUndefined "do-thing" (VRef 2) 6 [VNumber 1; VNumber 2]
           (VString "a") (VString "b") 3 (function CVueEmit)); reflexivity.
Defined.

Section Settled.

Variable host : nat -> callT -> value -> list value -> M value.

(** [then] with one callback on a promise that is settled already: a
    derived promise, and the job of the reaction in the queue. *)
Lemma call_then_settled k x p st cb :
  w_heap x !! p = Some (promise st) ->
  match st with Pending _ => False | _ => True end ->
  call host (S k) (VBuiltin BPromiseThen) (VRef p) [cb] x =
    (Ok (VRef (length (w_heap x))),
     World (w_heap x ++ [promise (Pending [])])
           (w_jobs x ++
            [match st with
             | Rejected r => JReaction VUndefined (length (w_heap x)) false r
             | Fulfilled v => JReaction cb (length (w_heap x)) true v
             | Pending _ => JReaction cb 0 true VUndefined
             end])
           (w_emitted x)).
Proof.
  intros Hp Hst. cbn [call typeof_in jstype_eqb run_builtin promise_then].
  rewrite (bind_run _ _ _ _ _ (read_run _ _ _ Hp)).
  cbn [promise o_kind o_proto o_props nth].
  rewrite (bind_run _ _ _ _ _ (alloc_run _ _)).
  destruct st; [contradiction | reflexivity | reflexivity].
Qed.

End Settled.

(** X11: when the method returns a native promise that is settled
    already, the wrapper still emits nothing before it returns: the
    emission waits in the job queue.  Once the queue has run, a fulfilled
    promise has given one emission, with its value before the arguments,
    and a rejected one none, the derived promise being rejected in its
    turn. *)
Theorem Emit_settled_promise
    (host : nat -> callT -> value -> list value -> M value) (m : nat)
    (w : world) (event : value) (key : string) (original this : value)
    (arguments : list value) (p : loc) (w2 : world) (le : loc) (obe : obj) :
  call host (S m) original this arguments
    (with_heap w (w_heap w ++ [array arguments])) = (Ok (VRef p), w2) ->
  w_jobs w2 = [] ->
  w_heap w2 !! length (w_heap w) = Some (array arguments) ->
  get_in (w_heap w2) this "$emit" = Ok (VRef le) ->
  w_heap w2 !! le = Some obe -> o_kind obe = KFunction CVueEmit ->
  let wrapper := emitter (call host (S m)) event key original this arguments in
  (forall sv,
     w_heap w2 !! p = Some (promise (Fulfilled sv)) ->
     exists w3 w5,
       wrapper w = (Ok VUndefined, w3) /\
       w_emitted w3 = w_emitted w2 /\
       run_jobs host (S (S (S m))) w3 = (Ok tt, w5) /\
       w_jobs w5 = [] /\
       w_emitted w5 =
         w_emitted w2 ++
         [Emission this (or_else event (VString key)) (emitted_args sv arguments)]) /\
  (forall r,
     w_heap w2 !! p = Some (promise (Rejected r)) ->
     exists w3 w6,
       wrapper w = (Ok VUndefined, w3) /\
       w_emitted w3 = w_emitted w2 /\
       run_jobs host (S (S (S m))) w3 = (Ok tt, w6) /\
       w_jobs w6 = [] /\
       w_emitted w6 = w_emitted w2 /\
       w_heap w6 !! S (length (w_heap w2)) = Some (promise (Rejected r))).
Proof.
  intros Hcall Hjobs Ha Hg He Hk wrapper. subst wrapper.
  set (la := length (w_heap w)) in *.
  set (lcb := length (w_heap w2)).
  set (cb := function (CEmitThen event key this (VRef la))).
  set (h3 := (w_heap w2 ++ [cb]) ++ [promise (Pending [])]).
  assert (Hwrap : forall st,
    w_heap w2 !! p = Some (promise st) ->
    match st with Pending _ => False | _ => True end ->
    emitter (call host (S m)) event key original this arguments w =
      (Ok VUndefined,
       World h3
             [match st with
              | Rejected r => JReaction VUndefined (S lcb) false r
              | Fulfilled v => JReaction (VRef lcb) (S lcb) true v
              | Pending _ => JReaction (VRef lcb) 0 true VUndefined
              end]
             (w_emitted w2))).
  { intros st Hp Hst.
    erewrite emitter_deferred;
      [| exact Hcall | eapply isPromise_native; exact Hp
       | eapply get_in_native_then; exact Hp].
    erewrite bind_run by (apply (call_then_settled host m _ p st); [heap_solve | exact Hst]).
    unfold with_heap. cbn [w_heap w_jobs w_emitted]. rewrite Hjobs.
    subst h3 lcb cb la. norm_len. cbn [app]. destruct st; reflexivity. }
  split.
  - intros sv Hp.
    assert (Hs : similar (PStr "$emit") (w_heap w2) h3).
    { eapply similar_trans; apply similar_alloc. }
    eexists. eexists.
    split; [apply (Hwrap (Fulfilled sv) Hp I)|].
    split; [reflexivity|].
    cbn [run_jobs w_jobs w_heap w_emitted].
    unfold run_job at 1.
    rewrite bind_bind, (bind_run _ _ _ _ _ (is_function_run _ _)).
    erewrite typeof_in_ref by (subst h3 lcb; heap_solve).
    cbn [cb function o_kind jstype_eqb].
    unfold bind at 1.
    erewrite call_emit_callback;
      [ | subst h3 lcb; heap_solve | reflexivity | subst h3 la; heap_solve
        | apply (get_in_similar _ _ _ _ _ Hs Hg) | subst h3; heap_solve | exact Hk ].
    cbn [resolve_promise]. unfold fulfill_promise.
    erewrite settle_pending by (subst h3 lcb; heap_solve).
    cbn [w_jobs w_heap w_emitted map app]. cbn [run_jobs w_jobs].
    repeat split; reflexivity.
  - intros r Hp.
    eexists. eexists.
    split; [apply (Hwrap (Rejected r) Hp I)|].
    split; [reflexivity|].
    cbn [run_jobs w_jobs w_heap w_emitted].
    unfold run_job at 1.
    rewrite bind_bind, (bind_run _ _ _ _ _ (is_function_run _ _)).
    cbn [typeof_in jstype_eqb]. unfold reject_promise.
    erewrite bind_run by (apply settle_pending; subst h3 lcb; heap_solve).
    cbn [w_jobs w_heap w_emitted map app]. cbn [run_jobs w_jobs].
    repeat split; try reflexivity.
    cbn [w_heap]. subst h3 lcb. heap_solve.
Qed.

Lemma Emit_settled_promise_witness :
  exists w3 w5,
    emitter (call promise_host 1) VUndefined "do-thing" (VRef 1) (VRef 2)
      [VNumber 1; VNumber 2] demo_settled = (Ok VUndefined, w3) /\
    w_emitted w3 = [] /\
    run_jobs promise_host 3 w3 = (Ok tt, w5) /\
    w_emitted w5 =
      [Emission (VRef 2) (VString "do-thing") [VString "ok"; VNumber 1; VNumber 2]].
Proof.
  destruct (Emit_settled_promise promise_host 0 demo_settled VUndefined "do-thing"
              (VRef 1) (VRef 2) [VNumber 1; VNumber 2] 4 demo_settled_called
              3 (function CVueEmit)) as (H & _); try reflexivity.
  destruct (H (VString "ok") eq_refl) as (w3 & w5 & H1 & H2 & H3 & _ & H5).
  exists w3, w5. repeat split; assumption.
Defined.

(** ** [Prop] and [Model] *)

(** The body of the callback of [Prop], on a class that has [props]. *)
Lemma Prop_body_there w lc ob lp pps k o :
  w_heap w !! lc = Some ob -> prop_lookup "props" (o_props ob) = Some (VRef lp) ->
  w_heap w !! lp = Some (record pps) -> member_key k ->
  (props <- props_of (VRef lc) ;; set_member_at props (key_value k) o) w =
    (Ok tt, with_heap w (<[lp := record (prop_update k o pps)]> (w_heap w))).
Proof.
  intros Hc Hprops Hp Hk.
  erewrite bind_run by (apply (props_of_there _ _ _ _ Hc Hprops); reflexivity).
  rewrite set_member_at_key.
  erewrite set_member_plain; [| exact Hp | now right | now right ].
  reflexivity.
Qed.

(** The same on a class whose [props] is absent or falsy: the mapping is
    created. *)
Lemma props_of_falsy w lc proto ps v :
  w_heap w !! lc = Some (Obj KObject proto ps) -> plain proto ->
  get_in (w_heap w) (VRef lc) "props" = Ok v -> truthy v = false ->
  props_of (VRef lc) w =
    (Ok (VRef (length (w_heap w))),
     with_heap w
       (<[lc := Obj KObject proto (prop_update "props" (VRef (length (w_heap w))) ps)]>
          (w_heap w ++ [empty_object]))).
Proof.
  intros Hc Hp Hg Hv. unfold props_of.
  step_get ltac:(exact Hg). rewrite Hv.
  unfold new_object. rewrite (bind_run _ _ _ _ _ (alloc_run _ _)).
  erewrite bind_run
    by (apply set_member_plain; [heap_solve | assumption | now right]).
  reflexivity.
Qed.

Lemma Prop_body_falsy w lc proto ps v k o :
  w_heap w !! lc = Some (Obj KObject proto ps) -> plain proto ->
  get_in (w_heap w) (VRef lc) "props" = Ok v -> truthy v = false ->
  member_key k ->
  (props <- props_of (VRef lc) ;; set_member_at props (key_value k) o) w =
    (Ok tt,
     with_heap w
       (<[length (w_heap w) := record [(k, o)]]>
          (<[lc := Obj KObject proto (prop_update "props" (VRef (length (w_heap w))) ps)]>
             (w_heap w ++ [empty_object])))).
Proof.
  intros Hc Hp Hg Hv Hk.
  erewrite bind_run by (eapply props_of_falsy; eassumption).
  rewrite set_member_at_key.
  erewrite set_member_plain; [| heap_solve | now right | now right ].
  reflexivity.
Qed.

(** X12: [Prop()] without options stores a new empty object, made once
    per call of [Prop]: the decorator it returns writes that one object
    under every member it is applied to, so the entries share it. *)
Theorem Prop_default_options_shared (w : world) (lc : loc) (proto : value)
    (ps : list (pkey * value)) (k1 k2 : pkey) :
  w_heap w !! lc = Some (Obj KObject proto ps) -> plain proto ->
  prop_lookup "props" ps = None ->
  member_key k1 -> member_key k2 ->
  let c := VRef lc in
  let lo := length (w_heap w) in
  let lp := S lo in
  exists w',
    (d <- Prop_ VUndefined ;; d c (key_value k1) ;;; d c (key_value k2)) w
      = (Ok tt, w') /\
    w_heap w' !! lo = Some empty_object /\
    get_in (w_heap w') c "props" = Ok (VRef lp) /\
    w_heap w' !! lp = Some (record (prop_update k2 (VRef lo) [(k1, VRef lo)])).
Proof.
  intros Hc Hp Hno Hk1 Hk2 c lo lp. subst c lo lp.
  unfold Prop_. cbn [default_object]. unfold new_object.
  rewrite bind_bind. step. rewrite bind_ret. unfold createDecorator.
  set (lo := length (w_heap w)).
  assert (Hprops : prop_lookup "props" (prop_update "props" (VRef (S lo)) ps)
                   = Some (VRef (S lo))) by apply prop_update_same.
  eexists. split.
  { erewrite bind_run.
    2:{ eapply (Prop_body_falsy _ lc proto ps VUndefined k1);
          [ heap_solve | assumption
          | eapply get_in_absent; [heap_solve | assumption | exact Hno | reflexivity]
          | reflexivity | assumption ]. }
    cbn [w_heap with_heap]. norm_len. fold lo.
    eapply (Prop_body_there _ lc _ (S lo) [(k1, VRef lo)] k2);
      [ heap_solve | exact Hprops | heap_solve | assumption ]. }
  cbn [w_heap with_heap].
  split; [subst lo; heap_solve|].
  split. { eapply get_in_own; [subst lo; heap_solve | exact Hprops]. }
  subst lo. heap_solve.
Qed.

Lemma Prop_default_options_shared_witness :
  exists w',
    (d <- Prop_ VUndefined ;; d (VRef 0) (VString "title") ;;;
     d (VRef 0) (VString "size")) demo_class = (Ok tt, w') /\
    w_heap w' !! 3 = Some empty_object /\
    w_heap w' !! 4 = Some (record [(PStr "title", VRef 3); (PStr "size", VRef 3)]).
Proof.
  destruct (Prop_default_options_shared demo_class 0 (VBuiltin (BProto ObjectProto)) []
              (PStr "title") (PStr "size")) as (w' & H1 & H2 & _ & H4);
    [reflexivity | now right | reflexivity | discriminate | discriminate |].
  exists w'. repeat split; assumption.
Defined.

(** X13: on a class that has a [props] mapping, [Prop] writes the one
    entry of its member into that mapping: the other entries read as
    before, and no other object of the store changes, the options object
    included. *)
Theorem Prop_extends_props (w : world) (lc lp : loc) (ob : obj)
    (pps : list (pkey * value)) (k : pkey) (o : value) :
  w_heap w !! lc = Some ob ->
  prop_lookup "props" (o_props ob) = Some (VRef lp) ->
  w_heap w !! lp = Some (record pps) ->
  member_key k -> o <> VUndefined ->
  exists w',
    (d <- Prop_ o ;; d (VRef lc) (key_value k)) w = (Ok tt, w') /\
    get_in (w_heap w') (VRef lp) k = Ok o /\
    (forall k', k' <> k ->
       get_in (w_heap w') (VRef lp) k' = get_in (w_heap w) (VRef lp) k') /\
    (forall l, l <> lp -> w_heap w' !! l = w_heap w !! l) /\
    length (w_heap w') = length (w_heap w).
Proof.
  intros Hc Hprops Hp Hk Ho. eexists. split.
  { rewrite Prop_apply by exact Ho. eapply Prop_body_there; eassumption. }
  cbn [w_heap with_heap].
  split. { eapply get_in_own; [heap_solve | apply prop_update_same]. }
  split.
  { intros k' Hne.
    erewrite (get_in_plain _ lp _ (prop_update k o pps)); [| heap_solve | now right].
    rewrite (get_in_plain _ _ _ _ _ Hp) by now right.
    unfold plain_slot. rewrite prop_update_other by congruence. reflexivity. }
  split.
  { intros l Hne. now rewrite list_lookup_insert_ne by congruence. }
  now rewrite length_insert.
Qed.

Lemma Prop_extends_props_witness :
  exists w',
    (d <- Prop_ (VRef 3) ;; d (VRef 0) (VString "title")) demo_props_mapping
      = (Ok tt, w') /\
    get_in (w_heap w') (VRef 1) "title" = Ok (VRef 3) /\
    get_in (w_heap w') (VRef 1) "size" = Ok (VRef 2).
Proof.
  destruct (Prop_extends_props demo_props_mapping 0 1
              (record [(PStr "props", VRef 1)]) [(PStr "size", VRef 2)]
              (PStr "title") (VRef 3)) as (w' & H1 & H2 & H3 & _);
    [reflexivity | reflexivity | reflexivity | discriminate | discriminate |].
  exists w'. split; [exact H1|]. split; [exact H2|].
  rewrite (H3 (PStr "size")) by discriminate. reflexivity.
Defined.

(** X14: a [props] that is there but falsy ([null], [false], [0], the
    empty string) is replaced as an absent one is: [Prop] puts a new
    mapping with the one entry in its place, the options object keeping
    the order of its properties. *)
Theorem Prop_replaces_falsy_props (w : world) (lc : loc) (proto : value)
    (ps : list (pkey * value)) (v : value) (k : pkey) (o : value) :
  w_heap w !! lc = Some (Obj KObject proto ps) -> plain proto ->
  prop_lookup "props" ps = Some v -> truthy v = false ->
  member_key k -> o <> VUndefined ->
  let lp := length (w_heap w) in
  exists w',
    (d <- Prop_ o ;; d (VRef lc) (key_value k)) w = (Ok tt, w') /\
    w_heap w' !! lc = Some (Obj KObject proto (prop_update "props" (VRef lp) ps)) /\
    get_in (w_heap w') (VRef lc) "props" = Ok (VRef lp) /\
    w_heap w' !! lp = Some (record [(k, o)]).
Proof.
  intros Hc Hp Hv Hf Hk Ho lp. subst lp. eexists. split.
  { rewrite Prop_apply by exact Ho.
    eapply Prop_body_falsy; try eassumption.
    eapply get_in_own; [exact Hc | exact Hv]. }
  cbn [w_heap with_heap].
  split; [heap_solve|].
  split. { eapply get_in_own; [heap_solve | apply prop_update_same]. }
  heap_solve.
Qed.

Lemma Prop_replaces_falsy_props_witness :
  exists w',
    (d <- Prop_ (VRef 1) ;; d (VRef 0) (VString "title")) demo_props_null
      = (Ok tt, w') /\
    w_heap w' !! 0 =
      Some (record [(PStr "name", VString "demo"); (PStr "props", VRef 2);
                    (PStr "data", VNull)]) /\
    w_heap w' !! 2 = Some (record [(PStr "title", VRef 1)]).
Proof.
  destruct (Prop_replaces_falsy_props demo_props_null 0 (VBuiltin (BProto ObjectProto))
              [(PStr "name", VString "demo"); (PStr "props", VNull);
               (PStr "data", VNull)]
              VNull (PStr "title") (VRef 1)) as (w' & H1 & H2 & _ & H4);
    [reflexivity | now right | reflexivity | reflexivity | discriminate
    | discriminate |].
  exists w'. repeat split; assumption.
Defined.

(** Writing a named property of an array. *)
Lemma set_member_array_named w l elems pa k v :
  w_heap w !! l = Some (Obj (KArray elems) (VBuiltin (BProto ArrayProto)) pa) ->
  index_of_key k = None -> key_in k function_own_names = false ->
  k <> PStr "__proto__" ->
  set_member (VRef l) k v w =
    (Ok tt,
     with_heap w
       (<[l := Obj (KArray elems) (VBuiltin (BProto ArrayProto)) (prop_update k v pa)]>
          (w_heap w))).
Proof.
  intros Hl Hi Hk Hne. unfold set_member.
  rewrite (bind_run _ _ _ _ _ (read_run _ _ _ Hl)).
  assert (exists s, find_slot (length (w_heap w)) (w_heap w) (VRef l) k = Ok s) as [s Hs].
  { apply find_slot_defined; [|exact Hk].
    destruct (heap_nonempty _ _ _ Hl) as [n ->]. cbn [chain_ends]. rewrite Hl.
    destruct n; reflexivity. }
  unfold bind at 1. unfold lift. rewrite Hs.
  assert (s <> ProtoAccessor)
    by (intros ->; apply find_slot_accessor_key in Hs; contradiction).
  assert (Hlen : pkey_eqb k "length" = false).
  { destruct (pkey_eqb k "length") eqn:E; [|reflexivity].
    apply pkey_eqb_eq in E. subst k. discriminate. }
  unfold own_set. cbn [o_kind o_proto o_props]. rewrite Hlen, Hi.
  destruct s; try congruence; reflexivity.
Qed.

(** X15: when [props] is in its array form (a list of names), [Prop]
    does not convert it: the entry becomes a named property of the array,
    whose elements and length stay as they are. *)
Theorem Prop_on_array_props (w : world) (lc la : loc) (ob : obj)
    (elems : list value) (k : pkey) (o : value) :
  w_heap w !! lc = Some ob ->
  prop_lookup "props" (o_props ob) = Some (VRef la) ->
  w_heap w !! la = Some (array elems) ->
  index_of_key k = None -> key_in k function_own_names = false ->
  member_key k -> o <> VUndefined ->
  exists w',
    (d <- Prop_ o ;; d (VRef lc) (key_value k)) w = (Ok tt, w') /\
    w_heap w' !! la =
      Some (Obj (KArray elems) (VBuiltin (BProto ArrayProto)) [(k, o)]) /\
    is_array_in (w_heap w') (VRef la) = true /\
    array_elements (VRef la) w' = (Ok elems, w') /\
    get_in (w_heap w') (VRef la) "length" = Ok (VNumber (Z.of_nat (length elems))).
Proof.
  intros Hc Hprops Ha Hi Hkn Hk Ho. eexists. split.
  { rewrite Prop_apply by exact Ho.
    erewrite bind_run by (apply (props_of_there _ _ _ _ Hc Hprops); reflexivity).
    rewrite set_member_at_key.
    eapply set_member_array_named; eassumption. }
  cbn [w_heap with_heap prop_update].
  assert (Hla : <[la := Obj (KArray elems) (VBuiltin (BProto ArrayProto)) [(k, o)]]>
                  (w_heap w) !! la
                = Some (Obj (KArray elems) (VBuiltin (BProto ArrayProto)) [(k, o)]))
    by heap_solve.
  split; [exact Hla|].
  split. { now rewrite (is_array_in_ref _ _ _ Hla). }
  split.
  { unfold array_elements.
    erewrite bind_run by (apply read_run; exact Hla). reflexivity. }
  unfold get_in. destruct (heap_nonempty _ _ _ Hla) as [n ->].
  cbn [find_slot]. rewrite Hla. unfold own_get.
  cbn [o_props o_kind]. unfold prop_lookup. cbn [List.find fst].
  assert (pkey_eqb "length" k = false) as ->.
  { destruct (pkey_eqb "length" k) eqn:E; [|reflexivity].
    apply pkey_eqb_eq in E. subst k. discriminate. }
  reflexivity.
Qed.

Lemma Prop_on_array_props_witness :
  exists w',
    (d <- Prop_ (VRef 2) ;; d (VRef 0) (VString "label")) demo_props_array
      = (Ok tt, w') /\
    w_heap w' !! 1 =
      Some (Obj (KArray [VString "title"; VString "size"])
                (VBuiltin (BProto ArrayProto)) [(PStr "label", VRef 2)]).
Proof.
  destruct (Prop_on_array_props demo_props_array 0 1
              (record [(PStr "props", VRef 1)]) [VString "title"; VString "size"]
              (PStr "label") (VRef 2)) as (w' & H1 & H2 & _);
    [reflexivity | reflexivity | reflexivity | reflexivity | reflexivity
    | discriminate | discriminate |].
  exists w'. split; assumption.
Defined.

(** A write to a boolean, a number, a string or a symbol. *)
Lemma set_member_primitive v k x w :
  primitive v -> v <> VUndefined -> v <> VNull ->
  set_member v k x w =
    if pkey_eqb k "__proto__" then (Ok tt, w) else (Throw VTypeError, w).
Proof.
  intros Hp Hu Hn. destruct v; try contradiction; try congruence;
    cbn [set_member]; destruct (pkey_eqb k "__proto__"); reflexivity.
Qed.

(** X16: when [props] is a truthy value that is no object (a string, a
    number, [true], a symbol), the write of the entry throws a
    [TypeError], as a write to such a value does in strict code, for every
    member name but [__proto__]; under that name the write reaches the
    setter of [Object.prototype], which does nothing for such a receiver,
    and [Prop] returns.  The store is as it was either way. *)
Theorem Prop_on_primitive_props_throws (w : world) (lc : loc) (ob : obj)
    (v : value) (k : pkey) (o : value) :
  w_heap w !! lc = Some ob ->
  prop_lookup "props" (o_props ob) = Some v ->
  primitive v -> truthy v = true -> o <> VUndefined ->
  (member_key k ->
   (d <- Prop_ o ;; d (VRef lc) (key_value k)) w = (Throw VTypeError, w)) /\
  (d <- Prop_ o ;; d (VRef lc) (VString "__proto__")) w = (Ok tt, w).
Proof.
  intros Hc Hprops Hprim Ht Ho.
  assert (Hu : v <> VUndefined) by (intros ->; discriminate).
  assert (Hn : v <> VNull) by (intros ->; discriminate).
  assert (Hrun : forall k',
    (d <- Prop_ o ;; d (VRef lc) (key_value k')) w =
      if pkey_eqb k' "__proto__" then (Ok tt, w) else (Throw VTypeError, w)).
  { intros k'. rewrite Prop_apply by exact Ho.
    erewrite bind_run by (apply (props_of_there _ _ _ _ Hc Hprops); exact Ht).
    rewrite set_member_at_key. now apply set_member_primitive. }
  split.
  - intros Hk. rewrite Hrun. now rewrite (pkey_eqb_neq _ _ Hk).
  - apply (Hrun (PStr "__proto__")).
Qed.

Lemma Prop_on_primitive_props_throws_witness :
  (d <- Prop_ (VRef 1) ;; d (VRef 0) (VString "size")) demo_props_string
  = (Throw VTypeError, demo_props_string).
Proof.
  destruct (Prop_on_primitive_props_throws demo_props_string 0
              (record [(PStr "props", VString "title")]) (VString "title")
              (PStr "size") (VRef 1)) as (H & _);
    [reflexivity | reflexivity | exact I | reflexivity | discriminate |].
  apply H. discriminate.
Defined.

(** X17: [Model()] with neither event nor options stores a new empty
    object under [props[k]] and names the member itself as the event:
    [model = {prop: k, event: k}]. *)
Theorem Model_defaults (w : world) (lc : loc) (proto : value)
    (ps : list (pkey * value)) (k : pkey) :
  w_heap w !! lc = Some (Obj KObject proto ps) -> plain proto ->
  prop_lookup "props" ps = None -> member_key k ->
  let c := VRef lc in
  let lo := length (w_heap w) in
  let lp := S lo in
  let lm := S lp in
  exists w',
    (d <- Model VUndefined VUndefined ;; d c (key_value k)) w = (Ok tt, w') /\
    w_heap w' !! lo = Some empty_object /\
    get_in (w_heap w') c "props" = Ok (VRef lp) /\
    w_heap w' !! lp = Some (record [(k, VRef lo)]) /\
    get_in (w_heap w') c "model" = Ok (VRef lm) /\
    w_heap w' !! lm =
      Some (record [(PStr "prop", key_value k); (PStr "event", key_value k)]).
Proof.
  intros Hc Hp Hno Hk c lo lp lm. subst c lo lp lm.
  unfold Model. cbn [default_object]. unfold new_object.
  rewrite bind_bind. step. rewrite bind_ret. unfold createDecorator.
  set (lo := length (w_heap w)).
  eexists. split.
  { rewrite <- bind_bind.
    erewrite bind_run.
    2:{ eapply (Prop_body_falsy _ lc proto ps VUndefined k);
          [ heap_solve | assumption
          | eapply get_in_absent; [heap_solve | assumption | exact Hno | reflexivity]
          | reflexivity | assumption ]. }
    unfold object_literal. step.
    erewrite set_member_plain; [| heap_solve | assumption | now right].
    reflexivity. }
  cbn [w_heap with_heap]. norm_len. fold lo. cbn [or_else truthy].
  split; [subst lo; heap_solve|].
  split.
  { eapply get_in_own; [subst lo; heap_solve |]. cbn [o_props].
    rewrite prop_update_other by discriminate. apply prop_update_same. }
  split; [subst lo; heap_solve|].
  split. { eapply get_in_own; [subst lo; heap_solve | apply prop_update_same]. }
  subst lo. heap_solve.
Qed.

Lemma Model_defaults_witness :
  exists w',
    (d <- Model VUndefined VUndefined ;; d (VRef 0) (VString "checked")) demo_class
      = (Ok tt, w') /\
    w_heap w' !! 4 = Some (record [(PStr "checked", VRef 3)]) /\
    w_heap w' !! 5 =
      Some (record [(PStr "prop", VString "checked"); (PStr "event", VString "checked")]).
Proof.
  destruct (Model_defaults demo_class 0 (VBuiltin (BProto ObjectProto)) []
              (PStr "checked")) as (w' & H1 & _ & _ & H4 & _ & H6);
    [reflexivity | now right | reflexivity | discriminate |].
  exists w'. repeat split; assumption.
Defined.

(** ** [Inject] *)

Lemma value_is_null (v : value) : v = VNull \/ v <> VNull.
Proof. destruct v; (now left) || (right; discriminate). Qed.



(** X19: when [inject] is [null] or another value that is no object and
    not [undefined], [Inject] neither replaces nor skips it: it is no
    array, so the entry is written to it.  On [null] the write throws a
    [TypeError] for every member; on a boolean, a number, a string or a
    symbol it throws for every member name but [__proto__], under which it
    reaches the setter of [Object.prototype], which does nothing.  The
    store is as it was in each case. *)
Theorem Inject_non_object_throws (w : world) (lc : loc) (ob : obj)
    (v : value) (k : pkey) (options : value) :
  w_heap w !! lc = Some ob ->
  prop_lookup "inject" (o_props ob) = Some v ->
  primitive v -> v <> VUndefined ->
  (v = VNull \/ member_key k ->
   Inject options (VRef lc) (key_value k) w = (Throw VTypeError, w)) /\
  (v <> VNull ->
   Inject options (VRef lc) (VString "__proto__") w = (Ok tt, w)).
Proof.
  intros Hc Hi Hprim Hv.
  assert (Hrun : forall k',
    Inject options (VRef lc) (key_value k') w =
      set_member v k' (or_else options (key_value k')) w).
  { intros k'. unfold Inject, createDecorator.
    step_get ltac:(apply (get_in_own _ _ _ _ _ Hc Hi)).
    step.
    assert (jstype_eqb (typeof_in (w_heap w) v) TUndefined = false) as ->
      by (destruct v; try contradiction; try reflexivity; congruence).
    step.
    step_get ltac:(apply (get_in_own _ _ _ _ _ Hc Hi)).
    step.
    assert (is_array_in (w_heap w) v = false) as ->
      by (destruct v; try contradiction; reflexivity).
    cbn [negb].
    step_get ltac:(apply (get_in_own _ _ _ _ _ Hc Hi)).
    now rewrite set_member_at_key. }
  split.
  - intros [-> | Hk]; rewrite Hrun; [reflexivity|].
    destruct (value_is_null v) as [-> | Hn]; [reflexivity|].
    rewrite set_member_primitive by assumption.
    now rewrite (pkey_eqb_neq _ _ Hk).
  - intros Hn. change (VString "__proto__") with (key_value (PStr "__proto__")).
    rewrite Hrun. now rewrite set_member_primitive by assumption.
Qed.

Lemma Inject_non_object_throws_witness :
  Inject VUndefined (VRef 0) (VString "foo") demo_inject_null
  = (Throw VTypeError, demo_inject_null).
Proof.
  destruct (Inject_non_object_throws demo_inject_null 0
              (record [(PStr "inject", VNull)]) VNull (PStr "foo") VUndefined)
    as (H & _); [reflexivity | reflexivity | exact I | discriminate |].
  apply H. now left.
Defined.

(** ** [Watch] *)

(** A read of a plain object that yields [null] did not go through the
    accessor either. *)
Lemma plain_read_null_not_accessor h l proto ps k :
  h !! l = Some (Obj KObject proto ps) -> plain proto ->
  get_in h (VRef l) k = Ok VNull ->
  plain_slot proto ps k <> Ok ProtoAccessor.
Proof.
  intros Hl Hp Hg Hacc. rewrite (get_in_plain _ _ _ _ _ Hl Hp), Hacc in Hg.
  destruct Hp as [-> | ->].
  - unfold plain_slot in Hacc. destruct (prop_lookup k ps); discriminate.
  - discriminate.
Qed.

Section MoreWatching.

Variable host : nat -> callT -> value -> list value -> M value.
Variable n : nat.

(** A [watch] that is there but is no object is replaced by a new
    mapping without prototype. *)
Lemma Watch_replaces w lc proto ps v0 path deep immediate handler :
  w_heap w !! lc = Some (Obj KObject proto ps) -> plain proto ->
  prop_lookup "watch" ps = Some v0 ->
  typeof_in (w_heap w) v0 <> TObject ->
  let lw := length (w_heap w) in
  Watch_callback (call host (S n)) path deep immediate (VRef lc) handler w =
    (Ok tt,
     with_heap w
       (<[S lw := array [VRef (S (S lw))]]>
          (<[lw := Obj KObject VNull [(PStr path, VRef (S lw))]]>
             (<[lc := Obj KObject proto (prop_update "watch" (VRef lw) ps)]>
                (w_heap w ++ [Obj KObject VNull []])
              ++ [array []])
           ++ [descriptor handler deep immediate]))).
Proof.
  intros Hc Hp Hv Ht lw. subst lw. unfold Watch_callback, createDecorator.
  step_get ltac:(apply (get_in_own _ _ _ _ _ Hc Hv)).
  step.
  assert (jstype_eqb (typeof_in (w_heap w) v0) TObject = false) as ->.
  { destruct (jstype_eqb (typeof_in (w_heap w) v0) TObject) eqn:E; [|reflexivity].
    apply jstype_eqb_eq in E. contradiction. }
  cbn [negb]. unfold Object_create.
  rewrite bind_bind. step.
  erewrite bind_run by (apply set_member_plain; [heap_solve | assumption | now right]).
  step_get ltac:(eapply get_in_own;
                   [heap_solve | cbn [o_props]; apply prop_update_same]).
  step_get ltac:(eapply get_in_null_absent; [heap_solve | reflexivity]).
  step. step. cbn [typeof_in is_array_in jstype_eqb andb negb].
  unfold new_array. rewrite bind_bind. step.
  erewrite bind_run by (apply set_member_plain; [heap_solve | now left | now left]).
  etransitivity;
    [eapply Watch_push; [heap_solve | apply prop_lookup_head | heap_solve] |].
  unfold with_heap. cbn [w_heap w_jobs w_emitted prop_update].
  norm_len. reflexivity.
Qed.

(** An entry that is [null] is promoted like a single object. *)
Lemma Watch_null_entry w lc obc lw proto pw path deep immediate handler :
  w_heap w !! lc = Some obc ->
  prop_lookup "watch" (o_props obc) = Some (VRef lw) ->
  w_heap w !! lw = Some (Obj KObject proto pw) -> plain proto ->
  get_in (w_heap w) (VRef lw) (PStr path) = Ok VNull ->
  Watch_callback (call host (S n)) path deep immediate (VRef lc) handler w =
    (Ok tt, after_watch_entry w lw proto pw path [VNull] handler deep immediate).
Proof.
  intros Hc Hcw Hw Hp Hg. unfold Watch_callback, createDecorator.
  step_get ltac:(apply (get_in_own _ _ _ _ _ Hc Hcw)).
  step. rewrite (typeof_in_ref _ _ _ Hw). cbn [o_kind jstype_eqb negb]. step.
  step_get ltac:(apply (get_in_own _ _ _ _ _ Hc Hcw)).
  step_get ltac:(exact Hg).
  step. step. cbn [typeof_in is_array_in jstype_eqb andb negb].
  rewrite bind_bind. step_get ltac:(exact Hg).
  unfold new_array. rewrite bind_bind. step.
  erewrite bind_run.
  2:{ apply set_member_data; [heap_solve | assumption |].
      eapply plain_read_null_not_accessor; [exact Hw | assumption | exact Hg]. }
  etransitivity;
    [eapply Watch_push; [heap_solve | apply prop_update_same | heap_solve] |].
  unfold after_watch_entry, with_heap. cbn [w_heap w_jobs w_emitted app].
  norm_len. reflexivity.
Qed.

(** An entry that is neither an object nor [undefined] stays, and the
    call of its [push] throws when it has none. *)
Lemma Watch_unpushable_entry w lc obc lw obw v path deep immediate handler :
  w_heap w !! lc = Some obc ->
  prop_lookup "watch" (o_props obc) = Some (VRef lw) ->
  w_heap w !! lw = Some obw -> o_kind obw = KObject ->
  get_in (w_heap w) (VRef lw) (PStr path) = Ok v ->
  typeof_in (w_heap w) v <> TObject -> typeof_in (w_heap w) v <> TUndefined ->
  get_in (w_heap w) v "push" = Ok VUndefined ->
  Watch_callback (call host (S n)) path deep immediate (VRef lc) handler w =
    (Throw VTypeError,
     with_heap w (w_heap w ++ [descriptor handler deep immediate])).
Proof.
  intros Hc Hcw Hw Hk Hg Ht1 Ht2 Hpush. unfold Watch_callback, createDecorator.
  step_get ltac:(apply (get_in_own _ _ _ _ _ Hc Hcw)).
  step. rewrite (typeof_in_ref _ _ _ Hw), Hk. cbn [jstype_eqb negb]. step.
  step_get ltac:(apply (get_in_own _ _ _ _ _ Hc Hcw)).
  step_get ltac:(exact Hg).
  step. step.
  assert (jstype_eqb (typeof_in (w_heap w) v) TObject = false) as ->.
  { destruct (jstype_eqb (typeof_in (w_heap w) v) TObject) eqn:E; [|reflexivity].
    apply jstype_eqb_eq in E. contradiction. }
  assert (jstype_eqb (typeof_in (w_heap w) v) TUndefined = false) as ->.
  { destruct (jstype_eqb (typeof_in (w_heap w) v) TUndefined) eqn:E; [|reflexivity].
    apply jstype_eqb_eq in E. contradiction. }
  cbn [andb]. step.
  step_get ltac:(exact Hg).
  step_get ltac:(exact Hpush).
  unfold object_literal. step.
  erewrite bind_throw by apply call_undefined. reflexivity.
Qed.

End MoreWatching.

(** X20: [Watch] takes [deep] and [immediate] from its options as they
    are, without converting them to booleans, and [false] for each that
    is absent or [undefined]; it allocates nothing when options are
    given.  With [null] as options it throws a [TypeError] before any
    decorator is made. *)
Theorem Watch_option_members
    (host : nat -> callT -> value -> list value -> M value) (n : nat)
    (w : world) (path : string) :
  (forall lo po,
     w_heap w !! lo = Some (record po) ->
     let member k :=
       match prop_lookup (PStr k) po with Some v => v | None => VUndefined end in
     Watch (call host n) path (VRef lo) w =
       (Ok (Watch_callback (call host n) path
              (default_false (member "deep")) (default_false (member "immediate"))),
        w)) /\
  Watch (call host n) path VNull w = (Throw VTypeError, w).
Proof.
  split; [|reflexivity].
  intros lo po Hl. exact (Watch_options host n w path lo po Hl).
Qed.

Lemma Watch_option_members_witness :
  Watch (call idle_host 1) "value" (VRef 0) demo_watch_options =
    (Ok (Watch_callback (call idle_host 1) "value" (VBool true) (VBool false)),
     demo_watch_options).
Proof.
  destruct (Watch_option_members idle_host 1 demo_watch_options "value") as (H & _).
  exact (H 0 [(PStr "deep", VBool true)] eq_refl).
Defined.

(** X21: when the [watch] of the class is [null], the callback of
    [Watch] keeps it ([typeof null] is ['object']) and throws a
    [TypeError] at the read of the entry; the store is as it was. *)
Theorem Watch_null_mapping_throws
    (host : nat -> callT -> value -> list value -> M value) (n : nat)
    (w : world) (lc : loc) (ob : obj) (path : string)
    (deep immediate handler : value) :
  w_heap w !! lc = Some ob ->
  prop_lookup "watch" (o_props ob) = Some VNull ->
  Watch_callback (call host n) path deep immediate (VRef lc) handler w
    = (Throw VTypeError, w).
Proof.
  intros Hc Hw. unfold Watch_callback, createDecorator.
  step_get ltac:(apply (get_in_own _ _ _ _ _ Hc Hw)).
  step. cbn [typeof_in jstype_eqb negb]. step.
  step_get ltac:(apply (get_in_own _ _ _ _ _ Hc Hw)).
  reflexivity.
Qed.

Lemma Watch_null_mapping_throws_witness :
  Watch_callback (call idle_host 1) "value" (VBool false) (VBool false)
    (VRef 0) (VString "onValue") demo_watch_null
  = (Throw VTypeError, demo_watch_null).
Proof.
  apply (Watch_null_mapping_throws idle_host 1 demo_watch_null 0
           (record [(PStr "watch", VNull)])); reflexivity.
Defined.

(** X22: a [watch] of the class that is there but is no object (a
    string, a number, a boolean, a function, [undefined]) is dropped: the
    callback of [Watch] puts a new mapping without prototype in its place,
    with the array of the one descriptor under the path. *)
Theorem Watch_replaces_non_object
    (host : nat -> callT -> value -> list value -> M value) (n : nat)
    (w : world) (lc : loc) (proto : value) (ps : list (pkey * value))
    (v0 : value) (path : string) (deep immediate handler : value) :
  w_heap w !! lc = Some (Obj KObject proto ps) -> plain proto ->
  prop_lookup "watch" ps = Some v0 ->
  typeof_in (w_heap w) v0 <> TObject ->
  let lw := length (w_heap w) in
  let la := S lw in
  let ld := S la in
  exists w',
    Watch_callback (call host (S n)) path deep immediate (VRef lc) handler w
      = (Ok tt, w') /\
    w_heap w' !! lc = Some (Obj KObject proto (prop_update "watch" (VRef lw) ps)) /\
    get_in (w_heap w') (VRef lc) "watch" = Ok (VRef lw) /\
    w_heap w' !! lw = Some (Obj KObject VNull [(PStr path, VRef la)]) /\
    w_heap w' !! la = Some (array [VRef ld]) /\
    w_heap w' !! ld = Some (descriptor handler deep immediate).
Proof.
  intros Hc Hp Hv Ht lw la ld. subst lw la ld. eexists.
  split; [eapply Watch_replaces; eassumption|].
  cbn [w_heap with_heap].
  split; [heap_solve|].
  split. { eapply get_in_own; [heap_solve | apply prop_update_same]. }
  split; [heap_solve|]. split; heap_solve.
Qed.

Lemma Watch_replaces_non_object_witness :
  exists w',
    Watch_callback (call idle_host 1) "value" (VBool false) (VBool false)
      (VRef 0) (VString "onValue") demo_watch_string = (Ok tt, w') /\
    w_heap w' !! 0 =
      Some (record [(PStr "name", VString "demo"); (PStr "watch", VRef 1)]) /\
    w_heap w' !! 1 = Some (Obj KObject VNull [(PStr "value", VRef 2)]) /\
    w_heap w' !! 2 = Some (array [VRef 3]).
Proof.
  destruct (Watch_replaces_non_object idle_host 0 demo_watch_string 0
              (VBuiltin (BProto ObjectProto))
              [(PStr "name", VString "demo"); (PStr "watch", VString "value")]
              (VString "value") "value" (VBool false) (VBool false)
              (VString "onValue")) as (w' & H1 & H2 & _ & H4 & H5 & _);
    [reflexivity | now right | reflexivity | discriminate |].
  exists w'. repeat split; assumption.
Defined.

(** X23: an entry that is [null] counts as a single object
    ([typeof null] is ['object'], and it is no array): it is promoted, so
    the path holds the array of [null] and the new descriptor. *)
Theorem Watch_promotes_null_entry
    (host : nat -> callT -> value -> list value -> M value) (n : nat)
    (w : world) (lc lw : loc) (obc : obj) (proto : value)
    (pw : list (pkey * value)) (path : string) (deep immediate handler : value) :
  w_heap w !! lc = Some obc ->
  prop_lookup "watch" (o_props obc) = Some (VRef lw) ->
  w_heap w !! lw = Some (Obj KObject proto pw) -> plain proto ->
  get_in (w_heap w) (VRef lw) (PStr path) = Ok VNull ->
  let la := length (w_heap w) in
  exists w',
    Watch_callback (call host (S n)) path deep immediate (VRef lc) handler w
      = (Ok tt, w') /\
    get_in (w_heap w') (VRef lw) (PStr path) = Ok (VRef la) /\
    w_heap w' !! la = Some (array [VNull; VRef (S la)]) /\
    w_heap w' !! S la = Some (descriptor handler deep immediate).
Proof.
  intros Hc Hcw Hw Hp Hg la. subst la. eexists.
  split; [eapply Watch_null_entry; eassumption|].
  unfold after_watch_entry. cbn [w_heap with_heap].
  split. { eapply get_in_own; [heap_solve | apply prop_update_same]. }
  split; heap_solve.
Qed.

Lemma Watch_promotes_null_entry_witness :
  exists w',
    Watch_callback (call idle_host 1) "value" (VBool false) (VBool false)
      (VRef 0) (VString "onValue") demo_watch_entries = (Ok tt, w') /\
    w_heap w' !! 4 = Some (array [VNull; VRef 5]).
Proof.
  destruct (Watch_promotes_null_entry idle_host 0 demo_watch_entries 0 1
              (record [(PStr "watch", VRef 1)]) (VBuiltin (BProto ObjectProto))
              [(PStr "value", VNull); (PStr "size", VString "onSize");
               (PStr "items", VRef 2)]
              "value" (VBool false) (VBool false) (VString "onValue"))
    as (w' & H1 & _ & H3 & _);
    [reflexivity | reflexivity | reflexivity | now right | reflexivity |].
  exists w'. split; assumption.
Defined.

(** X24: an entry that is a string (the name of a method, which the
    framework accepts as a watcher), a number, a boolean or a symbol is
    neither promoted nor replaced; it has no [push], so the callback of
    [Watch] throws a [TypeError], and the entry stays as it was. *)
Theorem Watch_primitive_entry_throws
    (host : nat -> callT -> value -> list value -> M value) (n : nat)
    (w : world) (lc lw : loc) (obc obw : obj) (v : value)
    (path : string) (deep immediate handler : value) :
  w_heap w !! lc = Some obc ->
  prop_lookup "watch" (o_props obc) = Some (VRef lw) ->
  w_heap w !! lw = Some obw -> o_kind obw = KObject ->
  get_in (w_heap w) (VRef lw) (PStr path) = Ok v ->
  primitive v -> v <> VUndefined -> v <> VNull ->
  let w' := with_heap w (w_heap w ++ [descriptor handler deep immediate]) in
  Watch_callback (call host (S n)) path deep immediate (VRef lc) handler w
    = (Throw VTypeError, w') /\
  get_in (w_heap w') (VRef lw) (PStr path) = Ok v.
Proof.
  intros Hc Hcw Hw Hk Hg Hprim Hu Hn w'. subst w'. split.
  - eapply Watch_unpushable_entry; try eassumption;
      destruct v; try contradiction; try congruence; try discriminate; reflexivity.
  - eapply get_in_similar; [apply similar_alloc | exact Hg].
Qed.

Lemma Watch_primitive_entry_throws_witness :
  Watch_callback (call idle_host 1) "size" (VBool false) (VBool false)
    (VRef 0) (VString "logSize") demo_watch_entries
  = (Throw VTypeError,
     with_heap demo_watch_entries
       (w_heap demo_watch_entries ++
        [descriptor (VString "logSize") (VBool false) (VBool false)])).
Proof.
  apply (Watch_primitive_entry_throws idle_host 0 demo_watch_entries 0 1
           (record [(PStr "watch", VRef 1)])
           (record [(PStr "value", VNull); (PStr "size", VString "onSize");
                    (PStr "items", VRef 2)])
           (VString "onSize") "size" (VBool false) (VBool false) (VString "logSize"));
    try reflexivity; try discriminate; exact I.
Defined.

(** X25: when the path holds an array already, of any length, the
    callback of [Watch] appends the new descriptor to that same array:
    the elements before it are kept in their order, the mapping still
    refers to the array, and no other object of the store changes. *)
Theorem Watch_appends_in_place
    (host : nat -> callT -> value -> list value -> M value) (n : nat)
    (w : world) (lc lw la : loc) (obc obw : obj) (elems : list value)
    (path : string) (deep immediate handler : value) :
  w_heap w !! lc = Some obc ->
  prop_lookup "watch" (o_props obc) = Some (VRef lw) ->
  w_heap w !! lw = Some obw -> o_kind obw = KObject ->
  prop_lookup (PStr path) (o_props obw) = Some (VRef la) ->
  w_heap w !! la = Some (array elems) ->
  let ld := length (w_heap w) in
  exists w',
    Watch_callback (call host (S n)) path deep immediate (VRef lc) handler w
      = (Ok tt, w') /\
    get_in (w_heap w') (VRef lw) (PStr path) = Ok (VRef la) /\
    w_heap w' !! la = Some (array (elems ++ [VRef ld])) /\
    w_heap w' !! ld = Some (descriptor handler deep immediate) /\
    (forall l ob, l <> la -> w_heap w !! l = Some ob -> w_heap w' !! l = Some ob).
Proof.
  intros Hc Hcw Hw Hk Hp Ha ld. subst ld. eexists.
  split; [eapply Watch_append; eassumption|].
  cbn [w_heap with_heap].
  assert (Hne : lw <> la).
  { intros ->. rewrite Ha in Hw. inversion Hw; subst. discriminate. }
  split. { eapply get_in_own; [heap_solve | exact Hp]. }
  split; [heap_solve|]. split; [heap_solve|].
  intros l ob Hl Hob. rewrite list_lookup_insert_ne by congruence.
  now apply lookup_alloc_old.
Qed.

Lemma Watch_appends_in_place_witness :
  exists w',
    Watch_callback (call idle_host 1) "items" (VBool true) (VBool false)
      (VRef 0) (VString "logItems") demo_watch_entries = (Ok tt, w') /\
    w_heap w' !! 2 = Some (array [VRef 3; VRef 4]) /\
    w_heap w' !! 4 = Some (descriptor (VString "logItems") (VBool true) (VBool false)).
Proof.
  destruct (Watch_appends_in_place idle_host 0 demo_watch_entries 0 1 2
              (record [(PStr "watch", VRef 1)])
              (record [(PStr "value", VNull); (PStr "size", VString "onSize");
                       (PStr "items", VRef 2)])
              [VRef 3] "items" (VBool true) (VBool false) (VString "logItems"))
    as (w' & H1 & _ & H3 & H4 & _); try reflexivity.
  exists w'. repeat split; assumption.
Defined.

(** X26: a [Watch] on a path that the mapping of the class does not
    have yet adds the path and leaves the others alone: every other key
    of the mapping reads as before. *)
Theorem Watch_new_path_keeps_others
    (host : nat -> callT -> value -> list value -> M value) (n : nat)
    (w : world) (lc lw : loc) (obc : obj) (proto : value)
    (pw : list (pkey * value)) (path : string) (deep immediate handler : value) :
  w_heap w !! lc = Some obc ->
  prop_lookup "watch" (o_props obc) = Some (VRef lw) ->
  w_heap w !! lw = Some (Obj KObject proto pw) -> plain proto ->
  get_in (w_heap w) (VRef lw) (PStr path) = Ok VUndefined ->
  let la := length (w_heap w) in
  exists w',
    Watch_callback (call host (S n)) path deep immediate (VRef lc) handler w
      = (Ok tt, w') /\
    get_in (w_heap w') (VRef lw) (PStr path) = Ok (VRef la) /\
    w_heap w' !! la = Some (array [VRef (S la)]) /\
    (forall q, q <> PStr path ->
       get_in (w_heap w') (VRef lw) q = get_in (w_heap w) (VRef lw) q).
Proof.
  intros Hc Hcw Hw Hp Hg la. subst la. eexists.
  split; [eapply Watch_absent_entry; eassumption|].
  unfold after_watch_entry. cbn [w_heap with_heap app].
  split. { eapply get_in_own; [heap_solve | apply prop_update_same]. }
  split; [heap_solve|].
  intros q Hq.
  erewrite (get_in_plain _ lw proto (prop_update (PStr path) _ pw));
    [| heap_solve | assumption].
  rewrite (get_in_plain _ _ _ _ _ Hw Hp).
  unfold plain_slot. rewrite prop_update_other by congruence. reflexivity.
Qed.

Lemma Watch_new_path_keeps_others_witness :
  exists w',
    Watch_callback (call idle_host 1) "other" (VBool false) (VBool false)
      (VRef 0) (VString "onOther") demo_watch = (Ok tt, w') /\
    get_in (w_heap w') (VRef 1) "other" = Ok (VRef 4) /\
    get_in (w_heap w') (VRef 1) "value" = Ok (VRef 2).
Proof.
  destruct (Watch_new_path_keeps_others idle_host 0 demo_watch 0 1
              (record [(PStr "watch", VRef 1)]) (VBuiltin (BProto ObjectProto))
              [(PStr "value", VRef 2); (PStr "size", VRef 3)]
              "other" (VBool false) (VBool false) (VString "onOther"))
    as (w' & H1 & H2 & _ & H4);
    [reflexivity | reflexivity | reflexivity | now right | reflexivity |].
  exists w'. split; [exact H1|]. split; [exact H2|].
  rewrite (H4 (PStr "value")) by discriminate. reflexivity.
Defined.

(** ** [Provide] *)

(** X27: two [Provide] decorators on a class whose [provide] is not
    yet the function of the decorator, for any two members and keys: the
    first installs the function with its [managed] mapping, the second
    changes neither the function nor the option and writes into the same
    mapping.  A member is provided under the key given, or under its own
    name when none or an empty one is; the same member twice leaves one
    entry, the later one. *)
Theorem Provide_twice (w : world) (lc : loc) (proto : value)
    (ps : list (pkey * value)) (orig : value) (k1 k2 : pkey) (key1 key2 : value) :
  w_heap w !! lc = Some (Obj KObject proto ps) -> plain proto ->
  get_in (w_heap w) (VRef lc) "provide" = Ok orig ->
  unmanaged (w_heap w) orig ->
  member_key k1 -> member_key k2 ->
  let c := VRef lc in
  let lf := length (w_heap w) in
  let lm := S lf in
  let chosen (key : value) (k : pkey) :=
    if truthy key then key else key_value k in
  exists w1 w2,
    Provide key1 c (key_value k1) w = (Ok tt, w1) /\
    Provide key2 c (key_value k2) w1 = (Ok tt, w2) /\
    get_in (w_heap w2) c "provide" = Ok (VRef lf) /\
    w_heap w2 !! lf =
      Some (Obj (KFunction (CProvide orig)) (VBuiltin (BProto FunctionProto))
                [(PStr "managed", VRef lm)]) /\
    w_heap w2 !! lm =
      Some (record (prop_update k2 (chosen key2 k2) [(k1, chosen key1 k1)])).
Proof.
  intros Hc Hp Hg Hun Hk1 Hk2 c lf lm chosen. subst c lf lm chosen. cbv beta.
  exists (after_first_provide w lc proto ps orig k1 key1).
  eexists.
  split; [now apply Provide_first|].
  split.
  { eapply (Provide_again _ _ _ _ _ _ _ _ k2);
      [ unfold after_first_provide; heap_solve
      | apply prop_update_same
      | unfold after_first_provide; heap_solve
      | reflexivity
      | apply prop_lookup_head
      | unfold after_first_provide; heap_solve
      | assumption ]. }
  unfold after_first_provide. cbn [w_heap with_heap].
  split. { eapply get_in_own; [heap_solve | apply prop_update_same]. }
  split; heap_solve.
Qed.

Lemma Provide_twice_witness :
  exists w1 w2,
    Provide VUndefined (VRef 0) (VString "a") demo_provide = (Ok tt, w1) /\
    Provide (VString "y") (VRef 0) (VString "a") w1 = (Ok tt, w2) /\
    w_heap w2 !! 4 = Some (record [(PStr "a", VString "y")]).
Proof.
  destruct (Provide_twice demo_provide 0 (VBuiltin (BProto ObjectProto))
              [(PStr "provide", VRef 1)] (VRef 1) (PStr "a") (PStr "a")
              VUndefined (VString "y")) as (w1 & w2 & H1 & H2 & _ & _ & H5);
    [reflexivity | now right | reflexivity | left; discriminate
    | discriminate | discriminate |].
  exists w1, w2. repeat split; assumption.
Defined.

(** Lookups along a chain of ordinary objects are defined for every
    key, in every store that has the objects of [h] as they are. *)
Lemma object_chain_find_slot n (h h' : heap) v k :
  (forall l ob, h !! l = Some ob -> h' !! l = Some ob) ->
  object_chain n h v = true -> exists s, find_slot n h' v k = Ok s.
Proof.
  intros Hold. revert v. induction n as [|n IH]; intros v Hc;
    destruct v as [| | | | | |l|[[]| | |]|]; cbn [object_chain] in Hc;
    try discriminate; cbn [find_slot builtin_slot];
    try apply object_proto_slot_defined; eauto.
  - destruct (h !! l) as [[[] ? ?]|]; discriminate.
  - destruct (h !! l) as [[[] proto ps]|] eqn:Hl; try discriminate.
    rewrite (Hold _ _ Hl). unfold own_get. cbn [o_props o_kind o_proto].
    destruct (prop_lookup k ps); eauto.
Qed.

(** Writing a key of an ordinary object when the lookup along its
    prototype is defined. *)
Lemma set_member_over w l proto ps k v n s :
  w_heap w !! l = Some (Obj KObject proto ps) ->
  length (w_heap w) = S n ->
  find_slot n (w_heap w) proto k = Ok s ->
  k <> PStr "__proto__" ->
  set_member (VRef l) k v w =
    (Ok tt, with_heap w (<[l := Obj KObject proto (prop_update k v ps)]> (w_heap w))).
Proof.
  intros Hl Hn Hs Hne.
  assert (exists s', find_slot (length (w_heap w)) (w_heap w) (VRef l) k = Ok s')
    as [s' Hs'].
  { rewrite Hn. cbn [find_slot]. rewrite Hl. unfold own_get.
    cbn [o_props o_kind o_proto]. destruct (prop_lookup k ps); eauto. }
  eapply set_member_object; [exact Hl | exact Hs' |].
  intros ->. apply find_slot_accessor_key in Hs'. contradiction.
Qed.

(** The loop of the function of [Provide], over the result object at
    [length h], which holds [acc] so far. *)
Lemma provide_loop x (h : heap) lf obf lm pm this pr entries acc :
  h !! lf = Some obf ->
  prop_lookup "managed" (o_props obf) = Some (VRef lm) ->
  h !! lm = Some (record pm) ->
  Forall (managed_as h this pm pr) entries ->
  chain_ends (length h) h pr = true ->
  for_each (map entry_field entries)
    (fun i =>
       managed <- get_member (VRef lf) "managed" ;;
       target <- get_member managed (PStr i) ;;
       v <- get_member this (PStr i) ;;
       set_member_at (VRef (length h)) target v)
    (with_heap x (<[length h := Obj KObject pr acc]> (h ++ [Obj KObject pr []])))
  = (Ok tt,
     with_heap x
       (<[length h := Obj KObject pr (provided_props entries acc)]>
          (h ++ [Obj KObject pr []]))).
Proof.
  intros Hf Hfm Hm Hall Hchain. revert acc.
  induction Hall as [|[[i t] v] entries (Ht & Hv & Hne & Hkn) _ IH]; intros acc;
    [reflexivity|].
  cbn [entry_field entry_key entry_value fst snd] in *.
  cbn [map for_each provided_props fold_left entry_field entry_key entry_value fst snd].
  set (H := <[length h := Obj KObject pr acc]> (h ++ [Obj KObject pr []])).
  assert (Hold : forall l ob, h !! l = Some ob -> H !! l = Some ob).
  { intros l ob Hl. subst H. pose proof (lookup_lt_Some _ _ _ Hl).
    rewrite list_lookup_insert_ne by lia. now apply lookup_alloc_old. }
  assert (Hrv : H !! length h = Some (Obj KObject pr acc)).
  { subst H. apply list_lookup_insert_eq. rewrite length_app. cbn [length]. lia. }
  assert (Hdef : exists s, find_slot (length h) H pr t = Ok s).
  { destruct Hkn as [Hkn | Hoc].
    - apply find_slot_defined; [|exact Hkn].
      apply (chain_ends_similar _ _ _ _ _ (similar_above (PStr "x") _ _ Hold) Hchain).
    - now apply (object_chain_find_slot _ h). }
  destruct Hdef as [s Hs].
  rewrite !bind_bind.
  step_get ltac:(eapply get_in_own; [apply Hold; exact Hf | exact Hfm]).
  step_get ltac:(eapply get_in_own; [apply Hold; exact Hm | exact Ht]).
  step_get ltac:(apply (get_in_similar _ _ _ _ _ (similar_above _ _ _ Hold) Hv)).
  rewrite set_member_at_key.
  erewrite bind_run.
  2:{ eapply (set_member_over _ _ _ _ _ _ (length h));
        [ exact Hrv
        | cbn [w_heap with_heap]; subst H; rewrite length_insert, length_app;
          cbn [length]; lia
        | exact Hs | exact Hne ]. }
  cbn [w_heap with_heap]. subst H. rewrite list_insert_insert_eq.
  apply (IH (prop_update t v acc)).
Qed.

(** The function of [Provide], run on an instance: [v'] is the world in
    which the base value is ready, [entries] what the enumeration of
    [managed] meets. *)
Lemma provide_function_copies call v v' lf obf lm pm orig this base entries :
  (fn <- is_function orig ;; if fn then call orig this [] else ret orig) v
    = (Ok base, v') ->
  w_heap v' !! lf = Some obf ->
  prop_lookup "managed" (o_props obf) = Some (VRef lm) ->
  w_heap v' !! lm = Some (record pm) ->
  enum_order (string_keys pm) = map entry_field entries ->
  Forall (managed_as (w_heap v') this pm (or_else base VNull)) entries ->
  object_or_null (or_else base VNull) ->
  chain_ends (length (w_heap v')) (w_heap v') (or_else base VNull) = true ->
  provide_function call (VRef lf) orig this v =
    (Ok (VRef (length (w_heap v'))),
     with_heap v'
       (<[length (w_heap v') :=
            Obj KObject (or_else base VNull) (provided_props entries [])]>
          (w_heap v' ++ [Obj KObject (or_else base VNull) []]))).
Proof.
  intros Hbase Hf Hfm Hm Henum Hall Hobj Hchain.
  set (pr := or_else base VNull) in *.
  set (h := w_heap v') in *.
  unfold provide_function.
  rewrite (bind_run _ _ _ _ _ (is_function_run _ _)).
  rewrite (bind_run _ _ _ _ _ (is_function_run _ _)) in Hbase.
  erewrite bind_run by exact Hbase. fold pr.
  rewrite (bind_run _ _ _ _ _ (Object_create_run _ _ Hobj)). fold h.
  step_get ltac:(eapply get_in_own; [heap_solve | exact Hfm]).
  erewrite bind_run by (apply for_in_record; heap_solve).
  rewrite Henum.
  assert (Hid : with_heap v' (h ++ [Obj KObject pr []])
                = with_heap v' (<[length h := Obj KObject pr []]> (h ++ [Obj KObject pr []])))
    by (now rewrite list_insert_id by apply lookup_alloc_new).
  rewrite Hid.
  erewrite bind_run by (eapply provide_loop; eassumption).
  reflexivity.
Qed.

Lemma provided_props_app pre post acc :
  provided_props (pre ++ post) acc = provided_props post (provided_props pre acc).
Proof. apply fold_left_app. Qed.

Lemma provided_props_other t entries acc :
  ~ In t (map entry_key entries) ->
  prop_lookup t (provided_props entries acc) = prop_lookup t acc.
Proof.
  revert acc. induction entries as [|e entries IH]; intros acc Hn; [reflexivity|].
  cbn [provided_props fold_left]. cbn [map In] in Hn.
  change (prop_lookup t (provided_props entries
            (prop_update (entry_key e) (entry_value e) acc)) = prop_lookup t acc).
  rewrite IH by tauto. apply prop_update_other. tauto.
Qed.

Lemma provided_props_last pre e post acc :
  ~ In (entry_key e) (map entry_key post) ->
  prop_lookup (entry_key e) (provided_props (pre ++ e :: post) acc)
  = Some (entry_value e).
Proof.
  intros Hn. rewrite provided_props_app.
  change (provided_props (e :: post) (provided_props pre acc))
    with (provided_props post
            (prop_update (entry_key e) (entry_value e) (provided_props pre acc))).
  rewrite provided_props_other by exact Hn. apply prop_update_same.
Qed.

(** X28: the function [Provide] installs, called on an instance,
    returns a new object on top of the base and copies to it every field
    its [managed] mapping names, under the key the mapping gives, in the
    order of the enumeration (symbol-named members are not enumerated, so
    they are not among the entries).  Each key reads as the value of its
    field; when two fields share a key, as that of the later one.  The
    store is otherwise untouched.  The keys are any but [__proto__]; a key
    that is a native property of functions ([name], [length], ...) is
    covered when the chain of the base holds ordinary objects only. *)
Theorem Provide_function_copies_fields
    (host : nat -> callT -> value -> list value -> M value) (n : nat)
    (orig : value) (v v' : world) (lf lm : loc) (obf0 obf : obj)
    (pm : list (pkey * value)) (this base : value)
    (entries : list managed_entry) :
  w_heap v !! lf = Some obf0 -> o_kind obf0 = KFunction (CProvide orig) ->
  (fn <- is_function orig ;; if fn then call host n orig this [] else ret orig) v
    = (Ok base, v') ->
  w_heap v' !! lf = Some obf ->
  prop_lookup "managed" (o_props obf) = Some (VRef lm) ->
  w_heap v' !! lm = Some (record pm) ->
  enum_order (string_keys pm) = map entry_field entries ->
  Forall (managed_as (w_heap v') this pm (or_else base VNull)) entries ->
  object_or_null (or_else base VNull) ->
  chain_ends (length (w_heap v')) (w_heap v') (or_else base VNull) = true ->
  let lrv := length (w_heap v') in
  exists v'',
    call host (S n) (VRef lf) this [] v = (Ok (VRef lrv), v'') /\
    w_heap v'' !! lrv =
      Some (Obj KObject (or_else base VNull) (provided_props entries [])) /\
    (forall pre e post,
       entries = pre ++ e :: post ->
       ~ In (entry_key e) (map entry_key post) ->
       get_in (w_heap v'') (VRef lrv) (entry_key e) = Ok (entry_value e)) /\
    (forall l ob, w_heap v' !! l = Some ob -> w_heap v'' !! l = Some ob).
Proof.
  intros Hf0 Hk0 Hbase Hf Hfm Hm Henum Hall Hobj Hchain lrv. subst lrv.
  eexists. split.
  { erewrite call_function by (first [exact Hf0 | exact Hk0]).
    cbn [run_code]. eapply provide_function_copies; eassumption. }
  cbn [w_heap with_heap].
  assert (Hrv : forall o (h : heap),
            <[length h := o]> (h ++ [Obj KObject (or_else base VNull) []]) !! length h
            = Some o).
  { intros o h. apply list_lookup_insert_eq. rewrite length_app. cbn [length]. lia. }
  split; [apply Hrv|].
  split.
  - intros pre e post -> Hn.
    eapply get_in_own; [apply Hrv|]. cbn [o_props].
    now apply provided_props_last.
  - intros l ob Hl. pose proof (lookup_lt_Some _ _ _ Hl).
    rewrite list_lookup_insert_ne by lia. now apply lookup_alloc_old.
Qed.

Lemma Provide_function_copies_fields_witness :
  exists v'',
    call idle_host 1 (VRef 3) (VRef 2) [] demo_provided_name = (Ok (VRef 5), v'') /\
    w_heap v'' !! 5 =
      Some (Obj KObject (VRef 1) [(PStr "x", VNumber 1); (PStr "name", VString "n")]) /\
    get_in (w_heap v'') (VRef 5) "name" = Ok (VString "n").
Proof.
  destruct (Provide_function_copies_fields idle_host 0 (VRef 1)
              demo_provided_name demo_provided_name 3 4
              (Obj (KFunction (CProvide (VRef 1))) (VBuiltin (BProto FunctionProto))
                   [(PStr "managed", VRef 4)])
              (Obj (KFunction (CProvide (VRef 1))) (VBuiltin (BProto FunctionProto))
                   [(PStr "managed", VRef 4)])
              [(PStr "a", VString "x"); (PStr "name", VString "name")]
              (VRef 2) (VRef 1)
              [("a", PStr "x", VNumber 1); ("name", PStr "name", VString "n")])
    as (v'' & H1 & H2 & H3 & _);
    [ reflexivity | reflexivity | reflexivity | reflexivity | reflexivity
    | reflexivity | reflexivity
    | repeat constructor; try discriminate; right; reflexivity
    | exact I | reflexivity | ].
  exists v''. split; [exact H1|]. split; [exact H2|].
  apply (H3 [("a", PStr "x", VNumber 1)] ("name", PStr "name", VString "n") [] eq_refl).
  cbn. tauto.
Defined.

(** X29: what the function of [Provide] does not copy is inherited:
    when the base is an object, a key other than [__proto__] that is none
    of the provided ones reads on the result as it reads on the base; when
    the base is falsy, the result has no prototype and such a key reads
    [undefined].  The provided keys are as in the entries: any but
    [__proto__], those that are native properties of functions being
    covered when the chain of the base holds ordinary objects only. *)
Theorem Provide_function_inherits_base
    (host : nat -> callT -> value -> list value -> M value) (n : nat)
    (orig : value) (v v' : world) (lf lm : loc) (obf0 obf : obj)
    (pm : list (pkey * value)) (this base : value)
    (entries : list managed_entry) :
  w_heap v !! lf = Some obf0 -> o_kind obf0 = KFunction (CProvide orig) ->
  (fn <- is_function orig ;; if fn then call host n orig this [] else ret orig) v
    = (Ok base, v') ->
  w_heap v' !! lf = Some obf ->
  prop_lookup "managed" (o_props obf) = Some (VRef lm) ->
  w_heap v' !! lm = Some (record pm) ->
  enum_order (string_keys pm) = map entry_field entries ->
  Forall (managed_as (w_heap v') this pm (or_else base VNull)) entries ->
  object_or_null (or_else base VNull) ->
  chain_ends (length (w_heap v')) (w_heap v') (or_else base VNull) = true ->
  let lrv := length (w_heap v') in
  exists v'',
    call host (S n) (VRef lf) this [] v = (Ok (VRef lrv), v'') /\
    (forall lb k x,
       base = VRef lb -> ~ In k (map entry_key entries) -> k <> PStr "__proto__" ->
       get_in (w_heap v') (VRef lb) k = Ok x ->
       get_in (w_heap v'') (VRef lrv) k = Ok x) /\
    (forall k,
       truthy base = false -> ~ In k (map entry_key entries) ->
       get_in (w_heap v'') (VRef lrv) k = Ok VUndefined).
Proof.
  intros Hf0 Hk0 Hbase Hf Hfm Hm Henum Hall Hobj Hchain lrv. subst lrv.
  eexists. split.
  { erewrite call_function by (first [exact Hf0 | exact Hk0]).
    cbn [run_code]. eapply provide_function_copies; eassumption. }
  cbn [w_heap with_heap].
  set (h := w_heap v') in *. set (pr := or_else base VNull) in *.
  set (h2 := <[length h := Obj KObject pr (provided_props entries [])]>
               (h ++ [Obj KObject pr []])).
  assert (Hrv : h2 !! length h = Some (Obj KObject pr (provided_props entries []))).
  { subst h2. apply list_lookup_insert_eq. rewrite length_app. cbn [length]. lia. }
  assert (Hlen : length h2 = S (length h)).
  { subst h2. rewrite length_insert, length_app. cbn [length]. lia. }
  assert (Hold : forall l ob, h !! l = Some ob -> h2 !! l = Some ob).
  { intros l ob Hl. subst h2. pose proof (lookup_lt_Some _ _ _ Hl).
    rewrite list_lookup_insert_ne by lia. now apply lookup_alloc_old. }
  assert (Hup : forall k, ~ In k (map entry_key entries) ->
            find_slot (length h2) h2 (VRef (length h)) k = find_slot (length h) h2 pr k).
  { intros k Hn. rewrite Hlen. cbn [find_slot]. rewrite Hrv. unfold own_get.
    cbn [o_props o_kind o_proto].
    now rewrite (provided_props_other k entries [] Hn). }
  split.
  - intros lb k x -> Hn Hne Hg.
    unfold get_in. rewrite (Hup k Hn). subst pr. cbn [or_else truthy].
    unfold get_in in Hg.
    destruct (find_slot (length h) h (VRef lb) k) as [s| |] eqn:Hs; try discriminate.
    rewrite (find_slot_similar _ _ _ _ _ _ (similar_above k _ _ Hold) Hs).
    destruct s; [exact Hg | | exact Hg].
    apply find_slot_accessor_key in Hs. contradiction.
  - intros k Hb Hn. unfold get_in. rewrite (Hup k Hn).
    subst pr. unfold or_else. rewrite Hb.
    destruct (length h); reflexivity.
Qed.

Lemma Provide_function_inherits_base_witness :
  exists v'',
    call idle_host 1 (VRef 3) (VRef 2) [] demo_provided = (Ok (VRef 5), v'') /\
    get_in (w_heap v'') (VRef 5) "theme" = Ok (VString "dark").
Proof.
  destruct (Provide_function_inherits_base idle_host 0 (VRef 1)
              demo_provided demo_provided 3 4
              (Obj (KFunction (CProvide (VRef 1))) (VBuiltin (BProto FunctionProto))
                   [(PStr "managed", VRef 4)])
              (Obj (KFunction (CProvide (VRef 1))) (VBuiltin (BProto FunctionProto))
                   [(PStr "managed", VRef 4)])
              [(PStr "a", VString "x"); (PStr "b", VString "b")]
              (VRef 2) (VRef 1)
              [("a", PStr "x", VNumber 1); ("b", PStr "b", VNumber 2)])
    as (v'' & H1 & H2 & _);
    [ reflexivity | reflexivity | reflexivity | reflexivity | reflexivity
    | reflexivity | reflexivity
    | repeat constructor; discriminate
    | exact I | reflexivity | ].
  exists v''. split; [exact H1|].
  apply (H2 1 (PStr "theme") (VString "dark") eq_refl);
    [ cbn; intros [H|[H|[]]]; discriminate | discriminate | reflexivity ].
Defined.

(** X30: the base of the result must be an object or falsy.  When the
    original [provide] is, or returns, a truthy value that is no object (a
    string, say), [Object.create] refuses it: the function of [Provide]
    throws a [TypeError], in the world in which the base was computed. *)
Theorem Provide_function_primitive_base_throws
    (host : nat -> callT -> value -> list value -> M value) (n : nat)
    (orig : value) (v v' : world) (lf : loc) (obf0 : obj) (this base : value) :
  w_heap v !! lf = Some obf0 -> o_kind obf0 = KFunction (CProvide orig) ->
  (fn <- is_function orig ;; if fn then call host n orig this [] else ret orig) v
    = (Ok base, v') ->
  primitive base -> truthy base = true ->
  call host (S n) (VRef lf) this [] v = (Throw VTypeError, v').
Proof.
  intros Hf0 Hk0 Hbase Hprim Ht.
  erewrite call_function by (first [exact Hf0 | exact Hk0]).
  cbn [run_code]. unfold provide_function.
  rewrite (bind_run _ _ _ _ _ (is_function_run _ _)).
  rewrite (bind_run _ _ _ _ _ (is_function_run _ _)) in Hbase.
  erewrite bind_run by exact Hbase.
  unfold or_else. rewrite Ht.
  destruct base; try contradiction; try discriminate; reflexivity.
Qed.

Lemma Provide_function_primitive_base_throws_witness :
  call idle_host 1 (VRef 1) (VRef 3) [] demo_provide_string
  = (Throw VTypeError, demo_provide_string).
Proof.
  apply (Provide_function_primitive_base_throws idle_host 0 (VString "dark")
           demo_provide_string demo_provide_string 1
           (Obj (KFunction (CProvide (VString "dark"))) (VBuiltin (BProto FunctionProto))
                [(PStr "managed", VRef 2)])
           (VRef 3) (VString "dark"));
    [reflexivity | reflexivity | reflexivity | exact I | reflexivity].
Defined.
